(** * static_vector: a fixed-capacity vector over inline storage

    A shallow embedding of [include/static_vector.h].  The class template
    [static_vector<T, Capacity>] keeps [Capacity] slots of raw storage and a
    counter [size_]; elements are built in place with placement new and are
    torn down with explicit destructor calls.

    The embedding keeps three things the C++ code depends on:
    - the address of every container (both assignment operators test
      [this != &other]), so containers live in a store indexed by address;
    - the contents of every slot, including slots above [size_];
    - the order of constructor and destructor calls, kept in a log. *)

From stdpp Require Import gmap list functions strings.

Set Default Proof Using "Type".

(** ** Result codes *)

(** [enum class StaticVectorErrorCode : uint8_t]. *)
Inductive StaticVectorErrorCode :=
  | NoError
  | OutOfSpace
  | OutOfRange
  | Empty
  | CannotDefaultConstruct.

Global Instance StaticVectorErrorCode_eq_dec : EqDecision StaticVectorErrorCode.
Proof. solve_decision. Defined.

(** ** Element types *)

(** What the container asks of [T]: a copy constructor [T(const T&)], which
    leaves its argument alone, and a move constructor [T(T&&)], which yields
    the new object together with the state left behind in its argument. *)
Class ElementType (T : Type) := {
  copy_construct : T → T;
  move_construct : T → T * T;
}.

(** Copies compare equal to their source ([operator==] read as Leibniz
    equality), the usual contract of a copy constructor. *)
Class CopyFaithful (T : Type) `{ElementType T} :=
  copy_construct_eq : ∀ x : T, copy_construct x = x.

(** [int]: copying and moving both leave the source as it is. *)
Global Instance int_element : ElementType Z :=
  {| copy_construct x := x; move_construct x := (x, x) |}.

(** [std::string]: a moved-from string is empty. *)
Global Instance string_element : ElementType string :=
  {| copy_construct x := x; move_construct x := (x, String.EmptyString) |}.

(** ** Addresses, pointers and lifetime events *)

(** A container is identified by its address; a [T*] into the storage of a
    container is the address of the container and a slot index. *)
Abbreviation addr := nat (only parsing).
Abbreviation pointer := (nat * nat)%type (only parsing).

(** [p + i] on element pointers. *)
Definition ptr_add (p : pointer) (i : nat) : pointer := (p.1, p.2 + i).

(** A constructor call ([::new (p) T(...)]) or a destructor call
    ([p->~T()]) on the slot [p], or the end of the storage of the
    container at [a]. *)
Inductive event :=
  | Construct (p : pointer)
  | Destroy (p : pointer)
  | Release (a : addr).

(** The slots in [live] that lie in the storage of the container at [a]. *)
Definition slots_of (a : addr) (live : gset pointer) : gset pointer :=
  filter (λ p, p.1 = a) live.

(** The slots in [live] that lie elsewhere. *)
Definition slots_off (a : addr) (live : gset pointer) : gset pointer :=
  filter (λ p, p.1 ≠ a) live.

Global Instance event_eq_dec : EqDecision event.
Proof. solve_decision. Defined.

(** Replays a log of lifetime events from the set [live] of slots that hold
    an object.  Building an object in a slot that still holds one, or
    releasing storage that still holds one, loses an object without a
    destructor call; destroying an empty slot is a second destruction.  All
    three make the replay fail. *)
Fixpoint lifetimes (l : list event) (live : gset pointer) : option (gset pointer) :=
  match l with
  | [] => Some live
  | Construct p :: l' =>
      if decide (p ∈ live) then None else lifetimes l' ({[p]} ∪ live)
  | Destroy p :: l' =>
      if decide (p ∈ live) then lifetimes l' (live ∖ {[p]}) else None
  | Release a :: l' =>
      if decide (slots_of a live = ∅) then lifetimes l' live else None
  end.

(** Every object built during [l] was destroyed exactly once during [l]. *)
Definition exactly_once (l : list event) : Prop := lifetimes l ∅ = Some ∅.

(** Replays a log as [lifetimes] does, except that objects may be lost
    when their slot is reused or their storage released: the replay fails
    only when a destructor runs on a slot that holds no object. *)
Fixpoint destroy_live (l : list event) (live : gset pointer) : option (gset pointer) :=
  match l with
  | [] => Some live
  | Construct p :: l' => destroy_live l' ({[p]} ∪ live)
  | Destroy p :: l' =>
      if decide (p ∈ live) then destroy_live l' (live ∖ {[p]}) else None
  | Release a :: l' => destroy_live l' (slots_off a live)
  end.

(** No destructor ran during [l] on an object that was already destroyed,
    or on a slot in which none was ever built. *)
Definition never_twice (l : list event) : Prop := is_Some (destroy_live l ∅).

(** Number of destructor calls on slot [p] in a log. *)
Definition destructions (p : pointer) (l : list event) : nat :=
  length (filter (λ e, e = Destroy p) l).

(** Number of constructor calls on slot [p] in a log. *)
Definition constructions (p : pointer) (l : list event) : nat :=
  length (filter (λ e, e = Construct p) l).

Section static_vector.
Context {T : Type} `{!ElementType T}.
(** The template parameter [Capacity].  Sizes and indices are [size_t];
    the code increments [size_] only below [Capacity] and decrements it
    only above zero, so no operation wraps and [nat] is exact. *)
Variable Capacity : nat.

(** ** The object and the store *)

(** [storage_] is raw memory for [Capacity] objects: slot [i] is [Some x]
    while an object with state [x] lives there, and [None] otherwise. *)
Record static_vector := StaticVector {
  storage_ : list (option T);
  size_ : nat;
}.

(** All containers alive, by address, and the lifetime events so far. *)
Record world := World {
  heap : gmap nat static_vector;
  log : list event;
}.

(** Computations over the store.  [None] is undefined behaviour: a
    dangling container address, an access outside the storage array, a
    read of a slot that holds no object. *)
Definition M (A : Type) : Type := world → option (A * world).

Definition ret {A} (a : A) : M A := λ w, Some (a, w).
Definition bind {A B} (m : M A) (k : A → M B) : M B :=
  λ w, match m w with
       | Some (a, w') => k a w'
       | None => None
       end.
Definition ub {A} : M A := λ _, None.

Notation "x <- m ;; k" := (bind m (λ x, k))
  (at level 100, m at next level, right associativity).
Notation "m ;;; k" := (bind m (λ _, k))
  (at level 100, right associativity).

Definition load (this : addr) : M static_vector :=
  λ w, match heap w !! this with
       | Some s => Some (s, w)
       | None => None
       end.

Definition store (this : addr) (s : static_vector) : M unit :=
  λ w, Some (tt, World (<[this := s]> (heap w)) (log w)).

Definition emit (e : event) : M unit :=
  λ w, Some (tt, World (heap w) (log w ++ [e])).

(** Reads and writes of the member [size_]. *)
Definition get_size (this : addr) : M nat :=
  s <- load this;; ret (size_ s).

Definition set_size (this : addr) (n : nat) : M unit :=
  s <- load this;; store this (StaticVector (storage_ s) n).

(** [data()]: pointer to slot 0 of the storage of [this]. *)
Definition data (this : addr) : pointer := (this, 0).

(** [::new (static_cast<void*>(p)) T(...)], where [x] is the state the
    constructor gives the new object. *)
Definition placement_new (p : pointer) (x : T) : M unit :=
  s <- load p.1;;
  if decide (p.2 < length (storage_ s)) then
    store p.1 (StaticVector (<[p.2 := Some x]> (storage_ s)) (size_ s));;;
    emit (Construct p)
  else ub.

(** [p->~T()]. *)
Definition destroy_at (p : pointer) : M unit :=
  s <- load p.1;;
  if decide (p.2 < length (storage_ s)) then
    store p.1 (StaticVector (<[p.2 := None]> (storage_ s)) (size_ s));;;
    emit (Destroy p)
  else ub.

(** [*p] as an rvalue: the state of the object in the slot. *)
Definition read (p : pointer) : M T :=
  s <- load p.1;;
  match storage_ s !! p.2 with
  | Some (Some x) => ret x
  | _ => ub
  end.

(** [*p = x]: the object in the slot takes a new state; no object is
    built or destroyed. *)
Definition assign (p : pointer) (x : T) : M unit :=
  s <- load p.1;;
  match storage_ s !! p.2 with
  | Some (Some _) =>
      store p.1 (StaticVector (<[p.2 := Some x]> (storage_ s)) (size_ s))
  | _ => ub
  end.

(** [std::uninitialized_copy_n(first, n, d_first)]. *)
Fixpoint uninitialized_copy_n (first : pointer) (n : nat) (d_first : pointer) : M unit :=
  match n with
  | 0 => ret tt
  | S n' =>
      x <- read first;;
      placement_new d_first (copy_construct x);;;
      uninitialized_copy_n (ptr_add first 1) n' (ptr_add d_first 1)
  end.

(** [std::uninitialized_move_n(first, n, d_first)]. *)
Fixpoint uninitialized_move_n (first : pointer) (n : nat) (d_first : pointer) : M unit :=
  match n with
  | 0 => ret tt
  | S n' =>
      x <- read first;;
      placement_new d_first (move_construct x).1;;;
      assign first (move_construct x).2;;;
      uninitialized_move_n (ptr_add first 1) n' (ptr_add d_first 1)
  end.

(** ** Arguments passed by reference *)

(** What a [const T&] or [T&&] parameter is bound to: an object of the
    caller that lies outside every container, in the state [x], or the
    element in the slot [p] of a container, as in
    [v.push_back(std::move(v[0]))]. *)
Inductive reference :=
  | Outside (x : T)
  | Element (p : pointer).

(** The arguments [args...] that reach a constructor call [T(args...)]:
    values of other types, from which the constructor gives the new object
    the state [x]; a [const T&], for the copy constructor; or a [T&&], for
    the move constructor. *)
Inductive arguments :=
  | Values (x : T)
  | Lvalue (value : reference)
  | Rvalue (value : reference).

(** The state of the object [value] refers to, as a constructor reads it
    while it builds a new object in the slot [p].  An object that was in
    that very slot is gone by then: its storage has been reused. *)
Definition source (p : pointer) (value : reference) : M T :=
  match value with
  | Outside x => ret x
  | Element q => if decide (q = p) then ub else read q
  end.

(** The object [value] refers to takes the state [x] a move constructor
    leaves in it.  The containers never see an object of the caller
    again, so that its state is not kept. *)
Definition leave (value : reference) (x : T) : M unit :=
  match value with
  | Outside _ => ret tt
  | Element q => assign q x
  end.

(** [::new (static_cast<void*>(p)) T(std::forward<Args>(args)...)]. *)
Definition construct (p : pointer) (args : arguments) : M unit :=
  match args with
  | Values x => placement_new p x
  | Lvalue value =>
      x <- source p value;;
      placement_new p (copy_construct x)
  | Rvalue value =>
      x <- source p value;;
      placement_new p (move_construct x).1;;;
      leave value (move_construct x).2
  end.

(** ** Member functions *)

(** [begin()]. *)
Definition begin (this : addr) : pointer := data this.

(** The loop of [clear]: [for (i = i0; i < i0 + n; ++i) data()[i].~T();]. *)
Fixpoint destroy_n (p : pointer) (n : nat) : M unit :=
  match n with
  | 0 => ret tt
  | S n' => destroy_at p;;; destroy_n (ptr_add p 1) n'
  end.

(** [void clear()]. *)
Definition clear (this : addr) : M unit :=
  n <- get_size this;;
  destroy_n (data this) n;;;
  set_size this 0.

(** Storage for a new container at [this], with [size_] initialised by
    the constructor's member initialiser list. *)
Definition allocate (this : addr) (n : nat) : M unit :=
  λ w, match heap w !! this with
       | Some _ => None
       | None =>
           Some (tt, World (<[this := StaticVector (replicate Capacity None) n]> (heap w))
                           (log w))
       end.

(** The storage of [this] goes away at the end of its destructor. *)
Definition deallocate (this : addr) : M unit :=
  λ w, match heap w !! this with
       | Some _ => Some (tt, World (delete this (heap w)) (log w ++ [Release this]))
       | None => None
       end.

(** [static_vector()]. *)
Definition static_vector_ctor (this : addr) : M unit :=
  allocate this 0.

(** [static_vector(const static_vector& other)]. *)
Definition static_vector_copy_ctor (this other : addr) : M unit :=
  n <- get_size other;;
  allocate this n;;;
  k <- get_size this;;
  uninitialized_copy_n (begin other) k (data this).

(** [static_vector(static_vector&& other)]. *)
Definition static_vector_move_ctor (this other : addr) : M unit :=
  n <- get_size other;;
  allocate this n;;;
  k <- get_size this;;
  uninitialized_move_n (begin other) k (data this);;;
  set_size other 0.

(** [operator=(const static_vector& other)]. *)
Definition operator_assign_copy (this other : addr) : M unit :=
  if decide (this ≠ other) then
    clear this;;;
    n <- get_size other;;
    set_size this n;;;
    k <- get_size this;;
    uninitialized_copy_n (begin other) k (data this)
  else ret tt.

(** [operator=(static_vector&& other)]. *)
Definition operator_assign_move (this other : addr) : M unit :=
  if decide (this ≠ other) then
    clear this;;;
    n <- get_size other;;
    set_size this n;;;
    k <- get_size this;;
    uninitialized_move_n (begin other) k (data this);;;
    clear other
  else ret tt.

(** [~static_vector()]. *)
Definition static_vector_dtor (this : addr) : M unit :=
  clear this;;;
  deallocate this.

(** [emplace_back(Args&&... args)]. *)
Definition emplace_back (this : addr) (args : arguments) : M StaticVectorErrorCode :=
  n <- get_size this;;
  if decide (Capacity ≤ n) then ret OutOfSpace
  else
    construct (ptr_add (data this) n) args;;;
    set_size this (S n);;;
    ret NoError.

(** [push_back(const T& value)]: the new element is [T(value)]. *)
Definition push_back (this : addr) (value : reference) : M StaticVectorErrorCode :=
  n <- get_size this;;
  if decide (Capacity ≤ n) then ret OutOfSpace
  else
    construct (ptr_add (data this) n) (Lvalue value);;;
    set_size this (S n);;;
    ret NoError.

(** [push_back(T&& value)]: the new element is [T(std::move(value))]. *)
Definition push_back_move (this : addr) (value : reference) : M StaticVectorErrorCode :=
  n <- get_size this;;
  if decide (Capacity ≤ n) then ret OutOfSpace
  else
    construct (ptr_add (data this) n) (Rvalue value);;;
    set_size this (S n);;;
    ret NoError.

(** [pop_back()]. *)
Definition pop_back (this : addr) : M StaticVectorErrorCode :=
  n <- get_size this;;
  if decide (n = 0) then ret Empty
  else
    set_size this (n - 1);;;
    k <- get_size this;;
    destroy_at (ptr_add (data this) k);;;
    ret NoError.

(** [operator[](pos)]: a reference to slot [pos], unchecked. *)
Definition subscript (this : addr) (pos : nat) : M pointer :=
  ret (ptr_add (data this) pos).

(** [at_if(pos)]; [None] is [nullptr]. *)
Definition at_if (this : addr) (pos : nat) : M (option pointer) :=
  n <- get_size this;;
  if decide (pos < n) then ret (Some (ptr_add (data this) pos)) else ret None.

(** [front_if()]. *)
Definition front_if (this : addr) : M (option pointer) :=
  n <- get_size this;;
  if decide (0 < n) then ret (Some (ptr_add (data this) 0)) else ret None.

(** [back_if()]. *)
Definition back_if (this : addr) : M (option pointer) :=
  n <- get_size this;;
  if decide (0 < n) then ret (Some (ptr_add (data this) (n - 1))) else ret None.

(** [empty()]. *)
Definition empty (this : addr) : M bool :=
  n <- get_size this;; ret (bool_decide (n = 0)).

(** [size()]. *)
Definition size (this : addr) : M nat :=
  get_size this.

(** [capacity()]. *)
Definition capacity (this : addr) : M nat :=
  _ <- load this;; ret Capacity.

(** ** Iterators *)

(** [end()]: one past the last element. *)
Definition end_ (this : addr) : M pointer :=
  n <- get_size this;; ret (ptr_add (data this) n).

(** [cbegin()] and [cend()] return [begin()] and [end()]. *)
Definition cbegin (this : addr) : pointer := begin this.

Definition cend (this : addr) : M pointer := end_ this.

(** [std::reverse_iterator<T*>]: it wraps the pointer [current] and
    designates the element before it. *)
Record reverse_iterator := ReverseIterator { current : pointer }.

(** [*r]: [T* tmp = current; return *--tmp;].  A pointer cannot step
    before slot 0. *)
Definition reverse_deref (r : reverse_iterator) : M T :=
  if decide ((current r).2 = 0) then ub
  else read ((current r).1, (current r).2 - 1).

(** [++r]: [--current]. *)
Definition reverse_incr (r : reverse_iterator) : M reverse_iterator :=
  if decide ((current r).2 = 0) then ub
  else ret (ReverseIterator ((current r).1, (current r).2 - 1)).

(** [rbegin()]: [reverse_iterator(end())]. *)
Definition rbegin (this : addr) : M reverse_iterator :=
  last <- end_ this;; ret (ReverseIterator last).

(** [rend()]: [reverse_iterator(begin())]. *)
Definition rend (this : addr) : M reverse_iterator :=
  ret (ReverseIterator (begin this)).

(** [crbegin()] and [crend()] return [rbegin()] and [rend()]. *)
Definition crbegin (this : addr) : M reverse_iterator := rbegin this.

Definition crend (this : addr) : M reverse_iterator := rend this.

(** ** Client programs *)

(** A call of a member function on one container.  What a push is given
    here is an object of the caller, in the state [x]. *)
Inductive call :=
  | CEmplaceBack (x : T)
  | CPushBack (x : T)
  | CPushBackMove (x : T)
  | CPopBack
  | CClear
  | CAtIf (pos : nat)
  | CFrontIf
  | CBackIf
  | CGet (pos : nat)
  | CSet (pos : nat) (x : T)
  | CEmpty
  | CSize
  | CCapacity.

(** What the caller sees of a call.  A returned pointer is shown with
    the element it points to. *)
Inductive obs :=
  | OUnit
  | OCode (c : StaticVectorErrorCode)
  | OPtr (p : option pointer) (x : option T)
  | OElem (x : T)
  | OBool (b : bool)
  | ONat (n : nat).

(** Follows a pointer returned by a checked accessor, unless it is null. *)
Definition observe_ptr (p : option pointer) : M obs :=
  match p with
  | None => ret (OPtr None None)
  | Some q => x <- read q;; ret (OPtr (Some q) (Some x))
  end.

Definition do_call (this : addr) (c : call) : M obs :=
  match c with
  | CEmplaceBack x => r <- emplace_back this (Values x);; ret (OCode r)
  | CPushBack x => r <- push_back this (Outside x);; ret (OCode r)
  | CPushBackMove x => r <- push_back_move this (Outside x);; ret (OCode r)
  | CPopBack => r <- pop_back this;; ret (OCode r)
  | CClear => clear this;;; ret OUnit
  | CAtIf pos => p <- at_if this pos;; observe_ptr p
  | CFrontIf => p <- front_if this;; observe_ptr p
  | CBackIf => p <- back_if this;; observe_ptr p
  | CGet pos => p <- subscript this pos;; x <- read p;; ret (OElem x)
  | CSet pos x => p <- subscript this pos;; assign p x;;; ret OUnit
  | CEmpty => b <- empty this;; ret (OBool b)
  | CSize => n <- size this;; ret (ONat n)
  | CCapacity => n <- capacity this;; ret (ONat n)
  end.

(** Calls in sequence on one container. *)
Fixpoint do_calls (this : addr) (cs : list call) : M (list obs) :=
  match cs with
  | [] => ret []
  | c :: cs' => o <- do_call this c;; os <- do_calls this cs';; ret (o :: os)
  end.

(** A statement of a client: a declaration, an assignment, the end of a
    container's scope, or a member call. *)
Inductive stmt :=
  | SCtor (this : addr)
  | SCopyCtor (this other : addr)
  | SMoveCtor (this other : addr)
  | SAssignCopy (this other : addr)
  | SAssignMove (this other : addr)
  | SDtor (this : addr)
  | SCall (this : addr) (c : call).

Definition exec (st : stmt) : M obs :=
  match st with
  | SCtor this => static_vector_ctor this;;; ret OUnit
  | SCopyCtor this other => static_vector_copy_ctor this other;;; ret OUnit
  | SMoveCtor this other => static_vector_move_ctor this other;;; ret OUnit
  | SAssignCopy this other => operator_assign_copy this other;;; ret OUnit
  | SAssignMove this other => operator_assign_move this other;;; ret OUnit
  | SDtor this => static_vector_dtor this;;; ret OUnit
  | SCall this c => do_call this c
  end.

Fixpoint run (prog : list stmt) : M (list obs) :=
  match prog with
  | [] => ret []
  | st :: prog' => o <- exec st;; os <- run prog';; ret (o :: os)
  end.

(** The world before any container exists. *)
Definition initial : world := World ∅ [].

(** ** Loops of the tests and benchmarks *)

(** [for (; it != last; ++it)] reading [*it] in every round, with the
    elements read.  [fuel] bounds the number of rounds: the result is [None]
    also when the fuel runs out before [it] meets [last]. *)
Fixpoint visit (fuel : nat) (it last : pointer) : M (list T) :=
  match fuel with
  | 0 => if decide (it = last) then ret [] else ub
  | S fuel' =>
      if decide (it = last) then ret []
      else x <- read it;; xs <- visit fuel' (ptr_add it 1) last;; ret (x :: xs)
  end.

(** [for (auto& item : v)]: the range-based loop, over [begin()] and
    [end()]. *)
Definition range_for (fuel : nat) (this : addr) : M (list T) :=
  last <- end_ this;; visit fuel (begin this) last.

(** [for (; rit != last; ++rit)] reading [*rit] in every round. *)
Fixpoint reverse_visit (fuel : nat) (rit last : reverse_iterator) : M (list T) :=
  match fuel with
  | 0 => if decide (current rit = current last) then ret [] else ub
  | S fuel' =>
      if decide (current rit = current last) then ret []
      else
        x <- reverse_deref rit;;
        next <- reverse_incr rit;;
        xs <- reverse_visit fuel' next last;;
        ret (x :: xs)
  end.

(** The loop from [rbegin()] to [rend()]. *)
Definition reverse_range (fuel : nat) (this : addr) : M (list T) :=
  first <- rbegin this;; last <- rend this;; reverse_visit fuel first last.

(** The fill loop of the benchmarks,
    [for (const auto& item : data) v.push_back(item);]: the items are
    those of the caller's [data], and the return codes are dropped. *)
Fixpoint push_back_all (this : addr) (items : list T) : M unit :=
  match items with
  | [] => ret tt
  | item :: rest => push_back this (Outside item);;; push_back_all this rest
  end.

(** The loop of [BM_PopBack], [while (!v.empty()) v.pop_back();]. *)
Fixpoint pop_back_all (fuel : nat) (this : addr) : M unit :=
  match fuel with
  | 0 => b <- empty this;; if b : bool then ret tt else ub
  | S fuel' =>
      b <- empty this;;
      if b : bool then ret tt else pop_back this;;; pop_back_all fuel' this
  end.

(** One round of [BM_Construction]: [VectorType v;], the fill loop, and
    the end of the scope of [v]. *)
Definition BM_Construction (this : addr) (items : list T) : M unit :=
  static_vector_ctor this;;;
  push_back_all this items;;;
  static_vector_dtor this.

(** One round of [BM_PopBack]: [VectorType v;], the fill loop, the
    [pop_back] loop, and the end of the scope of [v]. *)
Definition BM_PopBack (fuel : nat) (this : addr) (items : list T) : M unit :=
  static_vector_ctor this;;;
  push_back_all this items;;;
  pop_back_all fuel this;;;
  static_vector_dtor this.

(** ** Well-formed containers *)

(** The storage has [Capacity] slots, [size_] is within it, and the slots
    below [size_] hold objects. *)
Record wf (s : static_vector) : Prop := {
  wf_length : length (storage_ s) = Capacity;
  wf_size : size_ s ≤ Capacity;
  wf_live : ∀ i, i < size_ s → ∃ x, storage_ s !! i = Some (Some x);
}.

Definition wf_world (w : world) : Prop :=
  ∀ a s, heap w !! a = Some s → wf s.

(** The states of the objects in slots [i, i + n), when all hold one. *)
Definition elements_from (s : static_vector) (i n : nat) : option (list T) :=
  mapM id (take n (drop i (storage_ s))).

(** [l] with the slots from [i] on replaced by [ys]. *)
Definition overwrite (i : nat) (ys : list (option T)) (l : list (option T)) :=
  take i l ++ ys ++ drop (i + length ys) l.

(** Destructor calls on the slots [i, i + n) of a container, in order of
    increasing index. *)
Definition destroyed (this : addr) (i n : nat) : list event :=
  (λ k, Destroy (this, k)) <$> seq i n.

(** Constructor calls on the slots [i, i + n) of a container, in order. *)
Definition constructed (this : addr) (i n : nat) : list event :=
  (λ k, Construct (this, k)) <$> seq i n.

(** ** Derived states and effects *)

(** The container after an object with state [x] is built at slot
    [size_] and [size_] is incremented. *)
Definition grown (s : static_vector) (x : T) : static_vector :=
  StaticVector (<[size_ s := Some x]> (storage_ s)) (S (size_ s)).

(** The container after [size_] is decremented and the object in the
    slot it then names is destroyed. *)
Definition shrunk (s : static_vector) : static_vector :=
  StaticVector (<[size_ s - 1 := None]> (storage_ s)) (size_ s - 1).

(** The container after [clear]. *)
Definition cleared (s : static_vector) : static_vector :=
  StaticVector (overwrite 0 (replicate (size_ s) None) (storage_ s)) 0.

(** The states of the live elements, in index order. *)
Definition contents (s : static_vector) : list T :=
  omap id (take (size_ s) (storage_ s)).

(** The container built by the copy constructor from [so]. *)
Definition copy_of (so : static_vector) : static_vector :=
  StaticVector (overwrite 0 (Some ∘ copy_construct <$> contents so) (replicate Capacity None))
               (size_ so).

(** The container built by the move constructor from [so]. *)
Definition moved_to (so : static_vector) : static_vector :=
  StaticVector (overwrite 0 (Some ∘ fst ∘ move_construct <$> contents so)
                          (replicate Capacity None))
               (size_ so).

(** What the move constructor leaves of its argument [so]. *)
Definition moved_from (so : static_vector) : static_vector :=
  StaticVector (overwrite 0 (Some ∘ snd ∘ move_construct <$> contents so) (storage_ so)) 0.

(** The destination [st] of a copy assignment from [so], afterwards. *)
Definition copy_assigned (st so : static_vector) : static_vector :=
  StaticVector (overwrite 0 (Some ∘ copy_construct <$> contents so) (storage_ (cleared st)))
               (size_ so).

(** The destination [st] of a move assignment from [so], afterwards. *)
Definition move_assigned (st so : static_vector) : static_vector :=
  StaticVector (overwrite 0 (Some ∘ fst ∘ move_construct <$> contents so)
                          (storage_ (cleared st)))
               (size_ so).

(** The source [so] of a move assignment once its elements have been
    moved from, before it is cleared. *)
Definition moved_out (so : static_vector) : static_vector :=
  StaticVector (overwrite 0 (Some ∘ snd ∘ move_construct <$> contents so) (storage_ so))
               (size_ so).

(** The three ways to push: [emplace_back], [push_back(const T&)] and
    [push_back(T&&)]. *)
Inductive push_form := ByEmplace | ByCopy | ByMove.

(** A push of an object of the caller: [x] is the state [T(args...)] has
    for [emplace_back], and the state of the object passed for the two
    [push_back] overloads. *)
Definition push (f : push_form) (this : addr) (x : T) : M StaticVectorErrorCode :=
  match f with
  | ByEmplace => emplace_back this (Values x)
  | ByCopy => push_back this (Outside x)
  | ByMove => push_back_move this (Outside x)
  end.

(** The state of the element a push builds from its argument. *)
Definition pushed (f : push_form) (x : T) : T :=
  match f with
  | ByEmplace => x
  | ByCopy => copy_construct x
  | ByMove => (move_construct x).1
  end.

(** A push with what it is given: arguments of any kind for
    [emplace_back], a reference for each [push_back] overload. *)
Inductive pushing :=
  | Emplace (args : arguments)
  | PushBack (value : reference)
  | PushBackMove (value : reference).

Definition do_push (this : addr) (c : pushing) : M StaticVectorErrorCode :=
  match c with
  | Emplace args => emplace_back this args
  | PushBack value => push_back this value
  | PushBackMove value => push_back_move this value
  end.

(** What reaches the constructor of the new element. *)
Definition forwarded (c : pushing) : arguments :=
  match c with
  | Emplace args => args
  | PushBack value => Lvalue value
  | PushBackMove value => Rvalue value
  end.

(** Pushes in sequence, with their return codes. *)
Fixpoint do_pushes (this : addr) (cs : list pushing) : M (list StaticVectorErrorCode) :=
  match cs with
  | [] => ret []
  | c :: cs' => r <- do_push this c;; rs <- do_pushes this cs';; ret (r :: rs)
  end.

(** What the slot [p] holds among the containers [h]. *)
Definition slot (h : gmap nat static_vector) (p : pointer) : option (option T) :=
  s ← h !! p.1; storage_ s !! p.2.

(** The state of the live object [value] refers to: an object of the
    caller, or an element below the size of its container.  [None] when
    there is no such element. *)
Definition referent (w : world) (value : reference) : option T :=
  match value with
  | Outside x => Some x
  | Element p =>
      s ← heap w !! p.1;
      if decide (p.2 < size_ s) then mjoin (storage_ s !! p.2) else None
  end.

(** The state [T(args...)] gives the new object when every reference
    among [args] names a live object. *)
Definition built (w : world) (args : arguments) : option T :=
  match args with
  | Values x => Some x
  | Lvalue value => copy_construct <$> referent w value
  | Rvalue value => (λ x, (move_construct x).1) <$> referent w value
  end.

(** The element slot that [args] refer to, if any. *)
Definition referred (args : arguments) : option pointer :=
  match args with
  | Lvalue (Element p) | Rvalue (Element p) => Some p
  | _ => None
  end.

(** The container [s] once the element in its slot [i] has been moved
    from. *)
Definition moved_from_at (i : nat) (s : static_vector) : static_vector :=
  match storage_ s !! i with
  | Some (Some x) => StaticVector (<[i := Some (move_construct x).2]> (storage_ s)) (size_ s)
  | _ => s
  end.

(** The containers [h] once a constructor has run on [args]: an element
    passed as an rvalue has been moved from. *)
Definition passed (args : arguments) (h : gmap nat static_vector) : gmap nat static_vector :=
  match args with
  | Rvalue (Element p) => alter (moved_from_at p.2) p.1 h
  | _ => h
  end.

(** The references of the [k]-th push of a sequence into the container at
    [this], which is empty in [w], name objects that are live at that
    push: an element one of the earlier pushes built, or a live element of
    another container. *)
Definition live_at (w : world) (this : addr) (k : nat) (c : pushing) : Prop :=
  ∀ p, referred (forwarded c) = Some p →
       if decide (p.1 = this) then p.2 < k else is_Some (referent w (Element p)).

(** What a member call on a container in state [s] at address [this]
    returns, the state it leaves and the lifetime events it causes;
    [None] where the call is undefined.  [do_call_eq] proves that this is
    what [do_call] computes. *)
Definition call_effect (this : addr) (c : call) (s : static_vector)
  : option (obs * static_vector * list event) :=
  let push x :=
    if decide (Capacity ≤ size_ s) then Some (OCode OutOfSpace, s, [])
    else Some (OCode NoError, grown s x, [Construct (this, size_ s)]) in
  let deref i :=
    match storage_ s !! i with
    | Some (Some x) => Some (OPtr (Some (this, i)) (Some x), s, [])
    | _ => None
    end in
  match c with
  | CEmplaceBack x => push x
  | CPushBack x => push (copy_construct x)
  | CPushBackMove x => push (move_construct x).1
  | CPopBack =>
      if decide (size_ s = 0) then Some (OCode Empty, s, [])
      else Some (OCode NoError, shrunk s, [Destroy (this, size_ s - 1)])
  | CClear => Some (OUnit, cleared s, destroyed this 0 (size_ s))
  | CAtIf pos =>
      if decide (pos < size_ s) then deref pos else Some (OPtr None None, s, [])
  | CFrontIf =>
      if decide (0 < size_ s) then deref 0 else Some (OPtr None None, s, [])
  | CBackIf =>
      if decide (0 < size_ s) then deref (size_ s - 1) else Some (OPtr None None, s, [])
  | CGet pos =>
      match storage_ s !! pos with
      | Some (Some x) => Some (OElem x, s, [])
      | _ => None
      end
  | CSet pos x =>
      match storage_ s !! pos with
      | Some (Some _) =>
          Some (OUnit, StaticVector (<[pos := Some x]> (storage_ s)) (size_ s), [])
      | _ => None
      end
  | CEmpty => Some (OBool (bool_decide (size_ s = 0)), s, [])
  | CSize => Some (ONat (size_ s), s, [])
  | CCapacity => Some (ONat Capacity, s, [])
  end.

(** The world after a call with the given effect on [this]. *)
Definition apply_effect {A} (this : addr) (w : world)
    (r : option (A * static_vector * list event)) : option (A * world) :=
  match r with
  | Some (a, s', evs) => Some (a, World (<[this := s']> (heap w)) (log w ++ evs))
  | None => None
  end.

(** The effect of calls in sequence on one container. *)
Fixpoint calls_effect (this : addr) (cs : list call) (s : static_vector)
  : option (list obs * static_vector * list event) :=
  match cs with
  | [] => Some ([], s, [])
  | c :: cs' =>
      match call_effect this c s with
      | Some (o, s1, e1) =>
          match calls_effect this cs' s1 with
          | Some (os, s2, e2) => Some (o :: os, s2, e1 ++ e2)
          | None => None
          end
      | None => None
      end
  end.

(** Calls that check their index: all but the unchecked subscript. *)
Definition checked (c : call) : Prop :=
  match c with
  | CGet _ | CSet _ _ => False
  | _ => True
  end.

(** [s2] has the size of [s1] and every object of [s1], in the same slot
    and the same state; it may hold further objects, above its size. *)
Definition refines (s1 s2 : static_vector) : Prop :=
  size_ s1 = size_ s2
  ∧ ∀ i x, storage_ s1 !! i = Some (Some x) → storage_ s2 !! i = Some (Some x).

(** Two worlds with the same log and the same containers up to
    [refines]. *)
Definition refines_world (w1 w2 : world) : Prop :=
  log w1 = log w2 ∧ ∀ a, option_Forall2 refines (heap w1 !! a) (heap w2 !! a).

(** The worlds a statement can lead to.  [exec_step] and [step_exec]
    show that this relation is [exec] on well-formed worlds. *)
Inductive step : stmt → world → obs → world → Prop :=
  | step_ctor this w :
      heap w !! this = None →
      step (SCtor this) w OUnit
           (World (<[this := StaticVector (replicate Capacity None) 0]> (heap w)) (log w))
  | step_copy_ctor this other w so :
      heap w !! this = None →
      heap w !! other = Some so →
      step (SCopyCtor this other) w OUnit
           (World (<[this := copy_of so]> (heap w))
                  (log w ++ constructed this 0 (size_ so)))
  | step_move_ctor this other w so :
      heap w !! this = None →
      heap w !! other = Some so →
      step (SMoveCtor this other) w OUnit
           (World (<[other := moved_from so]> (<[this := moved_to so]> (heap w)))
                  (log w ++ constructed this 0 (size_ so)))
  | step_assign_copy_self this w :
      step (SAssignCopy this this) w OUnit w
  | step_assign_copy this other w st so :
      this ≠ other →
      heap w !! this = Some st →
      heap w !! other = Some so →
      step (SAssignCopy this other) w OUnit
           (World (<[this := copy_assigned st so]> (heap w))
                  (log w ++ destroyed this 0 (size_ st) ++ constructed this 0 (size_ so)))
  | step_assign_move_self this w :
      step (SAssignMove this this) w OUnit w
  | step_assign_move this other w st so :
      this ≠ other →
      heap w !! this = Some st →
      heap w !! other = Some so →
      step (SAssignMove this other) w OUnit
           (World (<[other := cleared (moved_out so)]>
                     (<[this := move_assigned st so]> (heap w)))
                  (log w ++ destroyed this 0 (size_ st) ++ constructed this 0 (size_ so)
                         ++ destroyed other 0 (size_ so)))
  | step_dtor this w s :
      heap w !! this = Some s →
      step (SDtor this) w OUnit
           (World (delete this (heap w))
                  (log w ++ destroyed this 0 (size_ s) ++ [Release this]))
  | step_call this c w s o s' evs :
      heap w !! this = Some s →
      call_effect this c s = Some (o, s', evs) →
      step (SCall this c) w o (World (<[this := s']> (heap w)) (log w ++ evs)).

(** The size of the container at [a], zero where there is none. *)
Definition size_at (h : gmap nat static_vector) (a : addr) : nat :=
  from_option size_ 0 (h !! a).

(** [live] is the set of slots below the size of their container. *)
Definition tracks (live : gset pointer) (w : world) : Prop :=
  ∀ a i, (a, i) ∈ live ↔ i < size_at (heap w) a.

(** Statements that may write to the container at [c]: those that name
    it as their object, and those that move from it. *)
Definition writes_to (c : addr) (st : stmt) : Prop :=
  match st with
  | SCtor a | SCopyCtor a _ | SAssignCopy a _ | SDtor a | SCall a _ => a = c
  | SMoveCtor a b | SAssignMove a b => a = c ∨ b = c
  end.

(** Statements other than move construction. *)
Definition no_move_ctor (st : stmt) : Prop :=
  match st with
  | SMoveCtor _ _ => False
  | _ => True
  end.

(** [live] holds, for every address, at least the slots below [f] of that
    address. *)
Definition covered (live : gset pointer) (f : addr → nat) : Prop :=
  ∀ b i, i < f b → (b, i) ∈ live.

(** [live] holds, for every address, the slots below [f] of that
    address. *)
Definition sized (live : gset pointer) (f : addr → nat) : Prop :=
  ∀ b i, (b, i) ∈ live ↔ i < f b.

(** ** Equations of the primitives *)

Lemma bind_eq {A B} (m : M A) (k : A → M B) w a w' :
  m w = Some (a, w') → bind m k w = k a w'.
Proof. unfold bind. by intros ->. Qed.

Lemma load_eq w this s :
  heap w !! this = Some s → load this w = Some (s, w).
Proof. unfold load. by intros ->. Qed.

Lemma get_size_eq w this s :
  heap w !! this = Some s → get_size this w = Some (size_ s, w).
Proof. intros H. unfold get_size. by rewrite (bind_eq _ _ _ _ _ (load_eq _ _ _ H)). Qed.

Lemma set_size_eq w this s n :
  heap w !! this = Some s →
  set_size this n w
  = Some (tt, World (<[this := StaticVector (storage_ s) n]> (heap w)) (log w)).
Proof. intros H. unfold set_size. by rewrite (bind_eq _ _ _ _ _ (load_eq _ _ _ H)). Qed.

Lemma placement_new_eq w this i s x :
  heap w !! this = Some s →
  i < length (storage_ s) →
  placement_new (this, i) x w
  = Some (tt, World (<[this := StaticVector (<[i := Some x]> (storage_ s)) (size_ s)]> (heap w))
                    (log w ++ [Construct (this, i)])).
Proof.
  intros H Hi. unfold placement_new. simpl.
  rewrite (bind_eq _ _ _ _ _ (load_eq _ _ _ H)).
  by rewrite decide_True.
Qed.

Lemma destroy_at_eq w this i s :
  heap w !! this = Some s →
  i < length (storage_ s) →
  destroy_at (this, i) w
  = Some (tt, World (<[this := StaticVector (<[i := None]> (storage_ s)) (size_ s)]> (heap w))
                    (log w ++ [Destroy (this, i)])).
Proof.
  intros H Hi. unfold destroy_at. simpl.
  rewrite (bind_eq _ _ _ _ _ (load_eq _ _ _ H)).
  by rewrite decide_True.
Qed.

Lemma read_eq w this i s x :
  heap w !! this = Some s →
  storage_ s !! i = Some (Some x) →
  read (this, i) w = Some (x, w).
Proof.
  intros H Hi. unfold read. simpl.
  rewrite (bind_eq _ _ _ _ _ (load_eq _ _ _ H)). by rewrite Hi.
Qed.

Lemma assign_eq w this i s x y :
  heap w !! this = Some s →
  storage_ s !! i = Some (Some y) →
  assign (this, i) x w
  = Some (tt, World (<[this := StaticVector (<[i := Some x]> (storage_ s)) (size_ s)]> (heap w))
                    (log w)).
Proof.
  intros H Hi. unfold assign. simpl.
  rewrite (bind_eq _ _ _ _ _ (load_eq _ _ _ H)). by rewrite Hi.
Qed.

(** ** Lists overwritten slot by slot *)

Lemma overwrite_nil i (l : list (option T)) : overwrite i [] l = l.
Proof. unfold overwrite. simpl. rewrite Nat.add_0_r. apply take_drop. Qed.

Lemma overwrite_insert i y ys (l : list (option T)) :
  i < length l →
  overwrite (S i) ys (<[i := y]> l) = overwrite i (y :: ys) l.
Proof.
  intros Hi. unfold overwrite.
  rewrite (insert_take_drop l i y Hi).
  assert (Hlen : length (take i l) = i) by (rewrite length_take; lia).
  rewrite (take_app_ge (take i l)) by lia.
  rewrite Hlen. replace (S i - i) with 1 by lia. simpl. rewrite take_0.
  rewrite (drop_app_ge (take i l)) by lia.
  rewrite Hlen. replace (S (i + length ys) - i) with (S (length ys)) by lia.
  simpl. rewrite drop_drop. rewrite <- app_assoc. simpl.
  by replace (i + S (length ys)) with (S (i + length ys)) by lia.
Qed.

Lemma length_overwrite i ys (l : list (option T)) :
  i + length ys ≤ length l → length (overwrite i ys l) = length l.
Proof.
  intros H. unfold overwrite.
  rewrite !length_app, length_take, length_drop. lia.
Qed.

Lemma lookup_overwrite_mid i ys (l : list (option T)) k :
  i ≤ length l → k < length ys → overwrite i ys l !! (i + k) = ys !! k.
Proof.
  intros Hi Hk. unfold overwrite.
  rewrite lookup_app_r by (rewrite length_take; lia).
  rewrite length_take. replace (i + k - i `min` length l) with k by lia.
  by rewrite lookup_app_l.
Qed.

Lemma lookup_overwrite_ge i ys (l : list (option T)) k :
  i ≤ length l → i + length ys ≤ k → overwrite i ys l !! k = l !! k.
Proof.
  intros Hi Hk. unfold overwrite.
  rewrite lookup_app_r by (rewrite length_take; lia).
  rewrite lookup_app_r by (rewrite length_take; lia).
  rewrite lookup_drop. f_equal. rewrite length_take. lia.
Qed.

(** ** Equations of the loops *)

Lemma world_eta (w : world) : World (heap w) (log w) = w.
Proof. by destruct w. Qed.

Lemma static_vector_eta (s : static_vector) : StaticVector (storage_ s) (size_ s) = s.
Proof. by destruct s. Qed.

Lemma ptr_add_pair this i k : ptr_add (this, i) k = (this, i + k).
Proof. done. Qed.

Lemma destroy_n_eq n : ∀ w this i s,
  heap w !! this = Some s →
  i + n ≤ length (storage_ s) →
  destroy_n (this, i) n w
  = Some (tt, World (<[this := StaticVector (overwrite i (replicate n None) (storage_ s))
                                            (size_ s)]> (heap w))
                    (log w ++ destroyed this i n)).
Proof.
  induction n as [|n IH]; intros w this i s Hs Hlen; simpl.
  - unfold ret, destroyed. simpl.
    rewrite overwrite_nil, static_vector_eta, (insert_id _ _ _ Hs), app_nil_r.
    by rewrite world_eta.
  - assert (Hi : i < length (storage_ s)) by lia.
    rewrite (bind_eq _ _ _ _ _ (destroy_at_eq _ _ _ _ Hs Hi)).
    rewrite ptr_add_pair, Nat.add_1_r.
    erewrite IH; [|simpl; apply lookup_insert_eq|simpl; rewrite length_insert; lia].
    simpl. rewrite insert_insert_eq, overwrite_insert by lia.
    unfold destroyed. simpl. by rewrite <- app_assoc.
Qed.

Lemma uninitialized_copy_n_eq n : ∀ w other this i so st xs,
  this ≠ other →
  heap w !! other = Some so →
  heap w !! this = Some st →
  elements_from so i n = Some xs →
  i + n ≤ length (storage_ so) →
  i + n ≤ length (storage_ st) →
  uninitialized_copy_n (other, i) n (this, i) w
  = Some (tt, World (<[this := StaticVector
                                 (overwrite i (Some ∘ copy_construct <$> xs) (storage_ st))
                                 (size_ st)]> (heap w))
                    (log w ++ constructed this i n)).
Proof.
  induction n as [|n IH]; intros w other this i so st xs Hne Hso Hst Hxs Hlo Hlt; simpl.
  - unfold elements_from in Hxs. rewrite take_0 in Hxs. simpl in Hxs.
    injection Hxs as <-. unfold ret, constructed. simpl.
    rewrite overwrite_nil, static_vector_eta, (insert_id _ _ _ Hst), app_nil_r.
    by rewrite world_eta.
  - unfold elements_from in Hxs.
    assert (Hio : i < length (storage_ so)) by lia.
    assert (Hit : i < length (storage_ st)) by lia.
    destruct (lookup_lt_is_Some_2 (storage_ so) i Hio) as [y Hy].
    rewrite (drop_S _ _ _ Hy) in Hxs. simpl in Hxs.
    destruct y as [x|]; simpl in Hxs; [|done].
    destruct (mapM id (take n (drop (S i) (storage_ so)))) as [xs'|] eqn:Hxs';
      simpl in Hxs; [|done].
    injection Hxs as <-.
    rewrite (bind_eq _ _ _ _ _ (read_eq _ _ _ _ _ Hso Hy)).
    rewrite (bind_eq _ _ _ _ _ (placement_new_eq _ _ _ _ _ Hst Hit)).
    rewrite !ptr_add_pair, Nat.add_1_r.
    rewrite (IH _ other this (S i) so
               (StaticVector (<[i := Some (copy_construct x)]> (storage_ st)) (size_ st))
               xs'); simpl; try done.
    + rewrite insert_insert_eq, overwrite_insert by lia.
      unfold constructed. simpl. by rewrite <- app_assoc.
    + by rewrite lookup_insert_ne.
    + apply lookup_insert_eq.
    + lia.
    + rewrite length_insert. lia.
Qed.

Lemma elements_from_S (s : static_vector) i n xs :
  i + S n ≤ length (storage_ s) →
  elements_from s i (S n) = Some xs →
  ∃ x xs', xs = x :: xs' ∧ storage_ s !! i = Some (Some x)
           ∧ elements_from s (S i) n = Some xs'.
Proof.
  intros Hlen Hxs. unfold elements_from in *.
  assert (Hi : i < length (storage_ s)) by lia.
  destruct (lookup_lt_is_Some_2 (storage_ s) i Hi) as [y Hy].
  rewrite (drop_S _ _ _ Hy) in Hxs. simpl in Hxs.
  destruct y as [x|]; simpl in Hxs; [|done].
  destruct (mapM id (take n (drop (S i) (storage_ s)))) as [xs'|] eqn:Hxs';
    simpl in Hxs; [|done].
  injection Hxs as <-. by exists x, xs'.
Qed.

Lemma uninitialized_move_n_eq n : ∀ w other this i so st xs,
  this ≠ other →
  heap w !! other = Some so →
  heap w !! this = Some st →
  elements_from so i n = Some xs →
  i + n ≤ length (storage_ so) →
  i + n ≤ length (storage_ st) →
  uninitialized_move_n (other, i) n (this, i) w
  = Some (tt, World (<[other := StaticVector
                                  (overwrite i (Some ∘ snd ∘ move_construct <$> xs) (storage_ so))
                                  (size_ so)]>
                      (<[this := StaticVector
                                   (overwrite i (Some ∘ fst ∘ move_construct <$> xs) (storage_ st))
                                   (size_ st)]> (heap w)))
                    (log w ++ constructed this i n)).
Proof.
  induction n as [|n IH]; intros w other this i so st xs Hne Hso Hst Hxs Hlo Hlt; simpl.
  - unfold elements_from in Hxs. rewrite take_0 in Hxs. simpl in Hxs.
    injection Hxs as <-. unfold ret, constructed. simpl.
    rewrite !overwrite_nil, !static_vector_eta, (insert_id _ _ _ Hst), (insert_id _ _ _ Hso).
    by rewrite app_nil_r, world_eta.
  - destruct (elements_from_S _ _ _ _ Hlo Hxs) as (x & xs' & -> & Hy & Hxs').
    assert (Hio : i < length (storage_ so)) by lia.
    assert (Hit : i < length (storage_ st)) by lia.
    rewrite (bind_eq _ _ _ _ _ (read_eq _ _ _ _ _ Hso Hy)).
    rewrite (bind_eq _ _ _ _ _ (placement_new_eq _ _ _ _ _ Hst Hit)).
    erewrite bind_eq; last first.
    { eapply assign_eq; [simpl; by rewrite lookup_insert_ne|exact Hy]. }
    rewrite !ptr_add_pair, Nat.add_1_r.
    rewrite (IH _ other this (S i)
               (StaticVector (<[i := Some (move_construct x).2]> (storage_ so)) (size_ so))
               (StaticVector (<[i := Some (move_construct x).1]> (storage_ st)) (size_ st))
               xs'); simpl; try done.
    + rewrite (insert_insert_ne _ this other) by done.
      rewrite !insert_insert_eq.
      rewrite !overwrite_insert by lia.
      unfold constructed. simpl. by rewrite <- app_assoc.
    + apply lookup_insert_eq.
    + rewrite lookup_insert_ne by done. apply lookup_insert_eq.
    + unfold elements_from in *. simpl.
      by rewrite drop_insert_lt by lia.
    + rewrite length_insert. lia.
    + rewrite length_insert. lia.
Qed.

(** ** Equations of the member functions *)

Ltac push_full H :=
  unfold bind; rewrite (get_size_eq _ _ _ H); by rewrite decide_True.

Ltac push_room H Hlen Hlt :=
  unfold bind; rewrite (get_size_eq _ _ _ H);
  rewrite decide_False by lia;
  unfold data; rewrite ptr_add_pair; simpl; unfold bind, ret; simpl;
  rewrite (placement_new_eq _ _ _ _ _ H ltac:(rewrite Hlen; exact Hlt));
  erewrite set_size_eq by (simpl; apply lookup_insert_eq);
  simpl; by rewrite insert_insert_eq.

Lemma emplace_back_full w this s args :
  heap w !! this = Some s → Capacity ≤ size_ s →
  emplace_back this args w = Some (OutOfSpace, w).
Proof. intros H Hge. unfold emplace_back. push_full H. Qed.

Lemma push_back_full w this s value :
  heap w !! this = Some s → Capacity ≤ size_ s →
  push_back this value w = Some (OutOfSpace, w).
Proof. intros H Hge. unfold push_back. push_full H. Qed.

Lemma push_back_move_full w this s value :
  heap w !! this = Some s → Capacity ≤ size_ s →
  push_back_move this value w = Some (OutOfSpace, w).
Proof. intros H Hge. unfold push_back_move. push_full H. Qed.

Lemma emplace_back_room w this s x :
  heap w !! this = Some s → length (storage_ s) = Capacity → size_ s < Capacity →
  emplace_back this (Values x) w
  = Some (NoError, World (<[this := grown s x]> (heap w))
                         (log w ++ [Construct (this, size_ s)])).
Proof. intros H Hlen Hlt. unfold emplace_back. push_room H Hlen Hlt. Qed.

Lemma push_back_room w this s x :
  heap w !! this = Some s → length (storage_ s) = Capacity → size_ s < Capacity →
  push_back this (Outside x) w
  = Some (NoError, World (<[this := grown s (copy_construct x)]> (heap w))
                         (log w ++ [Construct (this, size_ s)])).
Proof. intros H Hlen Hlt. unfold push_back. push_room H Hlen Hlt. Qed.

Lemma push_back_move_room w this s x :
  heap w !! this = Some s → length (storage_ s) = Capacity → size_ s < Capacity →
  push_back_move this (Outside x) w
  = Some (NoError, World (<[this := grown s (move_construct x).1]> (heap w))
                         (log w ++ [Construct (this, size_ s)])).
Proof. intros H Hlen Hlt. unfold push_back_move. push_room H Hlen Hlt. Qed.

Lemma pop_back_empty w this s :
  heap w !! this = Some s → size_ s = 0 →
  pop_back this w = Some (Empty, w).
Proof.
  intros H H0. unfold pop_back, bind.
  rewrite (get_size_eq _ _ _ H). by rewrite decide_True.
Qed.

Lemma pop_back_nonempty w this s :
  heap w !! this = Some s → size_ s ≤ length (storage_ s) → 0 < size_ s →
  pop_back this w
  = Some (NoError, World (<[this := shrunk s]> (heap w))
                         (log w ++ [Destroy (this, size_ s - 1)])).
Proof.
  intros H Hle Hpos. unfold pop_back, bind.
  rewrite (get_size_eq _ _ _ H). rewrite decide_False by lia.
  rewrite (set_size_eq _ _ _ _ H).
  erewrite get_size_eq by (simpl; apply lookup_insert_eq). simpl.
  unfold data. rewrite ptr_add_pair. simpl.
  erewrite destroy_at_eq; [|simpl; apply lookup_insert_eq|simpl; lia].
  simpl. by rewrite insert_insert_eq.
Qed.

Lemma clear_eq w this s :
  heap w !! this = Some s → size_ s ≤ length (storage_ s) →
  clear this w
  = Some (tt, World (<[this := cleared s]> (heap w))
                    (log w ++ destroyed this 0 (size_ s))).
Proof.
  intros H Hle. unfold clear, bind.
  rewrite (get_size_eq _ _ _ H). unfold data.
  rewrite (destroy_n_eq _ _ _ _ _ H) by (simpl; lia).
  erewrite set_size_eq by (simpl; apply lookup_insert_eq).
  simpl. by rewrite insert_insert_eq.
Qed.

(** ** The live prefix of a well-formed container *)

Lemma all_Some_fmap (l : list (option T)) :
  (∀ i, i < length l → ∃ x, l !! i = Some (Some x)) → l = Some <$> omap id l.
Proof.
  induction l as [|y l IH]; intros Hall; [done|].
  destruct (Hall 0) as [x Hx]; [simpl; lia|].
  simpl in Hx. injection Hx as ->. simpl. f_equal.
  apply IH. intros i Hi. apply (Hall (S i)). simpl. lia.
Qed.

Lemma wf_take (s : static_vector) :
  wf s → take (size_ s) (storage_ s) = Some <$> contents s.
Proof.
  intros [Hlen Hsz Hlive]. unfold contents. apply all_Some_fmap.
  intros i Hi. rewrite length_take in Hi.
  rewrite lookup_take_lt by lia. apply Hlive. lia.
Qed.

Lemma wf_elements_from (s : static_vector) :
  wf s → elements_from s 0 (size_ s) = Some (contents s).
Proof.
  intros Hwf. unfold elements_from. rewrite drop_0, (wf_take _ Hwf).
  apply mapM_fmap_Some. done.
Qed.

Lemma length_contents (s : static_vector) :
  wf s → length (contents s) = size_ s.
Proof.
  intros Hwf. pose proof (wf_take _ Hwf) as Ht.
  apply (f_equal length) in Ht.
  rewrite length_take, length_fmap in Ht.
  destruct Hwf. lia.
Qed.

Lemma lookup_contents (s : static_vector) i :
  wf s → i < size_ s → storage_ s !! i = Some <$> (contents s !! i).
Proof.
  intros Hwf Hi.
  rewrite <- (lookup_take_lt _ (size_ s)) by done.
  by rewrite (wf_take _ Hwf), list_lookup_fmap.
Qed.

(** ** Equations of the special member functions *)

Lemma static_vector_ctor_eq w this :
  heap w !! this = None →
  static_vector_ctor this w
  = Some (tt, World (<[this := StaticVector (replicate Capacity None) 0]> (heap w)) (log w)).
Proof. intros H. unfold static_vector_ctor, allocate. by rewrite H. Qed.

Lemma allocate_eq w this n :
  heap w !! this = None →
  allocate this n w
  = Some (tt, World (<[this := StaticVector (replicate Capacity None) n]> (heap w)) (log w)).
Proof. intros H. unfold allocate. by rewrite H. Qed.

Lemma static_vector_copy_ctor_eq w this other so :
  heap w !! this = None →
  heap w !! other = Some so →
  wf so →
  static_vector_copy_ctor this other w
  = Some (tt, World (<[this := copy_of so]> (heap w))
                    (log w ++ constructed this 0 (size_ so))).
Proof.
  intros Hthis Hso Hwf. pose proof Hwf as [Hlen Hsz Hlive].
  assert (Hne : this ≠ other) by congruence.
  unfold static_vector_copy_ctor, bind.
  rewrite (get_size_eq _ _ _ Hso), (allocate_eq _ _ _ Hthis).
  erewrite get_size_eq by (simpl; apply lookup_insert_eq). simpl.
  unfold begin, data.
  rewrite (uninitialized_copy_n_eq _ _ other this 0 so
             (StaticVector (replicate Capacity None) (size_ so)) (contents so)); simpl.
  - by rewrite insert_insert_eq.
  - done.
  - by rewrite lookup_insert_ne.
  - apply lookup_insert_eq.
  - by apply wf_elements_from.
  - lia.
  - rewrite length_replicate. lia.
Qed.

Lemma static_vector_move_ctor_eq w this other so :
  heap w !! this = None →
  heap w !! other = Some so →
  wf so →
  static_vector_move_ctor this other w
  = Some (tt, World (<[other := moved_from so]> (<[this := moved_to so]> (heap w)))
                    (log w ++ constructed this 0 (size_ so))).
Proof.
  intros Hthis Hso Hwf. pose proof Hwf as [Hlen Hsz Hlive].
  assert (Hne : this ≠ other) by congruence.
  unfold static_vector_move_ctor, bind.
  rewrite (get_size_eq _ _ _ Hso), (allocate_eq _ _ _ Hthis).
  erewrite get_size_eq by (simpl; apply lookup_insert_eq). simpl.
  unfold begin, data.
  rewrite (uninitialized_move_n_eq _ _ other this 0 so
             (StaticVector (replicate Capacity None) (size_ so)) (contents so)); simpl.
  - erewrite set_size_eq by (simpl; apply lookup_insert_eq). simpl.
    by rewrite !insert_insert_eq.
  - done.
  - by rewrite lookup_insert_ne.
  - apply lookup_insert_eq.
  - by apply wf_elements_from.
  - lia.
  - rewrite length_replicate. lia.
Qed.

Lemma operator_assign_copy_eq w this other st so :
  this ≠ other →
  heap w !! this = Some st →
  heap w !! other = Some so →
  wf st → wf so →
  operator_assign_copy this other w
  = Some (tt, World (<[this := copy_assigned st so]> (heap w))
                    (log w ++ destroyed this 0 (size_ st) ++ constructed this 0 (size_ so))).
Proof.
  intros Hne Hst Hso [Hlt Hszt _] Hwf. pose proof Hwf as [Hlo Hszo _].
  unfold operator_assign_copy. rewrite decide_True by done. unfold bind.
  rewrite (clear_eq _ _ _ Hst) by lia.
  erewrite get_size_eq by (simpl; rewrite lookup_insert_ne by done; exact Hso).
  erewrite set_size_eq by (simpl; apply lookup_insert_eq).
  erewrite get_size_eq by (simpl; apply lookup_insert_eq). simpl.
  unfold begin, data.
  rewrite (uninitialized_copy_n_eq _ _ other this 0 so
             (StaticVector (storage_ (cleared st)) (size_ so)) (contents so)); simpl.
  - rewrite !insert_insert_eq. by rewrite <- app_assoc.
  - done.
  - by rewrite !lookup_insert_ne.
  - apply lookup_insert_eq.
  - by apply wf_elements_from.
  - lia.
  - rewrite length_overwrite; rewrite ?length_replicate; lia.
Qed.

Lemma operator_assign_move_eq w this other st so :
  this ≠ other →
  heap w !! this = Some st →
  heap w !! other = Some so →
  wf st → wf so →
  operator_assign_move this other w
  = Some (tt, World (<[other := cleared (moved_out so)]>
                       (<[this := move_assigned st so]> (heap w)))
                    (log w ++ destroyed this 0 (size_ st) ++ constructed this 0 (size_ so)
                           ++ destroyed other 0 (size_ so))).
Proof.
  intros Hne Hst Hso [Hlt Hszt _] Hwf. pose proof Hwf as [Hlo Hszo _].
  unfold operator_assign_move. rewrite decide_True by done. unfold bind.
  rewrite (clear_eq _ _ _ Hst) by lia.
  erewrite get_size_eq by (simpl; rewrite lookup_insert_ne by done; exact Hso).
  erewrite set_size_eq by (simpl; apply lookup_insert_eq).
  erewrite get_size_eq by (simpl; apply lookup_insert_eq). simpl.
  unfold begin, data.
  rewrite (uninitialized_move_n_eq _ _ other this 0 so
             (StaticVector (storage_ (cleared st)) (size_ so)) (contents so)); simpl.
  - rewrite (clear_eq _ _ (moved_out so)); simpl.
    + rewrite !insert_insert_eq. by rewrite <- !app_assoc.
    + apply lookup_insert_eq.
    + rewrite length_overwrite; rewrite ?length_fmap, ?length_contents; lia || done.
  - done.
  - by rewrite !lookup_insert_ne.
  - apply lookup_insert_eq.
  - by apply wf_elements_from.
  - lia.
  - rewrite length_overwrite; rewrite ?length_replicate; lia.
Qed.

Lemma static_vector_dtor_eq w this s :
  heap w !! this = Some s → size_ s ≤ length (storage_ s) →
  static_vector_dtor this w
  = Some (tt, World (delete this (heap w))
                    (log w ++ destroyed this 0 (size_ s) ++ [Release this])).
Proof.
  intros H Hle. unfold static_vector_dtor, bind.
  rewrite (clear_eq _ _ _ H Hle). unfold deallocate. simpl.
  rewrite lookup_insert_eq. by rewrite delete_insert_eq, <- app_assoc.
Qed.

(** ** Well-formedness is kept *)

Lemma wf_fresh : wf (StaticVector (replicate Capacity None) 0).
Proof.
  split; simpl; [by rewrite length_replicate|lia|intros; lia].
Qed.

Lemma wf_grown s x : wf s → size_ s < Capacity → wf (grown s x).
Proof.
  intros [Hlen Hsz Hlive] Hlt. split; simpl.
  - by rewrite length_insert.
  - lia.
  - intros i Hi. destruct (decide (i = size_ s)) as [->|Hne].
    + exists x. apply list_lookup_insert_eq. lia.
    + rewrite list_lookup_insert_ne by done. apply Hlive. lia.
Qed.

Lemma wf_shrunk s : wf s → wf (shrunk s).
Proof.
  intros [Hlen Hsz Hlive]. split; simpl.
  - by rewrite length_insert.
  - lia.
  - intros i Hi. rewrite list_lookup_insert_ne by lia. apply Hlive. lia.
Qed.

Lemma wf_cleared s : wf s → wf (cleared s).
Proof.
  intros [Hlen Hsz Hlive]. split; simpl.
  - rewrite length_overwrite; rewrite ?length_replicate; lia.
  - lia.
  - intros; lia.
Qed.

Lemma wf_overwritten (f : T → T) (l : list (option T)) xs n :
  length l = Capacity → length xs = n → n ≤ Capacity →
  wf (StaticVector (overwrite 0 (Some ∘ f <$> xs) l) n).
Proof.
  intros Hlen Hxs Hn. split; simpl.
  - rewrite length_overwrite; rewrite ?length_fmap; lia.
  - done.
  - intros i Hi.
    destruct (lookup_lt_is_Some_2 xs i) as [x Hx]; [lia|].
    exists (f x).
    rewrite <- (Nat.add_0_l i) at 1.
    rewrite lookup_overwrite_mid by (rewrite ?length_fmap; lia).
    by rewrite list_lookup_fmap, Hx.
Qed.

Lemma wf_copy_of so : wf so → wf (copy_of so).
Proof.
  intros Hwf. apply wf_overwritten.
  - apply length_replicate.
  - by apply length_contents.
  - by destruct Hwf.
Qed.

Lemma wf_moved_to so : wf so → wf (moved_to so).
Proof.
  intros Hwf. unfold moved_to.
  apply (wf_overwritten (fst ∘ move_construct)).
  - apply length_replicate.
  - by apply length_contents.
  - by destruct Hwf.
Qed.

Lemma length_moved_out so :
  wf so → length (storage_ (moved_out so)) = Capacity.
Proof.
  intros Hwf. pose proof (length_contents _ Hwf). destruct Hwf as [Hlen Hsz _].
  simpl. rewrite length_overwrite; rewrite ?length_fmap; lia.
Qed.

Lemma wf_moved_from so : wf so → wf (moved_from so).
Proof.
  intros Hwf. split; simpl.
  - by apply (length_moved_out so).
  - lia.
  - intros; lia.
Qed.

Lemma wf_moved_out so : wf so → wf (moved_out so).
Proof.
  intros Hwf. unfold moved_out.
  apply (wf_overwritten (snd ∘ move_construct)).
  - by destruct Hwf.
  - by apply length_contents.
  - by destruct Hwf.
Qed.

Lemma wf_copy_assigned st so : wf st → wf so → wf (copy_assigned st so).
Proof.
  intros Hst Hso. apply wf_overwritten.
  - by destruct (wf_cleared _ Hst).
  - by apply length_contents.
  - by destruct Hso.
Qed.

Lemma wf_move_assigned st so : wf st → wf so → wf (move_assigned st so).
Proof.
  intros Hst Hso. unfold move_assigned.
  apply (wf_overwritten (fst ∘ move_construct)).
  - by destruct (wf_cleared _ Hst).
  - by apply length_contents.
  - by destruct Hso.
Qed.

Lemma wf_assigned s i x y :
  wf s → storage_ s !! i = Some (Some y) →
  wf (StaticVector (<[i := Some x]> (storage_ s)) (size_ s)).
Proof.
  intros [Hlen Hsz Hlive] Hy. split; simpl.
  - by rewrite length_insert.
  - done.
  - intros k Hk. destruct (decide (k = i)) as [->|Hne].
    + exists x. apply list_lookup_insert_eq. by eapply lookup_lt_Some.
    + rewrite list_lookup_insert_ne by done. by apply Hlive.
Qed.

(** ** Insertion at the tail *)

Lemma push_full f w this s x :
  heap w !! this = Some s → Capacity ≤ size_ s →
  push f this x w = Some (OutOfSpace, w).
Proof.
  destruct f; simpl;
    eauto using emplace_back_full, push_back_full, push_back_move_full.
Qed.

Lemma push_room f w this s x :
  heap w !! this = Some s → length (storage_ s) = Capacity → size_ s < Capacity →
  push f this x w
  = Some (NoError, World (<[this := grown s (pushed f x)]> (heap w))
                         (log w ++ [Construct (this, size_ s)])).
Proof.
  destruct f; simpl;
    eauto using emplace_back_room, push_back_room, push_back_move_room.
Qed.

(** *** Pushes of arguments passed by reference *)

Lemma referent_Element w a i x :
  referent w (Element (a, i)) = Some x →
  ∃ s, heap w !! a = Some s ∧ i < size_ s ∧ storage_ s !! i = Some (Some x).
Proof.
  unfold referent. simpl. destruct (heap w !! a) as [s|] eqn:Hs; [|done]. simpl.
  destruct (decide (i < size_ s)); [|done].
  destruct (storage_ s !! i) as [[y|]|] eqn:Hy; simpl; [|done..].
  intros [= ->]. by exists s.
Qed.

Lemma moved_from_at_Some i s x :
  storage_ s !! i = Some (Some x) →
  moved_from_at i s = StaticVector (<[i := Some (move_construct x).2]> (storage_ s)) (size_ s).
Proof. unfold moved_from_at. by intros ->. Qed.

Lemma size_moved_from_at i s : size_ (moved_from_at i s) = size_ s.
Proof. unfold moved_from_at. by destruct (storage_ s !! i) as [[?|]|]. Qed.

Lemma length_moved_from_at i s :
  length (storage_ (moved_from_at i s)) = length (storage_ s).
Proof.
  unfold moved_from_at. destruct (storage_ s !! i) as [[?|]|]; simpl; [|done..].
  by rewrite length_insert.
Qed.

Lemma construct_eq w this s n args x :
  heap w !! this = Some s → n < length (storage_ s) → size_ s ≤ n →
  built w args = Some x →
  ∃ s0, passed args (heap w) !! this = Some s0
        ∧ size_ s0 = size_ s
        ∧ length (storage_ s0) = length (storage_ s)
        ∧ construct (this, n) args w
          = Some (tt, World (<[this := StaticVector (<[n := Some x]> (storage_ s0)) (size_ s0)]>
                               (passed args (heap w)))
                            (log w ++ [Construct (this, n)])).
Proof.
  intros H Hn Hsz Hx.
  destruct args as [y|[y|[a i]]|[y|[a i]]]; simpl in Hx.
  - injection Hx as <-. exists s. split_and!; [done..|].
    simpl. by rewrite (placement_new_eq _ _ _ _ _ H Hn).
  - injection Hx as <-. exists s. split_and!; [done..|].
    simpl. unfold bind, ret. by rewrite (placement_new_eq _ _ _ _ _ H Hn).
  - apply fmap_Some in Hx as (y & Hy & ->).
    apply referent_Element in Hy as (sq & Hsq & Hi & Hy).
    exists s. split_and!; [done..|].
    simpl. unfold bind. rewrite decide_False.
    2:{ intros [= -> ->]. rewrite H in Hsq. injection Hsq as <-. lia. }
    rewrite (read_eq _ _ _ _ _ Hsq Hy).
    by rewrite (placement_new_eq _ _ _ _ _ H Hn).
  - injection Hx as <-. exists s. split_and!; [done..|].
    simpl. unfold bind, ret. by rewrite (placement_new_eq _ _ _ _ _ H Hn).
  - apply fmap_Some in Hx as (y & Hy & ->).
    apply referent_Element in Hy as (sq & Hsq & Hi & Hy).
    simpl. unfold bind. rewrite decide_False.
    2:{ intros [= -> ->]. rewrite H in Hsq. injection Hsq as <-. lia. }
    rewrite (read_eq _ _ _ _ _ Hsq Hy).
    rewrite (placement_new_eq _ _ _ _ _ H Hn).
    destruct (decide (a = this)) as [->|Hne].
    + rewrite H in Hsq. injection Hsq as <-.
      exists (moved_from_at i s).
      rewrite lookup_alter_eq, H, size_moved_from_at, length_moved_from_at.
      split_and!; [done..|].
      erewrite assign_eq;
        [|simpl; apply lookup_insert_eq
         |simpl; rewrite list_lookup_insert_ne by lia; exact Hy].
      simpl. rewrite insert_insert_eq, insert_alter_eq.
      rewrite (moved_from_at_Some _ _ _ Hy). simpl.
      by rewrite list_insert_insert_ne by lia.
    + exists s. rewrite lookup_alter_ne by done.
      split_and!; [done..|].
      erewrite assign_eq;
        [|simpl; rewrite lookup_insert_ne by done; exact Hsq|exact Hy].
      simpl. rewrite (alter_alt_Some _ _ _ _ Hsq), (moved_from_at_Some _ _ _ Hy).
      by rewrite insert_insert_ne by done.
Qed.

Lemma emplace_back_args_room w this s args x :
  heap w !! this = Some s → length (storage_ s) = Capacity → size_ s < Capacity →
  built w args = Some x →
  ∃ s0, passed args (heap w) !! this = Some s0
        ∧ size_ s0 = size_ s
        ∧ length (storage_ s0) = Capacity
        ∧ emplace_back this args w
          = Some (NoError, World (<[this := grown s0 x]> (passed args (heap w)))
                                 (log w ++ [Construct (this, size_ s)])).
Proof.
  intros H Hlen Hlt Hx.
  destruct (construct_eq w this s (size_ s) args x H) as (s0 & Hs0 & Hsz & Hl & Hrun);
    [lia|done|done|].
  exists s0. split_and!; [done|done|lia|].
  unfold emplace_back, bind. rewrite (get_size_eq _ _ _ H).
  rewrite decide_False by lia.
  unfold data. rewrite ptr_add_pair. simpl. rewrite Hrun.
  erewrite set_size_eq by (simpl; apply lookup_insert_eq).
  simpl. rewrite insert_insert_eq. unfold grown. by rewrite Hsz.
Qed.

Lemma do_push_emplace this c : do_push this c = emplace_back this (forwarded c).
Proof. by destruct c. Qed.

Lemma do_push_full w this s c :
  heap w !! this = Some s → Capacity ≤ size_ s →
  do_push this c w = Some (OutOfSpace, w).
Proof. intros H Hge. rewrite do_push_emplace. by apply (emplace_back_full _ _ s). Qed.

Lemma do_push_room w this s c x :
  heap w !! this = Some s → length (storage_ s) = Capacity → size_ s < Capacity →
  built w (forwarded c) = Some x →
  ∃ s0, passed (forwarded c) (heap w) !! this = Some s0
        ∧ size_ s0 = size_ s
        ∧ length (storage_ s0) = Capacity
        ∧ do_push this c w
          = Some (NoError, World (<[this := grown s0 x]> (passed (forwarded c) (heap w)))
                                 (log w ++ [Construct (this, size_ s)])).
Proof. rewrite do_push_emplace. apply emplace_back_args_room. Qed.

Lemma wf_moved_from_at i s : wf s → wf (moved_from_at i s).
Proof.
  intros Hwf. pose proof Hwf as [Hlen Hsz Hlive]. unfold moved_from_at.
  destruct (storage_ s !! i) as [[y|]|] eqn:Hy; [|done..].
  split; simpl; [by rewrite length_insert|done|].
  intros j Hj. destruct (decide (j = i)) as [->|Hne].
  - eexists. apply list_lookup_insert_eq. by eapply lookup_lt_Some.
  - rewrite list_lookup_insert_ne by done. by apply Hlive.
Qed.

Lemma storage_moved_from_at_ne i j s :
  j ≠ i → storage_ (moved_from_at i s) !! j = storage_ s !! j.
Proof.
  intros Hne. unfold moved_from_at.
  destruct (storage_ s !! i) as [[y|]|]; simpl; [|done..].
  by rewrite list_lookup_insert_ne.
Qed.

Lemma storage_moved_from_at_eq i s y :
  storage_ s !! i = Some (Some y) →
  storage_ (moved_from_at i s) !! i = Some (Some (move_construct y).2).
Proof.
  intros Hy. rewrite (moved_from_at_Some _ _ _ Hy). simpl.
  apply list_lookup_insert_eq. by eapply lookup_lt_Some.
Qed.

Lemma passed_lookup args h a s :
  h !! a = Some s →
  passed args h !! a = Some s
  ∨ ∃ i, args = Rvalue (Element (a, i)) ∧ passed args h !! a = Some (moved_from_at i s).
Proof.
  intros H. destruct args as [y|[y|[b i]]|[y|[b i]]]; simpl; auto.
  destruct (decide (b = a)) as [->|Hne].
  - right. exists i. by rewrite lookup_alter_eq, H.
  - left. by rewrite lookup_alter_ne.
Qed.

Lemma passed_lookup_ne args h a :
  (∀ i, args ≠ Rvalue (Element (a, i))) → passed args h !! a = h !! a.
Proof.
  intros Hne. destruct args as [y|[y|[b i]]|[y|[b i]]]; simpl; try done.
  apply lookup_alter_ne. intros ->. by apply (Hne i).
Qed.

Lemma size_passed args h a : size_ <$> passed args h !! a = size_ <$> h !! a.
Proof.
  destruct args as [y|[y|[b i]]|[y|[b i]]]; simpl; try done.
  destruct (decide (b = a)) as [->|Hne]; [|by rewrite lookup_alter_ne].
  rewrite lookup_alter_eq. destruct (h !! a); simpl; [|done].
  by rewrite size_moved_from_at.
Qed.

Lemma slot_passed_ne args h p :
  args ≠ Rvalue (Element p) → slot (passed args h) p = slot h p.
Proof.
  intros Hne. destruct args as [y|[y|[b i]]|[y|[b i]]]; simpl; try done.
  destruct p as [a j]. unfold slot. simpl.
  destruct (decide (b = a)) as [->|Hba]; [|by rewrite lookup_alter_ne].
  rewrite lookup_alter_eq. destruct (h !! a) as [s|]; simpl; [|done].
  apply storage_moved_from_at_ne. intros ->. by apply Hne.
Qed.

Lemma slot_passed_eq h p y :
  slot h p = Some (Some y) →
  slot (passed (Rvalue (Element p)) h) p = Some (Some (move_construct y).2).
Proof.
  unfold slot. simpl. rewrite lookup_alter_eq.
  destruct (h !! p.1) as [s|]; simpl; [|done].
  apply storage_moved_from_at_eq.
Qed.

Lemma referent_ext w w' p :
  heap w' !! p.1 = heap w !! p.1 → referent w' (Element p) = referent w (Element p).
Proof. unfold referent. by intros ->. Qed.

Lemma referent_live w this s i :
  heap w !! this = Some s → wf s → i < size_ s →
  is_Some (referent w (Element (this, i))).
Proof.
  intros H Hwf Hi. destruct (wf_live _ Hwf i Hi) as [x Hx].
  exists x. unfold referent. simpl. rewrite H. simpl.
  rewrite decide_True by done. by rewrite Hx.
Qed.

Lemma referent_passed w args p l :
  is_Some (referent w (Element p)) →
  is_Some (referent (World (passed args (heap w)) l) (Element p)).
Proof.
  destruct p as [a j]. intros [x Hx].
  apply referent_Element in Hx as (s & Hs & Hj & Hx).
  unfold referent. simpl.
  destruct (passed_lookup args (heap w) a s Hs) as [->|(i & _ & ->)]; simpl.
  - rewrite decide_True by done. rewrite Hx. by eexists.
  - rewrite size_moved_from_at, decide_True by done.
    destruct (decide (j = i)) as [->|Hne].
    + rewrite (storage_moved_from_at_eq _ _ _ Hx). by eexists.
    + rewrite storage_moved_from_at_ne by done. rewrite Hx. by eexists.
Qed.

Lemma built_is_Some w args :
  (∀ p, referred args = Some p → is_Some (referent w (Element p))) →
  is_Some (built w args).
Proof.
  intros Hlive. destruct args as [y|[y|p]|[y|p]]; unfold built; try by eexists.
  all: destruct (Hlive p eq_refl) as [x Hx]; rewrite Hx; by eexists.
Qed.

Lemma do_pushes_room this cs : ∀ w0 w s,
  heap w !! this = Some s → wf s → size_ s + length cs ≤ Capacity →
  (∀ q, q.1 ≠ this → is_Some (referent w0 (Element q)) →
        is_Some (referent w (Element q))) →
  (∀ k c, cs !! k = Some c → live_at w0 this (size_ s + k) c) →
  ∃ w' s', do_pushes this cs w = Some (replicate (length cs) NoError, w')
           ∧ heap w' !! this = Some s' ∧ wf s'
           ∧ size_ s' = size_ s + length cs.
Proof.
  induction cs as [|c cs IH]; intros w0 w s Hs Hwf Hlen Hkeep Hlive;
    simpl; simpl in Hlen.
  - exists w, s. unfold ret. split_and!; done || lia.
  - assert (Hx : is_Some (built w (forwarded c))).
    { apply built_is_Some. intros p Hp.
      pose proof (Hlive 0 c eq_refl p Hp) as Hl.
      destruct (decide (p.1 = this)) as [Heq|Hne]; [|by apply Hkeep].
      destruct p as [a i]. simpl in *. subst a.
      apply (referent_live _ _ s); [done..|lia]. }
    destruct Hx as [x Hx].
    destruct (do_push_room w this s c x Hs) as (s0 & Hs0 & Hsz0 & Hlen0 & Hrun);
      [by destruct Hwf|lia|done|].
    assert (Hwf0 : wf s0).
    { destruct (passed_lookup (forwarded c) (heap w) this s Hs) as [Heq|(i & _ & Heq)];
        rewrite Heq in Hs0; injection Hs0 as <-; [done|by apply wf_moved_from_at]. }
    unfold bind. rewrite Hrun.
    destruct (IH w0 (World (<[this := grown s0 x]> (passed (forwarded c) (heap w)))
                           (log w ++ [Construct (this, size_ s)]))
                 (grown s0 x)) as (w' & s' & Hrun' & Hs' & Hwf' & Hsz').
    + simpl. apply lookup_insert_eq.
    + apply wf_grown; [done|lia].
    + simpl. lia.
    + intros q Hq Hq0.
      erewrite (referent_ext (World (passed (forwarded c) (heap w)) (log w)));
        [by apply referent_passed, Hkeep|].
      simpl. by rewrite lookup_insert_ne.
    + intros k c' Hc'.
      replace (size_ (grown s0 x) + k) with (size_ s + S k) by (simpl; lia).
      by apply Hlive.
    + exists w', s'. rewrite Hrun'. unfold ret. split_and!; try done.
      all: rewrite Hsz'; simpl; lia.
Qed.

(** C1.  Push contract.  On a container whose count equals the capacity,
    [emplace_back] and both [push_back] overloads return [OutOfSpace] and
    leave the whole world as it was, whatever they are given.  Below the
    capacity, given arguments whose references name live objects, they
    return [NoError], build the new element in slot [count] and increment
    the count; the only lifetime event is the construction in slot
    [count].  The slots below [count] are left alone, except the one of an
    element of the container that is passed as an rvalue, as in
    [v.push_back(std::move(v[0]))]: the move constructor leaves it in its
    moved-from state.  Hence [Capacity] pushes into an empty container all
    return [NoError] and bring the size to [Capacity], and one more push
    returns [OutOfSpace] with the size still [Capacity]. *)
Theorem push_contract w this s c :
  heap w !! this = Some s →
  wf s →
  (size_ s = Capacity → do_push this c w = Some (OutOfSpace, w))
  ∧ (size_ s < Capacity →
     ∀ x, built w (forwarded c) = Some x →
     ∃ w' s', do_push this c w = Some (NoError, w')
              ∧ heap w' !! this = Some s'
              ∧ size_ s' = S (size_ s)
              ∧ storage_ s' !! size_ s = Some (Some x)
              ∧ (∀ i, i < size_ s → forwarded c ≠ Rvalue (Element (this, i)) →
                      storage_ s' !! i = storage_ s !! i)
              ∧ (∀ i y, forwarded c = Rvalue (Element (this, i)) →
                        storage_ s !! i = Some (Some y) →
                        storage_ s' !! i = Some (Some (move_construct y).2))
              ∧ log w' = log w ++ [Construct (this, size_ s)])
  ∧ (size_ s = 0 →
     ∀ cs, length cs = Capacity →
     (∀ k c', cs !! k = Some c' → live_at w this k c') →
     ∃ w', do_pushes this cs w = Some (replicate Capacity NoError, w')
           ∧ size this w' = Some (Capacity, w')
           ∧ ∀ c', (r <- do_push this c';; n <- size this;; ret (r, n)) w'
                   = Some ((OutOfSpace, Capacity), w')).
Proof.
  intros Hs Hwf. split; [|split].
  - intros Heq. apply (do_push_full _ _ s); [done|lia].
  - intros Hlt x Hx. pose proof Hwf as [Hlen Hsz Hlive].
    destruct (do_push_room w this s c x Hs Hlen Hlt Hx)
      as (s0 & Hs0 & Hsz0 & Hlen0 & Hrun).
    assert (Hslot : ∀ i, slot (passed (forwarded c) (heap w)) (this, i) = storage_ s0 !! i).
    { intros i. unfold slot. simpl. by rewrite Hs0. }
    assert (Hslot' : ∀ i, slot (heap w) (this, i) = storage_ s !! i).
    { intros i. unfold slot. simpl. by rewrite Hs. }
    eexists _, (grown s0 x). split; [exact Hrun|]. simpl.
    split; [apply lookup_insert_eq|]. split; [by rewrite Hsz0|].
    rewrite Hsz0.
    split; [apply list_lookup_insert_eq; lia|].
    split; [|split; [|done]].
    + intros i Hi Hne. rewrite list_lookup_insert_ne by lia.
      by rewrite <- Hslot, <- Hslot', slot_passed_ne.
    + intros i y Heq Hy.
      assert (Hi : i < size_ s).
      { rewrite Heq in Hx. simpl in Hx. apply fmap_Some in Hx as (z & Hz & _).
        apply referent_Element in Hz as (s1 & Hs1 & Hi & _).
        rewrite Hs in Hs1. by injection Hs1 as <-. }
      rewrite list_lookup_insert_ne by lia.
      rewrite <- Hslot, Heq. apply slot_passed_eq. by rewrite Hslot'.
  - intros H0 cs Hcs Hlive.
    destruct (do_pushes_room this cs w w s Hs Hwf) as (w' & s' & Hrun & Hs' & Hwf' & Hsz');
      [lia|done|by rewrite H0|].
    exists w'. rewrite Hcs in Hrun. split; [done|].
    assert (Hfull : size_ s' = Capacity) by lia.
    unfold size. rewrite (get_size_eq _ _ _ Hs'), Hfull. split; [done|].
    intros c'. unfold bind.
    rewrite (do_push_full _ _ _ _ Hs') by lia.
    by rewrite (get_size_eq _ _ _ Hs'), Hfull.
Qed.

(** ** Removal, reset and checked access *)

(** C2.  [pop_back] contract.  On an empty container [pop_back] returns
    [Empty] and leaves the whole world as it was, the log of destructor
    calls included.  On a container with [count > 0] it returns
    [NoError], destroys exactly the element in slot [count - 1],
    decrements the count and leaves the slots below [count - 1] alone. *)
Theorem pop_back_contract w this s :
  heap w !! this = Some s →
  wf s →
  (size_ s = 0 → pop_back this w = Some (Empty, w))
  ∧ (0 < size_ s →
     ∃ w' s', pop_back this w = Some (NoError, w')
              ∧ heap w' !! this = Some s'
              ∧ size_ s' = size_ s - 1
              ∧ log w' = log w ++ [Destroy (this, size_ s - 1)]
              ∧ storage_ s' !! (size_ s - 1) = Some None
              ∧ (∀ i, i < size_ s - 1 → storage_ s' !! i = storage_ s !! i)).
Proof.
  intros Hs [Hlen Hsz Hlive]. split.
  - intros H0. by apply (pop_back_empty _ _ _ Hs).
  - intros Hpos. eexists _, (shrunk s).
    split; [apply (pop_back_nonempty _ _ _ Hs); lia|].
    simpl. split; [apply lookup_insert_eq|]. split; [done|]. split; [done|].
    split; [apply list_lookup_insert_eq; lia|].
    intros i Hi. apply list_lookup_insert_ne. lia.
Qed.

Lemma cleared_empty s : size_ s = 0 → cleared s = s.
Proof.
  intros H0. unfold cleared. rewrite H0. simpl.
  rewrite overwrite_nil. destruct s; simpl in *; by subst.
Qed.

Lemma clear_empty w this s :
  heap w !! this = Some s → size_ s = 0 → clear this w = Some (tt, w).
Proof.
  intros Hs H0. rewrite (clear_eq _ _ _ Hs) by lia.
  rewrite (cleared_empty _ H0), (insert_id _ _ _ Hs), H0.
  unfold destroyed. simpl. by rewrite app_nil_r, world_eta.
Qed.

(** C6.  [clear] contract and idempotence.  [clear] runs the destructor
    of every live element, slots [0] to [count - 1] in increasing order,
    and sets the count to zero.  On an empty container it changes
    nothing; so a second [clear] in a row finds size zero, leaves size
    zero and adds no destructor call to the log. *)
Theorem clear_contract w this s :
  heap w !! this = Some s →
  wf s →
  ∃ w1 s1, clear this w = Some (tt, w1)
           ∧ log w1 = log w ++ ((λ k, Destroy (this, k)) <$> seq 0 (size_ s))
           ∧ heap w1 !! this = Some s1
           ∧ size_ s1 = 0
           ∧ (∀ i, i < size_ s → storage_ s1 !! i = Some None)
           ∧ size this w1 = Some (0, w1)
           ∧ clear this w1 = Some (tt, w1)
           ∧ (size_ s = 0 → w1 = w).
Proof.
  intros Hs [Hlen Hsz Hlive].
  eexists _, (cleared s). split; [apply (clear_eq _ _ _ Hs); lia|].
  simpl. split; [done|].
  assert (Hs1 : <[this := cleared s]> (heap w) !! this = Some (cleared s))
    by apply lookup_insert_eq.
  split; [done|]. split; [done|]. split; [|split; [|split]].
  - intros i Hi. rewrite <- (Nat.add_0_l i) at 1.
    rewrite lookup_overwrite_mid by (rewrite ?length_replicate; lia).
    by apply lookup_replicate_2.
  - unfold size. by erewrite get_size_eq by exact Hs1.
  - by erewrite clear_empty by (exact Hs1 || done).
  - intros H0. rewrite (cleared_empty _ H0), (insert_id _ _ _ Hs), H0.
    simpl. by rewrite app_nil_r, world_eta.
Qed.

(** C7.  Checked access.  [at_if(k)] returns null exactly when
    [k >= size()] and otherwise the pointer to slot [k], which holds an
    element; [front_if] and [back_if] return null exactly when the
    container is empty and otherwise the pointers to slot [0] and to slot
    [size() - 1].  Each call yields a result and leaves the world as it
    was. *)
Theorem checked_access_contract w this s k :
  heap w !! this = Some s →
  wf s →
  (∃ r, at_if this k w = Some (r, w)
        ∧ (r = None ↔ size_ s ≤ k)
        ∧ (k < size_ s → r = Some (this, k) ∧ ∃ x, read (this, k) w = Some (x, w)))
  ∧ (∃ r, front_if this w = Some (r, w)
          ∧ (r = None ↔ size_ s = 0)
          ∧ (0 < size_ s → r = Some (this, 0) ∧ ∃ x, read (this, 0) w = Some (x, w)))
  ∧ (∃ r, back_if this w = Some (r, w)
          ∧ (r = None ↔ size_ s = 0)
          ∧ (0 < size_ s →
             r = Some (this, size_ s - 1) ∧ ∃ x, read (this, size_ s - 1) w = Some (x, w))).
Proof.
  intros Hs [Hlen Hsz Hlive].
  assert (Hread : ∀ i, i < size_ s → ∃ x, read (this, i) w = Some (x, w)).
  { intros i Hi. destruct (Hlive i Hi) as [x Hx]. exists x. by eapply read_eq. }
  split; [|split].
  - unfold at_if, bind. rewrite (get_size_eq _ _ _ Hs).
    destruct (decide (k < size_ s)) as [Hlt|Hge]; eexists; (split; [done|]).
    + split; [split; [done|lia]|]. intros _. split; [done|]. by apply Hread.
    + split; [split; [lia|done]|]. lia.
  - unfold front_if, bind. rewrite (get_size_eq _ _ _ Hs).
    destruct (decide (0 < size_ s)) as [Hlt|Hge]; eexists; (split; [done|]).
    + split; [split; [done|lia]|]. intros _. split; [done|]. by apply Hread.
    + split; [split; [lia|done]|]. lia.
  - unfold back_if, bind. rewrite (get_size_eq _ _ _ Hs).
    destruct (decide (0 < size_ s)) as [Hlt|Hge]; eexists; (split; [done|]).
    + split; [split; [done|lia]|]. intros _. split; [done|]. apply Hread. lia.
    + split; [split; [lia|done]|]. lia.
Qed.

(** ** Assignment *)

(** C10.  Self-assignment.  Both assignment operators compare [this]
    with the address of their argument and do nothing when the two are
    the same: [v = v] and [v = std::move(v)] return with the world as it
    was, so [v] keeps its size and its elements and no destructor runs. *)
Theorem self_assignment_noop w this :
  operator_assign_copy this this w = Some (tt, w)
  ∧ operator_assign_move this this w = Some (tt, w).
Proof.
  unfold operator_assign_copy, operator_assign_move.
  by rewrite !decide_False by (intros Hne; by apply Hne).
Qed.

Lemma contents_lookup s i x :
  wf s → i < size_ s → storage_ s !! i = Some (Some x) → contents s !! i = Some x.
Proof.
  intros Hwf Hi Hx. rewrite (lookup_contents _ _ Hwf Hi) in Hx.
  destruct (contents s !! i); simpl in Hx; congruence.
Qed.

Lemma lookup_overwrite_fmap (f : T → T) (l : list (option T)) xs i x :
  length xs ≤ length l → xs !! i = Some x →
  overwrite 0 (Some ∘ f <$> xs) l !! i = Some (Some (f x)).
Proof.
  intros Hlen Hx. rewrite <- (Nat.add_0_l i) at 1.
  rewrite lookup_overwrite_mid.
  - by rewrite list_lookup_fmap, Hx.
  - lia.
  - rewrite length_fmap. by eapply lookup_lt_Some.
Qed.

(** C5.  Move assignment between two distinct containers.  The lifetime
    events are, in this order: the destruction of every live element of
    the destination, the construction of one element of the destination
    per element of the source, in index order, and the destruction of the
    moved-from elements of the source.  Afterwards the destination has
    the size the source had, its element [i] is move-constructed from
    element [i] of the source, and the source has size zero. *)
Theorem move_assignment_contract w dst src sd ss :
  dst ≠ src →
  heap w !! dst = Some sd →
  heap w !! src = Some ss →
  wf sd → wf ss →
  ∃ w' sd' ss',
    operator_assign_move dst src w = Some (tt, w')
    ∧ log w' = log w ++ ((λ k, Destroy (dst, k)) <$> seq 0 (size_ sd))
                     ++ ((λ k, Construct (dst, k)) <$> seq 0 (size_ ss))
                     ++ ((λ k, Destroy (src, k)) <$> seq 0 (size_ ss))
    ∧ heap w' !! dst = Some sd'
    ∧ size_ sd' = size_ ss
    ∧ (∀ i x, i < size_ ss → storage_ ss !! i = Some (Some x) →
              storage_ sd' !! i = Some (Some (move_construct x).1))
    ∧ heap w' !! src = Some ss'
    ∧ size_ ss' = 0.
Proof.
  intros Hne Hd Hs Hwd Hws.
  eexists _, (move_assigned sd ss), (cleared (moved_out ss)).
  split; [by apply operator_assign_move_eq|]. simpl.
  split; [done|].
  split; [rewrite lookup_insert_ne by done; apply lookup_insert_eq|].
  split; [done|].
  split; [|split; [apply lookup_insert_eq|done]].
  intros i x Hi Hx.
  apply (lookup_overwrite_fmap (fst ∘ move_construct)).
  - rewrite (length_contents _ Hws).
    destruct (wf_cleared _ Hwd) as [Hl _ _]. simpl in Hl. rewrite Hl.
    by destruct Hws.
  - by apply contents_lookup.
Qed.

(** ** Member calls, one container at a time *)

Lemma world_same w this s :
  heap w !! this = Some s → World (<[this := s]> (heap w)) (log w ++ []) = w.
Proof. intros H. by rewrite (insert_id _ _ _ H), app_nil_r, world_eta. Qed.

Lemma observe_ptr_eq w this s i :
  heap w !! this = Some s →
  (x <- read (this, i);; ret (OPtr (Some (this, i)) (Some x))) w
  = match storage_ s !! i with
    | Some (Some x) => Some (OPtr (Some (this, i)) (Some x), w)
    | _ => None
    end.
Proof.
  intros H. unfold bind, read. simpl.
  rewrite (bind_eq _ _ _ _ _ (load_eq _ _ _ H)).
  by destruct (storage_ s !! i) as [[x|]|].
Qed.

Lemma do_call_eq w this s c :
  heap w !! this = Some s → wf s →
  do_call this c w = apply_effect this w (call_effect this c s).
Proof.
  intros H [Hlen Hsz Hlive]. pose proof (world_same _ _ _ H) as Hw.
  destruct c as [x|x|x| | |pos| | |pos|pos x| | |]; simpl; unfold bind.
  - case_decide.
    + rewrite (emplace_back_full _ _ _ _ H) by done. simpl. by rewrite Hw.
    + by rewrite (emplace_back_room _ _ _ _ H) by lia.
  - case_decide.
    + rewrite (push_back_full _ _ _ _ H) by done. simpl. by rewrite Hw.
    + by rewrite (push_back_room _ _ _ _ H) by lia.
  - case_decide.
    + rewrite (push_back_move_full _ _ _ _ H) by done. simpl. by rewrite Hw.
    + by rewrite (push_back_move_room _ _ _ _ H) by lia.
  - case_decide.
    + rewrite (pop_back_empty _ _ _ H) by done. simpl. by rewrite Hw.
    + by rewrite (pop_back_nonempty _ _ _ H) by lia.
  - by rewrite (clear_eq _ _ _ H) by lia.
  - unfold at_if, bind. rewrite (get_size_eq _ _ _ H). case_decide.
    + unfold data. rewrite ptr_add_pair. simpl.
      rewrite (observe_ptr_eq _ _ _ _ H).
      destruct (storage_ s !! pos) as [[x|]|]; simpl; by rewrite ?Hw.
    + simpl. by rewrite Hw.
  - unfold front_if, bind. rewrite (get_size_eq _ _ _ H). case_decide.
    + unfold data. rewrite ptr_add_pair. simpl.
      rewrite (observe_ptr_eq _ _ _ _ H).
      destruct (storage_ s !! 0) as [[x|]|]; simpl; by rewrite ?Hw.
    + simpl. by rewrite Hw.
  - unfold back_if, bind. rewrite (get_size_eq _ _ _ H). case_decide.
    + unfold data. rewrite ptr_add_pair. simpl.
      rewrite (observe_ptr_eq _ _ _ _ H).
      destruct (storage_ s !! (size_ s - 1)) as [[x|]|]; simpl; by rewrite ?Hw.
    + simpl. by rewrite Hw.
  - unfold subscript, ret, data, read. rewrite ptr_add_pair. simpl.
    rewrite (bind_eq _ _ _ _ _ (load_eq _ _ _ H)).
    destruct (storage_ s !! pos) as [[x|]|]; simpl; by rewrite ?Hw.
  - unfold subscript, ret, data, assign. rewrite ptr_add_pair. simpl.
    rewrite (bind_eq _ _ _ _ _ (load_eq _ _ _ H)).
    destruct (storage_ s !! pos) as [[y|]|]; simpl; try done.
    unfold store. simpl. by rewrite app_nil_r.
  - unfold empty, bind. rewrite (get_size_eq _ _ _ H). simpl. by rewrite Hw.
  - unfold size. rewrite (get_size_eq _ _ _ H). simpl. by rewrite Hw.
  - unfold capacity. rewrite (bind_eq _ _ _ _ _ (load_eq _ _ _ H)).
    simpl. by rewrite Hw.
Qed.

Ltac inv_effect H :=
  repeat (case_decide; try lia);
  repeat match type of H with
    | match ?l !! ?i with _ => _ end = Some _ =>
        let E := fresh "E" in destruct (l !! i) as [[?|]|] eqn:E; try done
    end;
  injection H as <- <- <-.

Lemma call_effect_wf this c s o s' evs :
  wf s → call_effect this c s = Some (o, s', evs) → wf s'.
Proof.
  intros Hwf H.
  destruct c; simpl in H; inv_effect H;
    eauto using wf_grown, wf_shrunk, wf_cleared, wf_assigned with lia.
Qed.

Lemma call_effect_checked this c s :
  wf s → checked c → is_Some (call_effect this c s).
Proof.
  intros [Hlen Hsz Hlive] Hc.
  destruct c; simpl in *; try done; repeat case_decide; try done.
  - destruct (Hlive pos) as [x ->]; done.
  - destruct (Hlive 0) as [x ->]; done.
  - destruct (Hlive (size_ s - 1)) as [x ->]; [lia|done].
Qed.

Lemma calls_effect_checked this cs : ∀ s,
  wf s → Forall checked cs → is_Some (calls_effect this cs s).
Proof.
  induction cs as [|c cs IH]; intros s Hwf Hall; simpl; [done|].
  inversion Hall as [|c' cs' Hc Hall']; subst.
  destruct (call_effect_checked this c s Hwf Hc) as [[[o s1] e1] Heq].
  rewrite Heq.
  destruct (IH s1) as [[[os s2] e2] Heq2]; [by eapply call_effect_wf|done|].
  by rewrite Heq2.
Qed.

Lemma do_calls_eq this cs : ∀ w s,
  heap w !! this = Some s → wf s →
  do_calls this cs w = apply_effect this w (calls_effect this cs s).
Proof.
  induction cs as [|c cs IH]; intros w s H Hwf; simpl.
  - unfold ret. by rewrite world_same.
  - unfold bind. rewrite (do_call_eq _ _ _ _ H Hwf).
    destruct (call_effect this c s) as [[[o s1] e1]|] eqn:Hc; simpl; [|done].
    rewrite (IH _ s1); simpl; [|apply lookup_insert_eq|by eapply call_effect_wf].
    destruct (calls_effect this cs s1) as [[[os s2] e2]|]; simpl; [|done].
    unfold ret. by rewrite insert_insert_eq, app_assoc.
Qed.

(** ** Reading an element *)

Lemma do_call_get this i w s x :
  heap w !! this = Some s → wf s → storage_ s !! i = Some (Some x) →
  do_call this (CGet i) w = Some (OElem x, w).
Proof.
  intros H Hwf Hx. rewrite (do_call_eq _ _ _ _ H Hwf). simpl.
  rewrite Hx. simpl. by rewrite world_same.
Qed.

(** ** Statements as a step relation *)

Lemma get_size_dangling w this : heap w !! this = None → get_size this w = None.
Proof. intros H. unfold get_size, bind, load. by rewrite H. Qed.

Lemma allocate_taken w this n s : heap w !! this = Some s → allocate this n w = None.
Proof. intros H. unfold allocate. by rewrite H. Qed.

Lemma clear_dangling w this : heap w !! this = None → clear this w = None.
Proof. intros H. unfold clear, bind. by rewrite get_size_dangling. Qed.

Lemma do_call_dangling w this c : heap w !! this = None → do_call this c w = None.
Proof.
  intros H.
  destruct c; simpl;
    unfold bind, emplace_back, push_back, push_back_move, pop_back, at_if, front_if,
      back_if, empty, size, capacity, subscript, read, assign, ret, bind;
    simpl; rewrite ?get_size_dangling, ?clear_dangling by done; try done.
  all: unfold load; by rewrite H.
Qed.

Lemma step_exec st w o w' :
  wf_world w → step st w o w' → exec st w = Some (o, w').
Proof.
  intros Hwf Hstep. destruct Hstep; simpl.
  - by rewrite (bind_eq _ _ _ _ _ (static_vector_ctor_eq _ _ H)).
  - by erewrite bind_eq by (eapply static_vector_copy_ctor_eq; eauto).
  - by erewrite bind_eq by (eapply static_vector_move_ctor_eq; eauto).
  - unfold operator_assign_copy. by rewrite decide_False by (intros Hne; by apply Hne).
  - by erewrite bind_eq by (eapply operator_assign_copy_eq; eauto).
  - unfold operator_assign_move. by rewrite decide_False by (intros Hne; by apply Hne).
  - by erewrite bind_eq by (eapply operator_assign_move_eq; eauto).
  - erewrite bind_eq; [done|]. eapply static_vector_dtor_eq; [done|].
    destruct (Hwf _ _ H). lia.
  - rewrite (do_call_eq _ _ _ _ H (Hwf _ _ H)), H0. done.
Qed.

Lemma exec_step st w o w' :
  wf_world w → exec st w = Some (o, w') → step st w o w'.
Proof.
  intros Hwf Hex. destruct st as [this|this other|this other|this other|this other|this|this c];
    simpl in Hex.
  - destruct (heap w !! this) as [s|] eqn:Ht.
    + unfold bind, static_vector_ctor in Hex. by rewrite (allocate_taken _ _ _ _ Ht) in Hex.
    + rewrite (bind_eq _ _ _ _ _ (static_vector_ctor_eq _ _ Ht)) in Hex.
      injection Hex as <- <-. by constructor.
  - destruct (heap w !! other) as [so|] eqn:Ho; last first.
    { unfold bind, static_vector_copy_ctor, bind in Hex.
      by rewrite (get_size_dangling _ _ Ho) in Hex. }
    destruct (heap w !! this) as [s|] eqn:Ht.
    { unfold bind, static_vector_copy_ctor, bind in Hex.
      by rewrite (get_size_eq _ _ _ Ho), (allocate_taken _ _ _ _ Ht) in Hex. }
    erewrite bind_eq in Hex by (eapply static_vector_copy_ctor_eq; eauto).
    injection Hex as <- <-. by constructor.
  - destruct (heap w !! other) as [so|] eqn:Ho; last first.
    { unfold bind, static_vector_move_ctor, bind in Hex.
      by rewrite (get_size_dangling _ _ Ho) in Hex. }
    destruct (heap w !! this) as [s|] eqn:Ht.
    { unfold bind, static_vector_move_ctor, bind in Hex.
      by rewrite (get_size_eq _ _ _ Ho), (allocate_taken _ _ _ _ Ht) in Hex. }
    erewrite bind_eq in Hex by (eapply static_vector_move_ctor_eq; eauto).
    injection Hex as <- <-. by constructor.
  - destruct (decide (this = other)) as [<-|Hne].
    { unfold operator_assign_copy in Hex.
      rewrite decide_False in Hex by (intros Hne; by apply Hne).
      injection Hex as <- <-. constructor. }
    destruct (heap w !! this) as [s|] eqn:Ht; last first.
    { unfold bind, operator_assign_copy in Hex. rewrite decide_True in Hex by done.
      unfold bind in Hex. by rewrite (clear_dangling _ _ Ht) in Hex. }
    destruct (heap w !! other) as [so|] eqn:Ho; last first.
    { unfold bind, operator_assign_copy in Hex. rewrite decide_True in Hex by done.
      unfold bind in Hex.
      rewrite (clear_eq _ _ _ Ht) in Hex by (destruct (Hwf _ _ Ht); lia).
      rewrite get_size_dangling in Hex; [done|]. simpl. by rewrite lookup_insert_ne. }
    erewrite bind_eq in Hex by (eapply operator_assign_copy_eq; eauto).
    injection Hex as <- <-. by constructor.
  - destruct (decide (this = other)) as [<-|Hne].
    { unfold operator_assign_move in Hex.
      rewrite decide_False in Hex by (intros Hne; by apply Hne).
      injection Hex as <- <-. constructor. }
    destruct (heap w !! this) as [s|] eqn:Ht; last first.
    { unfold bind, operator_assign_move in Hex. rewrite decide_True in Hex by done.
      unfold bind in Hex. by rewrite (clear_dangling _ _ Ht) in Hex. }
    destruct (heap w !! other) as [so|] eqn:Ho; last first.
    { unfold bind, operator_assign_move in Hex. rewrite decide_True in Hex by done.
      unfold bind in Hex.
      rewrite (clear_eq _ _ _ Ht) in Hex by (destruct (Hwf _ _ Ht); lia).
      rewrite get_size_dangling in Hex; [done|]. simpl. by rewrite lookup_insert_ne. }
    erewrite bind_eq in Hex by (eapply operator_assign_move_eq; eauto).
    injection Hex as <- <-. by constructor.
  - destruct (heap w !! this) as [s|] eqn:Ht; last first.
    { unfold bind, static_vector_dtor, bind in Hex.
      by rewrite (clear_dangling _ _ Ht) in Hex. }
    erewrite bind_eq in Hex
      by (eapply static_vector_dtor_eq; [done|destruct (Hwf _ _ Ht); lia]).
    injection Hex as <- <-. by constructor.
  - destruct (heap w !! this) as [s|] eqn:Ht; last first.
    { by rewrite (do_call_dangling _ _ _ Ht) in Hex. }
    rewrite (do_call_eq _ _ _ _ Ht (Hwf _ _ Ht)) in Hex.
    destruct (call_effect this c s) as [[[o' s'] evs]|] eqn:Hc; simpl in Hex; [|done].
    injection Hex as <- <-. by econstructor.
Qed.

(** ** The capacity invariant *)

Lemma wf_world_insert w a s l :
  wf_world w → wf s → wf_world (World (<[a := s]> (heap w)) l).
Proof.
  intros Hw Hs b t. simpl. rewrite lookup_insert.
  case_decide; [by intros [= <-]|apply Hw].
Qed.

Lemma wf_world_delete w a l :
  wf_world w → wf_world (World (delete a (heap w)) l).
Proof.
  intros Hw b t. simpl. rewrite lookup_delete.
  case_decide; [done|apply Hw].
Qed.

Lemma wf_world_initial : wf_world initial.
Proof. intros a s. unfold initial. simpl. by rewrite lookup_empty. Qed.

Lemma step_wf st w o w' : wf_world w → step st w o w' → wf_world w'.
Proof.
  intros Hw Hstep. destruct Hstep; try done.
  - apply wf_world_insert; [done|apply wf_fresh].
  - apply wf_world_insert; [done|]. apply wf_copy_of. eauto.
  - apply (wf_world_insert (World _ (log w))); [|apply wf_moved_from; eauto].
    apply wf_world_insert; [done|]. apply wf_moved_to. eauto.
  - apply wf_world_insert; [done|]. apply wf_copy_assigned; eauto.
  - apply (wf_world_insert (World _ (log w)));
      [|apply wf_cleared, wf_moved_out; eauto].
    apply wf_world_insert; [done|]. apply wf_move_assigned; eauto.
  - by apply wf_world_delete.
  - apply wf_world_insert; [done|]. eapply call_effect_wf; [|done]. eauto.
Qed.

(** The worlds a client can reach from the initial one. *)
Lemma run_wf prog : ∀ w os w',
  wf_world w → run prog w = Some (os, w') → wf_world w'.
Proof.
  induction prog as [|st prog IH]; intros w os w' Hw Hrun; simpl in Hrun.
  - by injection Hrun as <- <-.
  - unfold bind in Hrun.
    destruct (exec st w) as [[o w1]|] eqn:Hex; [|done].
    destruct (run prog w1) as [[os' w2]|] eqn:Hrest; [|done].
    injection Hrun as <- <-.
    eapply IH; [|done]. eapply step_wf; [done|]. by apply exec_step.
Qed.

(** C9.  Capacity invariant.  In every world a client program reaches
    from the initial one, every container alive has [size() <= capacity()],
    and [capacity()] returns the template parameter [Capacity], whatever
    the size, without changing anything. *)
Theorem capacity_invariant prog os w this s :
  run prog initial = Some (os, w) →
  heap w !! this = Some s →
  ∃ n, size this w = Some (n, w)
       ∧ capacity this w = Some (Capacity, w)
       ∧ n ≤ Capacity.
Proof.
  intros Hrun Hs.
  pose proof (run_wf _ _ _ _ wf_world_initial Hrun _ _ Hs) as [_ Hsz _].
  exists (size_ s). unfold size, capacity.
  rewrite (get_size_eq _ _ _ Hs), (bind_eq _ _ _ _ _ (load_eq _ _ _ Hs)).
  done.
Qed.

(** ** Worlds that differ only in objects above the sizes *)

Lemma refines_refl s : refines s s.
Proof. by split. Qed.

Lemma refines_take s1 s2 :
  wf s1 → wf s2 → refines s1 s2 →
  take (size_ s1) (storage_ s1) = take (size_ s2) (storage_ s2).
Proof.
  intros Hwf1 Hwf2 [Hsz Hobj]. rewrite <- Hsz. apply list_eq. intros i.
  destruct (decide (i < size_ s1)) as [Hlt|Hge].
  - rewrite !lookup_take_lt by done.
    destruct (wf_live _ Hwf1 i Hlt) as [x Hx]. by rewrite Hx, (Hobj _ _ Hx).
  - by rewrite !lookup_take_ge by lia.
Qed.

Lemma refines_contents s1 s2 :
  wf s1 → wf s2 → refines s1 s2 → contents s1 = contents s2.
Proof. intros Hwf1 Hwf2 Hr. unfold contents. by rewrite (refines_take _ _ Hwf1 Hwf2 Hr). Qed.

Lemma objects_overwrite ys (l1 l2 : list (option T)) :
  length ys ≤ length l1 → length ys ≤ length l2 →
  (∀ i x, l1 !! i = Some (Some x) → l2 !! i = Some (Some x)) →
  ∀ i x, overwrite 0 ys l1 !! i = Some (Some x) → overwrite 0 ys l2 !! i = Some (Some x).
Proof.
  intros Hl1 Hl2 Hobj i x. destruct (decide (i < length ys)) as [Hlt|Hge].
  - rewrite <- (Nat.add_0_l i). by rewrite !lookup_overwrite_mid by lia.
  - rewrite !lookup_overwrite_ge by lia. apply Hobj.
Qed.

Lemma objects_insert (l1 l2 : list (option T)) k v :
  length l1 = length l2 →
  (∀ i x, l1 !! i = Some (Some x) → l2 !! i = Some (Some x)) →
  ∀ i x, <[k := v]> l1 !! i = Some (Some x) → <[k := v]> l2 !! i = Some (Some x).
Proof.
  intros Hlen Hobj i x. destruct (decide (i = k)) as [->|Hne].
  - destruct (decide (k < length l1)) as [Hlt|Hge].
    + by rewrite !list_lookup_insert_eq by lia.
    + rewrite !list_insert_ge by lia. apply Hobj.
  - rewrite !list_lookup_insert_ne by done. apply Hobj.
Qed.

Lemma refines_grown s1 s2 x :
  wf s1 → wf s2 → refines s1 s2 → refines (grown s1 x) (grown s2 x).
Proof.
  intros [Hl1 _ _] [Hl2 _ _] [Hsz Hobj]. split; simpl; [by rewrite Hsz|].
  rewrite <- Hsz. apply objects_insert; [congruence|done].
Qed.

Lemma refines_shrunk s1 s2 :
  wf s1 → wf s2 → refines s1 s2 → refines (shrunk s1) (shrunk s2).
Proof.
  intros [Hl1 _ _] [Hl2 _ _] [Hsz Hobj]. split; simpl; [by rewrite Hsz|].
  rewrite <- Hsz. apply objects_insert; [congruence|done].
Qed.

Lemma refines_cleared s1 s2 :
  wf s1 → wf s2 → refines s1 s2 → refines (cleared s1) (cleared s2).
Proof.
  intros [Hl1 Hs1 _] [Hl2 Hs2 _] [Hsz Hobj]. split; simpl; [done|].
  rewrite <- Hsz. apply objects_overwrite; rewrite ?length_replicate; [lia..|done].
Qed.

Lemma refines_assigned s1 s2 pos x :
  wf s1 → wf s2 → refines s1 s2 →
  refines (StaticVector (<[pos := Some x]> (storage_ s1)) (size_ s1))
          (StaticVector (<[pos := Some x]> (storage_ s2)) (size_ s2)).
Proof.
  intros [Hl1 _ _] [Hl2 _ _] [Hsz Hobj]. split; simpl; [done|].
  apply objects_insert; [congruence|done].
Qed.

Lemma copy_of_refines so1 so2 :
  wf so1 → wf so2 → refines so1 so2 → copy_of so1 = copy_of so2.
Proof.
  intros Hwf1 Hwf2 Hr. unfold copy_of.
  by rewrite (refines_contents _ _ Hwf1 Hwf2 Hr), (proj1 Hr).
Qed.

Lemma moved_to_refines so1 so2 :
  wf so1 → wf so2 → refines so1 so2 → moved_to so1 = moved_to so2.
Proof.
  intros Hwf1 Hwf2 Hr. unfold moved_to.
  by rewrite (refines_contents _ _ Hwf1 Hwf2 Hr), (proj1 Hr).
Qed.

Lemma refines_moved_out so1 so2 :
  wf so1 → wf so2 → refines so1 so2 → refines (moved_out so1) (moved_out so2).
Proof.
  intros Hwf1 Hwf2 Hr. pose proof (length_contents _ Hwf2) as Hlc.
  pose proof Hwf1 as [Hl1 Hs1 _]. pose proof Hwf2 as [Hl2 Hs2 _].
  split; simpl; [apply Hr|].
  rewrite (refines_contents so1 so2) by done.
  apply objects_overwrite; rewrite ?length_fmap; [lia..|apply Hr].
Qed.

Lemma refines_moved_from so1 so2 :
  wf so1 → wf so2 → refines so1 so2 → refines (moved_from so1) (moved_from so2).
Proof.
  intros Hwf1 Hwf2 Hr. destruct (refines_moved_out _ _ Hwf1 Hwf2 Hr) as [_ Hobj].
  by split.
Qed.

Lemma refines_copy_assigned st1 st2 so1 so2 :
  wf st1 → wf st2 → wf so1 → wf so2 → refines st1 st2 → refines so1 so2 →
  refines (copy_assigned st1 so1) (copy_assigned st2 so2).
Proof.
  intros Ht1 Ht2 Ho1 Ho2 Hrt Hro. pose proof (length_contents _ Ho2) as Hlc.
  destruct (wf_cleared _ Ht1) as [Hl1 _ _], (wf_cleared _ Ht2) as [Hl2 _ _].
  pose proof Ho2 as [_ Hs2 _]. split; simpl; [apply Hro|].
  rewrite (refines_contents so1 so2) by done.
  apply objects_overwrite; rewrite ?length_fmap; [simpl in *; lia..|].
  by apply refines_cleared.
Qed.

Lemma refines_move_assigned st1 st2 so1 so2 :
  wf st1 → wf st2 → wf so1 → wf so2 → refines st1 st2 → refines so1 so2 →
  refines (move_assigned st1 so1) (move_assigned st2 so2).
Proof.
  intros Ht1 Ht2 Ho1 Ho2 Hrt Hro. pose proof (length_contents _ Ho2) as Hlc.
  destruct (wf_cleared _ Ht1) as [Hl1 _ _], (wf_cleared _ Ht2) as [Hl2 _ _].
  pose proof Ho2 as [_ Hs2 _]. split; simpl; [apply Hro|].
  rewrite (refines_contents so1 so2) by done.
  apply objects_overwrite; rewrite ?length_fmap; [simpl in *; lia..|].
  by apply refines_cleared.
Qed.

Lemma call_effect_refines this c s1 s2 o s1' evs :
  wf s1 → wf s2 → refines s1 s2 →
  call_effect this c s1 = Some (o, s1', evs) →
  ∃ s2', call_effect this c s2 = Some (o, s2', evs) ∧ refines s1' s2'.
Proof.
  intros Hwf1 Hwf2 Hr H. pose proof Hr as [Hsz Hobj].
  destruct c; simpl in H |- *; rewrite <- ?Hsz.
  1-3: case_decide; injection H as <- <- <-; eauto using refines_grown.
  - case_decide; injection H as <- <- <-; eauto using refines_shrunk.
  - injection H as <- <- <-. eauto using refines_cleared.
  - case_decide; [|injection H as <- <- <-; eauto].
    destruct (storage_ s1 !! pos) as [[y|]|] eqn:E; try done.
    injection H as <- <- <-. rewrite (Hobj _ _ E). eauto.
  - case_decide; [|injection H as <- <- <-; eauto].
    destruct (storage_ s1 !! 0) as [[y|]|] eqn:E; try done.
    injection H as <- <- <-. rewrite (Hobj _ _ E). eauto.
  - case_decide; [|injection H as <- <- <-; eauto].
    destruct (storage_ s1 !! (size_ s1 - 1)) as [[y|]|] eqn:E; try done.
    injection H as <- <- <-. rewrite (Hobj _ _ E). eauto.
  - destruct (storage_ s1 !! pos) as [[y|]|] eqn:E; try done.
    injection H as <- <- <-. rewrite (Hobj _ _ E). eauto.
  - destruct (storage_ s1 !! pos) as [[y|]|] eqn:E; try done.
    injection H as <- <- <-. rewrite (Hobj _ _ E).
    eexists. split; [done|].
    pose proof (refines_assigned s1 s2 pos x Hwf1 Hwf2 Hr) as Ha.
    by rewrite <- Hsz in Ha.
  - injection H as <- <- <-. eauto.
  - injection H as <- <- <-. eauto.
  - injection H as <- <- <-. eauto.
Qed.

Lemma refines_world_None w1 w2 a :
  refines_world w1 w2 → heap w1 !! a = None → heap w2 !! a = None.
Proof. intros [_ Hh] H1. specialize (Hh a). rewrite H1 in Hh. by inversion Hh. Qed.

Lemma refines_world_Some w1 w2 a s1 :
  refines_world w1 w2 → heap w1 !! a = Some s1 →
  ∃ s2, heap w2 !! a = Some s2 ∧ refines s1 s2.
Proof.
  intros [_ Hh] H1. specialize (Hh a). rewrite H1 in Hh.
  inversion Hh as [? s2 Hr|]; subst. eauto.
Qed.

Lemma refines_insert (h1 h2 : gmap nat static_vector) b s1 s2 :
  (∀ a, option_Forall2 refines (h1 !! a) (h2 !! a)) →
  refines s1 s2 →
  ∀ a, option_Forall2 refines (<[b := s1]> h1 !! a) (<[b := s2]> h2 !! a).
Proof.
  intros Hh Hr a. destruct (decide (b = a)) as [<-|Hne].
  - rewrite !lookup_insert_eq. by constructor.
  - rewrite !lookup_insert_ne by done. apply Hh.
Qed.

Lemma refines_delete (h1 h2 : gmap nat static_vector) b :
  (∀ a, option_Forall2 refines (h1 !! a) (h2 !! a)) →
  ∀ a, option_Forall2 refines (delete b h1 !! a) (delete b h2 !! a).
Proof.
  intros Hh a. destruct (decide (b = a)) as [<-|Hne].
  - rewrite !lookup_delete_eq. constructor.
  - rewrite !lookup_delete_ne by done. apply Hh.
Qed.

Lemma step_refines st w1 o w1' w2 :
  wf_world w1 → wf_world w2 → refines_world w1 w2 →
  step st w1 o w1' →
  ∃ w2', step st w2 o w2' ∧ refines_world w1' w2'.
Proof.
  intros Hwf1 Hwf2 Hr Hstep. pose proof Hr as [Hlog Hh].
  destruct Hstep as [this w1 Hn|this other w1 so1 Hn Ho|this other w1 so1 Hn Ho
                    |this w1|this other w1 st1 so1 Hne Ht Ho
                    |this w1|this other w1 st1 so1 Hne Ht Ho
                    |this w1 s1 Ht|this c w1 s1 o s1' evs Ht Hc].
  - eexists. split; [constructor; by eapply refines_world_None|].
    split; simpl; [done|]. apply refines_insert; [done|apply refines_refl].
  - destruct (refines_world_Some _ _ _ _ Hr Ho) as (so2 & Ho2 & Hro).
    eexists. split; [econstructor; [by eapply refines_world_None|done]|].
    pose proof (Hwf1 _ _ Ho). pose proof (Hwf2 _ _ Ho2).
    split; simpl; [by rewrite Hlog, (proj1 Hro)|].
    rewrite (copy_of_refines so1 so2) by done.
    apply refines_insert; [done|apply refines_refl].
  - destruct (refines_world_Some _ _ _ _ Hr Ho) as (so2 & Ho2 & Hro).
    eexists. split; [econstructor; [by eapply refines_world_None|done]|].
    pose proof (Hwf1 _ _ Ho). pose proof (Hwf2 _ _ Ho2).
    split; simpl; [by rewrite Hlog, (proj1 Hro)|].
    rewrite (moved_to_refines so1 so2) by done.
    apply refines_insert; [|by apply refines_moved_from].
    apply refines_insert; [done|apply refines_refl].
  - eexists. split; [constructor|done].
  - destruct (refines_world_Some _ _ _ _ Hr Ht) as (st2 & Ht2 & Hrt).
    destruct (refines_world_Some _ _ _ _ Hr Ho) as (so2 & Ho2 & Hro).
    eexists. split; [by econstructor|].
    pose proof (Hwf1 _ _ Ho). pose proof (Hwf2 _ _ Ho2).
    pose proof (Hwf1 _ _ Ht). pose proof (Hwf2 _ _ Ht2).
    split; simpl; [by rewrite Hlog, (proj1 Hro), (proj1 Hrt)|].
    apply refines_insert; [done|by apply refines_copy_assigned].
  - eexists. split; [constructor|done].
  - destruct (refines_world_Some _ _ _ _ Hr Ht) as (st2 & Ht2 & Hrt).
    destruct (refines_world_Some _ _ _ _ Hr Ho) as (so2 & Ho2 & Hro).
    eexists. split; [by econstructor|].
    pose proof (Hwf1 _ _ Ho). pose proof (Hwf2 _ _ Ho2).
    pose proof (Hwf1 _ _ Ht). pose proof (Hwf2 _ _ Ht2).
    split; simpl; [by rewrite Hlog, (proj1 Hro), (proj1 Hrt)|].
    apply refines_insert.
    + apply refines_insert; [done|by apply refines_move_assigned].
    + apply refines_cleared; [by apply wf_moved_out..|by apply refines_moved_out].
  - destruct (refines_world_Some _ _ _ _ Hr Ht) as (s2 & Ht2 & Hrs).
    eexists. split; [by econstructor|].
    split; simpl; [by rewrite Hlog, (proj1 Hrs)|]. by apply refines_delete.
  - destruct (refines_world_Some _ _ _ _ Hr Ht) as (s2 & Ht2 & Hrs).
    destruct (call_effect_refines _ _ _ _ _ _ _ (Hwf1 _ _ Ht) (Hwf2 _ _ Ht2) Hrs Hc)
      as (s2' & Hc2 & Hrs').
    eexists. split; [by econstructor|].
    split; simpl; [by rewrite Hlog|]. by apply refines_insert.
Qed.

Lemma run_refines prog : ∀ w1 w2 os w1',
  wf_world w1 → wf_world w2 → refines_world w1 w2 →
  run prog w1 = Some (os, w1') →
  ∃ w2', run prog w2 = Some (os, w2') ∧ refines_world w1' w2'.
Proof.
  induction prog as [|st prog IH]; intros w1 w2 os w1' Hwf1 Hwf2 Hr Hrun;
    simpl in Hrun |- *.
  - injection Hrun as <- <-. by exists w2.
  - unfold bind in Hrun |- *.
    destruct (exec st w1) as [[o u1]|] eqn:Hex; [|done].
    destruct (run prog u1) as [[os' v1]|] eqn:Hrest; [|done].
    injection Hrun as <- <-.
    pose proof (exec_step _ _ _ _ Hwf1 Hex) as Hstep.
    destruct (step_refines _ _ _ _ _ Hwf1 Hwf2 Hr Hstep) as (u2 & Hstep2 & Hru).
    rewrite (step_exec _ _ _ _ Hwf2 Hstep2).
    destruct (IH u1 u2 os' v1) as (v2 & Hrun2 & Hrv);
      [exact (step_wf _ _ _ _ Hwf1 Hstep)|exact (step_wf _ _ _ _ Hwf2 Hstep2)|done..|].
    rewrite Hrun2. by exists v2.
Qed.

(** C4.  Move-construction round-trip.  Move-constructing a container at
    a free address [m] from a container [c] with [k] elements succeeds;
    the new container has size [k] and its element [i] is move-constructed
    from element [i] of [c], in index order; [c] is left well formed, with
    size zero.  From then on a client cannot tell [c] from a freshly
    default-constructed container in its place: every program that is
    defined with the fresh container returns the same observations with
    [c], causes the same lifetime events and reaches a world with the same
    sizes and the same elements; and every sequence of checked member
    calls is defined on the fresh container. *)
Theorem move_construction_round_trip w c sc m :
  wf_world w →
  heap w !! c = Some sc →
  heap w !! m = None →
  ∃ w' sm sc',
    static_vector_move_ctor m c w = Some (tt, w')
    ∧ heap w' !! m = Some sm
    ∧ size_ sm = size_ sc
    ∧ (∀ i x, i < size_ sc → storage_ sc !! i = Some (Some x) →
              storage_ sm !! i = Some (Some (move_construct x).1))
    ∧ log w' = log w ++ ((λ k, Construct (m, k)) <$> seq 0 (size_ sc))
    ∧ heap w' !! c = Some sc'
    ∧ wf sc'
    ∧ size c w' = Some (0, w')
    ∧ let w0 := World (<[c := StaticVector (replicate Capacity None) 0]> (heap w'))
                      (log w') in
      (∀ cs, Forall checked cs → is_Some (do_calls c cs w0))
      ∧ (∀ prog os w1,
           run prog w0 = Some (os, w1) →
           ∃ w2, run prog w' = Some (os, w2) ∧ refines_world w1 w2).
Proof.
  intros Hw Hc Hm. assert (Hne : m ≠ c) by congruence.
  pose proof (Hw _ _ Hc) as Hwf.
  pose proof (length_contents _ Hwf) as Hlc. pose proof Hwf as [Hlen Hle _].
  eexists _, (moved_to sc), (moved_from sc).
  split; [by apply static_vector_move_ctor_eq|]. simpl.
  split; [rewrite lookup_insert_ne by done; apply lookup_insert_eq|].
  split; [done|]. split; [|split; [done|]].
  { intros i x Hi Hx. apply (lookup_overwrite_fmap (fst ∘ move_construct)).
    - rewrite length_replicate. lia.
    - by apply contents_lookup. }
  split; [apply lookup_insert_eq|]. split; [by apply wf_moved_from|].
  split.
  { unfold size. erewrite get_size_eq by (simpl; apply lookup_insert_eq). done. }
  set (h := <[c := moved_from sc]> (<[m := moved_to sc]> (heap w))).
  set (fresh := StaticVector (replicate Capacity None) 0).
  set (l := log w ++ constructed m 0 (size_ sc)).
  assert (Hw' : wf_world (World h l)).
  { apply (wf_world_insert (World _ (log w))); [|by apply wf_moved_from].
    apply wf_world_insert; [done|by apply wf_moved_to]. }
  assert (Hw0 : wf_world (World (<[c := fresh]> h) l)).
  { apply (wf_world_insert (World h l)); [done|apply wf_fresh]. }
  split.
  - intros cs Hall.
    assert (H0 : heap (World (<[c := fresh]> h) l) !! c = Some fresh)
      by apply lookup_insert_eq.
    rewrite (do_calls_eq _ _ _ _ H0 wf_fresh).
    destruct (calls_effect_checked c cs fresh wf_fresh Hall) as [[[os s1] evs] ->].
    by eexists.
  - intros prog os w1 Hrun.
    apply (run_refines prog (World (<[c := fresh]> h) l) (World h l) os w1); try done.
    split; [done|]. simpl. intros a.
    destruct (decide (c = a)) as [<-|Hca].
    + unfold h. rewrite !lookup_insert_eq. constructor. split; [done|].
      intros i x Hx. simpl in Hx. by apply lookup_replicate_1 in Hx as [? _].
    + rewrite lookup_insert_ne by done.
      destruct (h !! a); constructor. apply refines_refl.
Qed.

(** ** Copies are independent of their source *)

Lemma step_frame st w o w' c :
  step st w o w' → ¬ writes_to c st → heap w' !! c = heap w !! c.
Proof.
  intros Hstep Hc. destruct Hstep; simpl in *; try done.
  all: rewrite ?lookup_insert_ne, ?lookup_delete_ne by tauto; done.
Qed.

Lemma run_frame prog c : ∀ w os w',
  wf_world w →
  Forall (λ st, ¬ writes_to c st) prog →
  run prog w = Some (os, w') →
  heap w' !! c = heap w !! c.
Proof.
  induction prog as [|st prog IH]; intros w os w' Hw Hall Hrun; simpl in Hrun.
  - by injection Hrun as <- <-.
  - inversion Hall as [|st' prog' Hst Hall']; subst.
    unfold bind in Hrun.
    destruct (exec st w) as [[o w1]|] eqn:Hex; [|done].
    destruct (run prog w1) as [[os' w2]|] eqn:Hrest; [|done].
    injection Hrun as <- <-.
    pose proof (exec_step _ _ _ _ Hw Hex) as Hstep.
    rewrite (IH w1 os' w2); [by eapply step_frame|by eapply step_wf|done..].
Qed.

(** C3.  Copy round-trip.  Let [c] be a container and [copy] another
    address, either free (copy construction) or holding a container
    (copy assignment), and let the copy constructor of [T] give equal
    objects.  Then copying succeeds, [copy] has the size of [c], reading
    [copy[i]] and [c[i]] gives the same element for every [i] below that
    size, and [c] is exactly as before.  [c] stays exactly so through
    whatever a client does next, as long as no statement has [c] itself as
    its object or moves from it: pushes, [pop_back], [clear] and element
    writes on [copy], assignments to [copy], its destruction. *)
Theorem copy_round_trip `{!CopyFaithful T} w c sc copy (m : M unit) :
  wf_world w →
  heap w !! c = Some sc →
  copy ≠ c →
  (heap w !! copy = None ∧ m = static_vector_copy_ctor copy c)
  ∨ (is_Some (heap w !! copy) ∧ m = operator_assign_copy copy c) →
  ∃ w', m w = Some (tt, w')
        ∧ size copy w' = Some (size_ sc, w')
        ∧ size c w' = Some (size_ sc, w')
        ∧ (∀ i, i < size_ sc →
                ∃ x, do_call copy (CGet i) w' = Some (OElem x, w')
                     ∧ do_call c (CGet i) w' = Some (OElem x, w'))
        ∧ heap w' !! c = Some sc
        ∧ (∀ prog os w'',
             Forall (λ st, ¬ writes_to c st) prog →
             run prog w' = Some (os, w'') →
             heap w'' !! c = Some sc).
Proof.
  intros Hw Hc Hne Hm. pose proof (Hw _ _ Hc) as Hwf.
  assert (∃ s' l', m w = Some (tt, World (<[copy := s']> (heap w)) l')
                   ∧ wf s' ∧ size_ s' = size_ sc
                   ∧ ∀ i x, i < size_ sc → storage_ sc !! i = Some (Some x) →
                            storage_ s' !! i = Some (Some (copy_construct x)))
    as (s' & l' & Hrun & Hwf' & Hsz & Hst).
  { pose proof (length_contents _ Hwf) as Hlc. pose proof Hwf as [Hlen Hle _].
    destruct Hm as [[Hfree ->]|[[st Hst] ->]].
    - eexists (copy_of sc), _. split; [by apply static_vector_copy_ctor_eq|].
      split; [by apply wf_copy_of|]. split; [done|]. simpl.
      intros i x Hi Hx. apply (lookup_overwrite_fmap copy_construct).
      + rewrite length_replicate. lia.
      + by apply contents_lookup.
    - pose proof (Hw _ _ Hst) as Hwft. eexists (copy_assigned st sc), _.
      split; [by apply operator_assign_copy_eq|].
      split; [by apply wf_copy_assigned|]. split; [done|].
      intros i x Hi Hx. apply (lookup_overwrite_fmap copy_construct).
      + destruct (wf_cleared _ Hwft) as [-> _ _]. lia.
      + by apply contents_lookup. }
  eexists. split; [exact Hrun|].
  assert (Hcopy : heap (World (<[copy := s']> (heap w)) l') !! copy = Some s')
    by apply lookup_insert_eq.
  assert (Hc' : heap (World (<[copy := s']> (heap w)) l') !! c = Some sc)
    by (simpl; by rewrite lookup_insert_ne).
  unfold size. rewrite (get_size_eq _ _ _ Hcopy), (get_size_eq _ _ _ Hc'), Hsz.
  split; [done|]. split; [done|]. split; [|split; [done|]].
  - intros i Hi. destruct (wf_live _ Hwf i Hi) as [x Hx]. exists x.
    split; [|by apply (do_call_get _ _ _ sc)].
    apply (do_call_get _ _ _ s'); [done..|].
    rewrite <- (copy_construct_eq x) at 1. by apply Hst.
  - intros prog os w'' Hall Hprog.
    rewrite (run_frame _ _ _ _ _ (wf_world_insert _ _ _ _ Hw Hwf') Hall Hprog).
    done.
Qed.

(** ** Lifetimes *)

Lemma lifetimes_app l1 : ∀ l2 live,
  lifetimes (l1 ++ l2) live = lifetimes l1 live ≫= lifetimes l2.
Proof.
  induction l1 as [|[p|p|a] l1 IH]; intros l2 live; simpl; [done|..];
    case_decide; simpl; auto.
Qed.

Lemma lifetimes_constructed a m : ∀ k live,
  (∀ i, (a, i) ∈ live ↔ i < k) →
  ∃ live', lifetimes (constructed a k m) live = Some live'
           ∧ ∀ b i, (b, i) ∈ live' ↔
                    if decide (b = a) then i < k + m else (b, i) ∈ live.
Proof.
  induction m as [|m IH]; intros k live Hk; simpl.
  - exists live. split; [done|]. intros b i. case_decide; [subst|done].
    rewrite Hk. lia.
  - rewrite decide_False by (rewrite Hk; lia).
    destruct (IH (S k) ({[(a, k)]} ∪ live)) as (live' & Hrun & Hlive').
    { intros i. rewrite elem_of_union, elem_of_singleton, Hk.
      split; [intros [[= ->]|]; lia|].
      intros Hi. destruct (decide (i = k)) as [->|]; [by left|right; lia]. }
    exists live'. unfold constructed in Hrun. split; [done|].
    intros b i. rewrite Hlive'. case_decide; [lia|].
    rewrite elem_of_union, elem_of_singleton. split; [|by right].
    intros [[= -> ->]|]; done.
Qed.

Lemma lifetimes_destroyed a m : ∀ k live,
  (∀ i, k ≤ i < k + m → (a, i) ∈ live) →
  ∃ live', lifetimes (destroyed a k m) live = Some live'
           ∧ ∀ b i, (b, i) ∈ live' ↔ (b, i) ∈ live ∧ ¬ (b = a ∧ k ≤ i < k + m).
Proof.
  induction m as [|m IH]; intros k live Hk; simpl.
  - exists live. split; [done|]. intros b i. split; [|tauto].
    intros Hin. split; [done|lia].
  - rewrite decide_True by (apply Hk; lia).
    destruct (IH (S k) (live ∖ {[(a, k)]})) as (live' & Hrun & Hlive').
    { intros i Hi. rewrite elem_of_difference, elem_of_singleton.
      split; [apply Hk; lia|]. intros [= ->]. lia. }
    exists live'. split; [done|]. intros b i.
    rewrite Hlive', elem_of_difference, elem_of_singleton.
    split.
    + intros [[Hin Hne] Hout]. split; [done|]. intros [-> Hi].
      destruct (decide (i = k)) as [->|]; [done|]. apply Hout. split; [done|lia].
    + intros [Hin Hout]. split; [split; [done|]|].
      * intros [= -> ->]. apply Hout. split; [done|lia].
      * intros [-> Hi]. apply Hout. split; [done|lia].
Qed.

Lemma sized_ext live f g : (∀ b, f b = g b) → sized live f → sized live g.
Proof. intros Hfg Hf b i. rewrite <- Hfg. apply Hf. Qed.

Lemma replay_constructed live f a k m :
  sized live f → f a = k →
  ∃ live', lifetimes (constructed a k m) live = Some live'
           ∧ sized live' (<[a := k + m]> f).
Proof.
  intros Hs Hk. unfold sized in *.
  destruct (lifetimes_constructed a m k live) as (live' & Hrun & Hlive').
  { intros i. by rewrite Hs, Hk. }
  exists live'. split; [done|]. intros b i. rewrite Hlive'.
  case_decide; [subst; by rewrite fn_lookup_insert|].
  by rewrite fn_lookup_insert_ne, Hs by done.
Qed.

Lemma replay_destroyed live f a k m :
  sized live f → f a = k + m →
  ∃ live', lifetimes (destroyed a k m) live = Some live'
           ∧ sized live' (<[a := k]> f).
Proof.
  intros Hs Hk. unfold sized in *.
  destruct (lifetimes_destroyed a m k live) as (live' & Hrun & Hlive').
  { intros i Hi. rewrite Hs, Hk. lia. }
  exists live'. split; [done|]. intros b i. rewrite Hlive', Hs.
  destruct (decide (a = b)) as [<-|Hne].
  - rewrite fn_lookup_insert, Hk. split; [intros [? Hn]|intros ?].
    + destruct (decide (i < k)); [done|]. exfalso. apply Hn. split; [done|lia].
    + split; [lia|]. intros [_ ?]. lia.
  - rewrite fn_lookup_insert_ne by done. split; [tauto|].
    intros ?. split; [done|]. intros [-> _]. done.
Qed.

Lemma slots_of_sized live f a : sized live f → f a = 0 → slots_of a live = ∅.
Proof.
  intros Hs H0. apply elem_of_equiv_empty_L. intros [b i].
  unfold slots_of. rewrite elem_of_filter. simpl. intros [-> Hin].
  apply Hs in Hin. lia.
Qed.

Lemma size_at_insert h a s b :
  size_at (<[a := s]> h) b = <[a := size_ s]> (size_at h) b.
Proof.
  unfold size_at. destruct (decide (a = b)) as [<-|Hne].
  - by rewrite lookup_insert_eq, fn_lookup_insert.
  - by rewrite lookup_insert_ne, fn_lookup_insert_ne.
Qed.

Lemma size_at_delete h a b :
  size_at (delete a h) b = <[a := 0]> (size_at h) b.
Proof.
  unfold size_at. destruct (decide (a = b)) as [<-|Hne].
  - by rewrite lookup_delete_eq, fn_lookup_insert.
  - by rewrite lookup_delete_ne, fn_lookup_insert_ne.
Qed.

Lemma size_at_Some h a s : h !! a = Some s → size_at h a = size_ s.
Proof. unfold size_at. by intros ->. Qed.

Lemma size_at_None h a : h !! a = None → size_at h a = 0.
Proof. unfold size_at. by intros ->. Qed.

(** The lifetime events of a member call follow the change of size. *)
Lemma call_effect_events this c s o s' evs :
  call_effect this c s = Some (o, s', evs) →
  (∃ m, evs = constructed this (size_ s) m ∧ size_ s' = size_ s + m)
  ∨ (∃ m, evs = destroyed this (size_ s') m ∧ size_ s = size_ s' + m).
Proof.
  intros H. destruct c; simpl in H; inv_effect H; simpl.
  all: try (left; exists 0; split; [done|lia]).
  all: try (left; exists 1; split; [done|lia]).
  - right. exists 1. split; [done|lia].
  - right. exists (size_ s). split; [done|lia].
Qed.

Lemma step_tracks st w o w' live :
  wf_world w →
  no_move_ctor st →
  step st w o w' →
  lifetimes (log w) ∅ = Some live →
  tracks live w →
  ∃ live', lifetimes (log w') ∅ = Some live' ∧ tracks live' w'.
Proof.
  intros Hwf Hnm Hstep Hrun Htr. unfold tracks in *.
  change (sized live (size_at (heap w))) in Htr.
  destruct Hstep; simpl in Hnm; try done; simpl log; simpl heap;
    rewrite ?lifetimes_app, ?Hrun; simpl; eauto.
  - exists live. split; [done|].
    change (sized live (size_at (<[this := StaticVector (replicate Capacity None) 0]>
                                   (heap w)))).
    eapply sized_ext; [|exact Htr]. intros b. rewrite size_at_insert. simpl.
    destruct (decide (this = b)) as [<-|Hne].
    + by rewrite fn_lookup_insert, size_at_None.
    + by rewrite fn_lookup_insert_ne.
  - destruct (replay_constructed live _ this 0 (size_ so) Htr) as (live' & -> & Hs');
      [by apply size_at_None|].
    exists live'. split; [done|]. intros b i. rewrite (Hs' b i).
    by rewrite size_at_insert.
  - rewrite lifetimes_app.
    destruct (replay_destroyed live _ this 0 (size_ st) Htr) as (l1 & -> & Hs1);
      [by apply size_at_Some|]. simpl.
    destruct (replay_constructed l1 _ this 0 (size_ so) Hs1) as (l2 & -> & Hs2);
      [by rewrite fn_lookup_insert|].
    exists l2. split; [done|]. intros b i. rewrite (Hs2 b i), size_at_insert. simpl.
    destruct (decide (this = b)) as [<-|Hne].
    + by rewrite !fn_lookup_insert.
    + by rewrite !fn_lookup_insert_ne.
  - rewrite lifetimes_app.
    destruct (replay_destroyed live _ this 0 (size_ st) Htr) as (l1 & -> & Hs1);
      [by apply size_at_Some|]. simpl. rewrite lifetimes_app.
    destruct (replay_constructed l1 _ this 0 (size_ so) Hs1) as (l2 & -> & Hs2);
      [by rewrite fn_lookup_insert|]. simpl.
    destruct (replay_destroyed l2 _ other 0 (size_ so) Hs2) as (l3 & -> & Hs3).
    { rewrite !fn_lookup_insert_ne by done. by apply size_at_Some. }
    exists l3. split; [done|]. intros b i. rewrite (Hs3 b i).
    destruct (decide (other = b)) as [<-|Hne1];
      [|destruct (decide (this = b)) as [<-|Hne2]];
      repeat first [rewrite size_at_insert | rewrite fn_lookup_insert
                   | rewrite fn_lookup_insert_ne by done];
      done.
  - rewrite lifetimes_app.
    destruct (replay_destroyed live _ this 0 (size_ s) Htr) as (l1 & -> & Hs1);
      [by apply size_at_Some|]. simpl.
    rewrite decide_True by (eapply slots_of_sized; [done|by rewrite fn_lookup_insert]).
    exists l1. split; [done|]. intros b i. rewrite (Hs1 b i).
    by rewrite size_at_delete.
  - destruct (call_effect_events _ _ _ _ _ _ H0) as [(m & -> & Hm)|(m & -> & Hm)].
    + destruct (replay_constructed live _ this (size_ s) m Htr) as (l1 & -> & Hs1);
        [by apply size_at_Some|].
      exists l1. split; [done|]. intros b i. rewrite (Hs1 b i).
      by rewrite size_at_insert, Hm.
    + destruct (replay_destroyed live _ this (size_ s') m Htr) as (l1 & -> & Hs1);
        [by rewrite (size_at_Some _ _ _ H)|].
      exists l1. split; [done|]. intros b i. rewrite (Hs1 b i).
      by rewrite size_at_insert.
Qed.

Lemma run_tracks prog : ∀ w os w' live,
  wf_world w →
  Forall no_move_ctor prog →
  run prog w = Some (os, w') →
  lifetimes (log w) ∅ = Some live →
  tracks live w →
  ∃ live', lifetimes (log w') ∅ = Some live' ∧ tracks live' w'.
Proof.
  induction prog as [|st prog IH]; intros w os w' live Hw Hall Hrun Hlog Htr;
    simpl in Hrun.
  - injection Hrun as <- <-. eauto.
  - inversion Hall as [|st' prog' Hst Hall']; subst.
    unfold bind in Hrun.
    destruct (exec st w) as [[o w1]|] eqn:Hex; [|done].
    destruct (run prog w1) as [[os' w2]|] eqn:Hrest; [|done].
    injection Hrun as <- <-.
    pose proof (exec_step _ _ _ _ Hw Hex) as Hstep.
    destruct (step_tracks _ _ _ _ _ Hw Hst Hstep Hlog Htr) as (live1 & Hlog1 & Htr1).
    apply (IH w1 os' w2 live1); [by eapply step_wf|done..].
Qed.

(** X14.  Exactly-once destruction holds for every client that never
    move-constructs a container.  At every point of its run no object has
    been lost or destroyed twice, and the objects not yet destroyed are
    those in the slots below the size of a container alive; once all
    containers are gone, every object built was destroyed exactly once. *)
Theorem exactly_once_without_move_ctor prog os w :
  Forall no_move_ctor prog →
  run prog initial = Some (os, w) →
  ∃ live, lifetimes (log w) ∅ = Some live
          ∧ tracks live w
          ∧ (heap w = ∅ → exactly_once (log w)).
Proof.
  intros Hall Hrun.
  destruct (run_tracks prog initial os w ∅ wf_world_initial Hall Hrun)
    as (live & Hlog & Htr); [done| |].
  { intros a i. unfold initial, size_at. simpl. rewrite lookup_empty. simpl.
    split; [by intros ?%not_elem_of_empty|lia]. }
  exists live. split; [done|]. split; [done|]. intros Hempty.
  unfold exactly_once. rewrite Hlog. f_equal.
  apply elem_of_equiv_empty_L. intros [a i] Hin.
  apply Htr in Hin. rewrite Hempty in Hin. unfold size_at in Hin.
  rewrite lookup_empty in Hin. simpl in Hin. lia.
Qed.

Lemma destroy_live_app l1 : ∀ l2 live,
  destroy_live (l1 ++ l2) live = destroy_live l1 live ≫= destroy_live l2.
Proof.
  induction l1 as [|[p|p|a] l1 IH]; intros l2 live; simpl; [done|auto| |auto].
  case_decide; simpl; auto.
Qed.

Lemma covered_slots_off live f a : covered live f → f a = 0 → covered (slots_off a live) f.
Proof.
  intros Hc H0 b i Hi. unfold slots_off. rewrite elem_of_filter. simpl.
  split; [|by apply Hc]. intros ->. lia.
Qed.

Lemma destroy_live_constructed a m : ∀ k live,
  ∃ live', destroy_live (constructed a k m) live = Some live'
           ∧ ∀ b i, (b, i) ∈ live' ↔ (b, i) ∈ live ∨ (b = a ∧ k ≤ i < k + m).
Proof.
  induction m as [|m IH]; intros k live; simpl.
  - exists live. split; [done|]. intros b i. split; [by left|].
    intros [?|[_ ?]]; [done|lia].
  - destruct (IH (S k) ({[(a, k)]} ∪ live)) as (live' & Hrun & Hlive').
    exists live'. split; [done|]. intros b i.
    rewrite Hlive', elem_of_union, elem_of_singleton. split.
    + intros [[[= -> ->]|?]|[-> ?]]; [right|by left|right]; (split; [done|lia]).
    + intros [?|[-> Hi]]; [by left; right|].
      destruct (decide (i = k)) as [->|]; [by left; left|].
      right. split; [done|lia].
Qed.

Lemma destroy_live_destroyed a m : ∀ k live,
  (∀ i, k ≤ i < k + m → (a, i) ∈ live) →
  ∃ live', destroy_live (destroyed a k m) live = Some live'
           ∧ ∀ b i, (b, i) ∈ live' ↔ (b, i) ∈ live ∧ ¬ (b = a ∧ k ≤ i < k + m).
Proof.
  induction m as [|m IH]; intros k live Hk; simpl.
  - exists live. split; [done|]. intros b i. split; [|tauto].
    intros Hin. split; [done|lia].
  - rewrite decide_True by (apply Hk; lia).
    destruct (IH (S k) (live ∖ {[(a, k)]})) as (live' & Hrun & Hlive').
    { intros i Hi. rewrite elem_of_difference, elem_of_singleton.
      split; [apply Hk; lia|]. intros [= ->]. lia. }
    exists live'. split; [done|]. intros b i.
    rewrite Hlive', elem_of_difference, elem_of_singleton.
    split.
    + intros [[Hin Hne] Hout]. split; [done|]. intros [-> Hi].
      destruct (decide (i = k)) as [->|]; [done|]. apply Hout. split; [done|lia].
    + intros [Hin Hout]. split; [split; [done|]|].
      * intros [= -> ->]. apply Hout. split; [done|lia].
      * intros [-> Hi]. apply Hout. split; [done|lia].
Qed.

Lemma covered_le live f g : (∀ b, g b ≤ f b) → covered live f → covered live g.
Proof. intros Hle Hf b i Hi. apply Hf. specialize (Hle b). lia. Qed.

Lemma cover_constructed live f a k m :
  covered live f → f a = k →
  ∃ live', destroy_live (constructed a k m) live = Some live'
           ∧ covered live' (<[a := k + m]> f).
Proof.
  intros Hc Hk.
  destruct (destroy_live_constructed a m k live) as (live' & Hrun & Hlive').
  exists live'. split; [done|]. intros b i. rewrite Hlive'.
  destruct (decide (a = b)) as [<-|Hne].
  - rewrite fn_lookup_insert. intros Hi.
    destruct (decide (i < k)); [left; apply Hc; lia|right; split; [done|lia]].
  - rewrite fn_lookup_insert_ne by done. intros Hi. left. by apply Hc.
Qed.

Lemma cover_destroyed live f a k m :
  covered live f → f a = k + m →
  ∃ live', destroy_live (destroyed a k m) live = Some live'
           ∧ covered live' (<[a := k]> f).
Proof.
  intros Hc Hk.
  destruct (destroy_live_destroyed a m k live) as (live' & Hrun & Hlive').
  { intros i Hi. apply Hc. lia. }
  exists live'. split; [done|]. intros b i. rewrite Hlive'.
  destruct (decide (a = b)) as [<-|Hne].
  - rewrite fn_lookup_insert. intros Hi. split; [apply Hc; lia|]. intros [_ ?]. lia.
  - rewrite fn_lookup_insert_ne by done. intros Hi.
    split; [by apply Hc|]. intros [-> _]. done.
Qed.

Lemma step_covered st w o w' live :
  wf_world w →
  step st w o w' →
  destroy_live (log w) ∅ = Some live →
  covered live (size_at (heap w)) →
  ∃ live', destroy_live (log w') ∅ = Some live' ∧ covered live' (size_at (heap w')).
Proof.
  intros Hwf Hstep Hrun Hc.
  destruct Hstep; simpl log; simpl heap;
    rewrite ?destroy_live_app, ?Hrun; simpl; eauto.
  - exists live. split; [done|].
    eapply covered_le; [|exact Hc]. intros b. rewrite size_at_insert. simpl.
    destruct (decide (this = b)) as [<-|Hne].
    + rewrite fn_lookup_insert. lia.
    + by rewrite fn_lookup_insert_ne.
  - destruct (cover_constructed live _ this 0 (size_ so) Hc) as (live' & -> & Hc');
      [by apply size_at_None|].
    exists live'. split; [done|]. intros b i. rewrite size_at_insert. apply Hc'.
  - destruct (cover_constructed live _ this 0 (size_ so) Hc) as (live' & -> & Hc');
      [by apply size_at_None|].
    exists live'. split; [done|].
    eapply covered_le; [|exact Hc']. intros b.
    destruct (decide (other = b)) as [<-|Hne1];
      [|destruct (decide (this = b)) as [<-|Hne2]];
      repeat first [rewrite size_at_insert | rewrite fn_lookup_insert
                   | rewrite fn_lookup_insert_ne by done];
      simpl; lia.
  - rewrite destroy_live_app.
    destruct (cover_destroyed live _ this 0 (size_ st) Hc) as (l1 & -> & Hc1);
      [by apply size_at_Some|]. simpl.
    destruct (cover_constructed l1 _ this 0 (size_ so) Hc1) as (l2 & -> & Hc2);
      [by rewrite fn_lookup_insert|].
    exists l2. split; [done|]. intros b i. rewrite size_at_insert. simpl.
    intros Hi. apply Hc2.
    destruct (decide (this = b)) as [<-|Hne].
    + by rewrite !fn_lookup_insert in *.
    + by rewrite !fn_lookup_insert_ne in * by done.
  - rewrite destroy_live_app.
    destruct (cover_destroyed live _ this 0 (size_ st) Hc) as (l1 & -> & Hc1);
      [by apply size_at_Some|]. simpl. rewrite destroy_live_app.
    destruct (cover_constructed l1 _ this 0 (size_ so) Hc1) as (l2 & -> & Hc2);
      [by rewrite fn_lookup_insert|]. simpl.
    destruct (cover_destroyed l2 _ other 0 (size_ so) Hc2) as (l3 & -> & Hc3).
    { rewrite !fn_lookup_insert_ne by done. by apply size_at_Some. }
    exists l3. split; [done|]. intros b i Hi. apply Hc3. revert Hi.
    destruct (decide (other = b)) as [<-|Hne1];
      [|destruct (decide (this = b)) as [<-|Hne2]];
      repeat first [rewrite size_at_insert | rewrite fn_lookup_insert
                   | rewrite fn_lookup_insert_ne by done];
      done.
  - rewrite destroy_live_app.
    destruct (cover_destroyed live _ this 0 (size_ s) Hc) as (l1 & -> & Hc1);
      [by apply size_at_Some|]. simpl.
    eexists. split; [done|]. intros b i. rewrite size_at_delete.
    apply covered_slots_off; [done|by rewrite fn_lookup_insert].
  - destruct (call_effect_events _ _ _ _ _ _ H0) as [(m & -> & Hm)|(m & -> & Hm)].
    + destruct (cover_constructed live _ this (size_ s) m Hc) as (l1 & -> & Hc1);
        [by apply size_at_Some|].
      exists l1. split; [done|]. intros b i. rewrite size_at_insert, Hm. apply Hc1.
    + destruct (cover_destroyed live _ this (size_ s') m Hc) as (l1 & -> & Hc1);
        [by rewrite (size_at_Some _ _ _ H)|].
      exists l1. split; [done|]. intros b i. rewrite size_at_insert. apply Hc1.
Qed.

Lemma run_covered prog : ∀ w os w' live,
  wf_world w →
  run prog w = Some (os, w') →
  destroy_live (log w) ∅ = Some live →
  covered live (size_at (heap w)) →
  ∃ live', destroy_live (log w') ∅ = Some live' ∧ covered live' (size_at (heap w')).
Proof.
  induction prog as [|st prog IH]; intros w os w' live Hw Hrun Hlog Hc;
    simpl in Hrun.
  - injection Hrun as <- <-. eauto.
  - unfold bind in Hrun.
    destruct (exec st w) as [[o w1]|] eqn:Hex; [|done].
    destruct (run prog w1) as [[os' w2]|] eqn:Hrest; [|done].
    injection Hrun as <- <-.
    pose proof (exec_step _ _ _ _ Hw Hex) as Hstep.
    destruct (step_covered _ _ _ _ _ Hw Hstep Hlog Hc) as (live1 & Hlog1 & Hc1).
    apply (IH w1 os' w2 live1); [by eapply step_wf|done..].
Qed.

(** X15.  No client, move construction included, ever has a destructor
    run on an object that was already destroyed or on a slot that holds
    none. *)
Theorem never_destroyed_twice prog os w :
  run prog initial = Some (os, w) → never_twice (log w).
Proof.
  intros Hrun.
  destruct (run_covered prog initial os w ∅ wf_world_initial Hrun)
    as (live & Hlog & _); [done| |].
  - intros b i. unfold initial, size_at. simpl. rewrite lookup_empty. simpl. lia.
  - unfold never_twice. by rewrite Hlog.
Qed.

(** ** Iteration *)

Lemma end_eq w this s :
  heap w !! this = Some s → end_ this w = Some ((this, size_ s), w).
Proof.
  intros H. unfold end_, bind. by rewrite (get_size_eq _ _ _ H).
Qed.

Lemma visit_eq w this s n : ∀ k fuel,
  heap w !! this = Some s → wf s →
  k + n = size_ s → n ≤ fuel →
  visit fuel (this, k) (this, size_ s) w = Some (drop k (contents s), w).
Proof.
  induction n as [|n IH]; intros k fuel H Hwf Hk Hfuel.
  - rewrite drop_ge by (rewrite length_contents by done; lia).
    replace k with (size_ s) by lia.
    destruct fuel; simpl; by rewrite decide_True.
  - destruct fuel as [|fuel]; [lia|]. simpl.
    rewrite decide_False by (intros [= ?]; lia).
    assert (Hlt : k < size_ s) by lia.
    destruct (lookup_lt_is_Some_2 (contents s) k) as [x Hx];
      [rewrite length_contents by done; lia|].
    pose proof (lookup_contents _ _ Hwf Hlt) as Hslot. rewrite Hx in Hslot.
    rewrite (bind_eq _ _ _ _ _ (read_eq _ _ _ _ _ H Hslot)).
    rewrite ptr_add_pair, Nat.add_1_r.
    rewrite (bind_eq _ _ _ _ _ (IH (S k) fuel H Hwf ltac:(lia) ltac:(lia))).
    by rewrite (drop_S _ _ _ Hx).
Qed.

Lemma reverse_visit_eq w this s n : ∀ fuel,
  heap w !! this = Some s → wf s →
  n ≤ size_ s → n ≤ fuel →
  reverse_visit fuel (ReverseIterator (this, n)) (ReverseIterator (this, 0)) w
  = Some (reverse (take n (contents s)), w).
Proof.
  induction n as [|n IH]; intros fuel H Hwf Hn Hfuel.
  - destruct fuel; simpl; by rewrite decide_True.
  - destruct fuel as [|fuel]; [lia|]. simpl.
    rewrite decide_False by (intros [= ?]).
    assert (Hlt : n < size_ s) by lia.
    destruct (lookup_lt_is_Some_2 (contents s) n) as [x Hx];
      [rewrite length_contents by done; lia|].
    pose proof (lookup_contents _ _ Hwf Hlt) as Hslot. rewrite Hx in Hslot.
    unfold reverse_deref, reverse_incr. simpl.
    rewrite Nat.sub_0_r.
    rewrite (bind_eq _ _ _ _ _ (read_eq _ _ _ _ _ H Hslot)).
    unfold bind at 1. unfold ret at 1.
    rewrite (bind_eq _ _ _ _ _ (IH fuel H Hwf ltac:(lia) ltac:(lia))).
    by rewrite (take_S_r _ _ _ Hx), reverse_snoc.
Qed.

Lemma range_for_eq w this s fuel :
  heap w !! this = Some s → wf s → size_ s ≤ fuel →
  range_for fuel this w = Some (contents s, w).
Proof.
  intros H Hwf Hfuel. unfold range_for, bind. rewrite (end_eq _ _ _ H).
  unfold begin, data. by rewrite (visit_eq w this s (size_ s) 0 fuel H Hwf).
Qed.

Lemma reverse_range_eq w this s fuel :
  heap w !! this = Some s → wf s → size_ s ≤ fuel →
  reverse_range fuel this w = Some (reverse (contents s), w).
Proof.
  intros H Hwf Hfuel. unfold reverse_range, rbegin, rend, bind.
  rewrite (end_eq _ _ _ H). unfold ret at 1 2. unfold begin, data.
  rewrite (reverse_visit_eq w this s (size_ s) fuel H Hwf) by lia.
  by rewrite take_ge by (rewrite length_contents by done; lia).
Qed.

(** X1.  Forward iteration.  The range-based loop over a container, from
    [begin()] to [end()] (or from [cbegin()] to [cend()]), reads exactly the
    live elements, slot 0 first and slot [size() - 1] last, as many as
    [size()], once the loop is given at least [size()] rounds; it changes
    nothing. *)
Theorem forward_iteration_contract w this s fuel :
  heap w !! this = Some s →
  wf s →
  size_ s ≤ fuel →
  range_for fuel this w = Some (contents s, w)
  ∧ (last <- cend this;; visit fuel (cbegin this) last) w = Some (contents s, w)
  ∧ length (contents s) = size_ s
  ∧ ∀ i, i < size_ s → storage_ s !! i = Some <$> contents s !! i.
Proof.
  intros H Hwf Hfuel.
  pose proof (range_for_eq w this s fuel H Hwf Hfuel) as Hrun.
  split; [done|]. split; [exact Hrun|].
  split; [by apply length_contents|]. intros i Hi. by apply lookup_contents.
Qed.

(** X2.  Reverse iteration.  The loop from [rbegin()] to [rend()] (or from
    [crbegin()] to [crend()]) reads exactly the live elements in the
    opposite order, slot [size() - 1] first and slot 0 last, once it is
    given at least [size()] rounds; it changes nothing.  So it reads what
    the forward loop reads, reversed. *)
Theorem reverse_iteration_contract w this s fuel :
  heap w !! this = Some s →
  wf s →
  size_ s ≤ fuel →
  reverse_range fuel this w = Some (reverse (contents s), w)
  ∧ (first <- crbegin this;; last <- crend this;; reverse_visit fuel first last) w
    = Some (reverse (contents s), w)
  ∧ (xs <- range_for fuel this;; ys <- reverse_range fuel this;; ret (xs, ys)) w
    = Some ((contents s, reverse (contents s)), w).
Proof.
  intros H Hwf Hfuel.
  pose proof (reverse_range_eq w this s fuel H Hwf Hfuel) as Hrun.
  split; [done|]. split; [exact Hrun|].
  unfold bind at 1. rewrite (range_for_eq w this s fuel H Hwf Hfuel).
  unfold bind at 1. by rewrite Hrun.
Qed.

(** ** Construction and destruction *)

(** X3.  Default construction.  [static_vector()] at a free address builds
    no element and touches no other container.  The new container has
    size zero and is empty, reports the capacity [Capacity], answers every
    checked access with null and [pop_back] with [Empty]; its two loops
    read nothing. *)
Theorem default_construction_contract w this :
  heap w !! this = None →
  ∃ w', static_vector_ctor this w = Some (tt, w')
        ∧ log w' = log w
        ∧ (∀ a, a ≠ this → heap w' !! a = heap w !! a)
        ∧ size this w' = Some (0, w')
        ∧ empty this w' = Some (true, w')
        ∧ capacity this w' = Some (Capacity, w')
        ∧ (∀ k, at_if this k w' = Some (None, w'))
        ∧ front_if this w' = Some (None, w')
        ∧ back_if this w' = Some (None, w')
        ∧ pop_back this w' = Some (Empty, w')
        ∧ (∀ fuel, range_for fuel this w' = Some ([], w')
                   ∧ reverse_range fuel this w' = Some ([], w')).
Proof.
  intros Hfree. eexists. split; [by apply static_vector_ctor_eq|].
  set (fresh := StaticVector (replicate Capacity None) 0).
  set (w' := World (<[this := fresh]> (heap w)) (log w)).
  assert (H : heap w' !! this = Some fresh) by apply lookup_insert_eq.
  split; [done|]. split; [intros a Ha; simpl; by rewrite lookup_insert_ne|].
  unfold size, empty, capacity, at_if, front_if, back_if, bind.
  rewrite (get_size_eq _ _ _ H), (load_eq _ _ _ H). simpl.
  split; [done|]. split; [done|]. split; [done|]. split; [done|].
  split; [done|]. split; [done|].
  split; [by apply (pop_back_empty _ _ _ H)|].
  intros fuel.
  rewrite (range_for_eq w' this fresh fuel H wf_fresh) by (simpl; lia).
  by rewrite (reverse_range_eq w' this fresh fuel H wf_fresh) by (simpl; lia).
Qed.

(** X4.  Destruction.  [~static_vector()] runs the destructor of every
    live element, slots [0] to [size() - 1] in increasing order, and then
    gives the storage back; the container is gone, so that any further
    member call on it is undefined, and no other container is touched. *)
Theorem destruction_contract w this s :
  heap w !! this = Some s →
  wf s →
  ∃ w', static_vector_dtor this w = Some (tt, w')
        ∧ log w' = log w ++ ((λ k, Destroy (this, k)) <$> seq 0 (size_ s))
                         ++ [Release this]
        ∧ heap w' !! this = None
        ∧ (∀ a, a ≠ this → heap w' !! a = heap w !! a)
        ∧ (∀ c, do_call this c w' = None).
Proof.
  intros H [Hlen Hsz _]. eexists.
  split; [apply (static_vector_dtor_eq _ _ _ H); lia|]. simpl.
  split; [done|]. split; [apply lookup_delete_eq|].
  split; [intros a Ha; by rewrite lookup_delete_ne|].
  intros c. apply do_call_dangling. simpl. apply lookup_delete_eq.
Qed.

(** X5.  Lifetime events of copying.  The copy constructor builds one
    element per element of its argument, in index order, and destroys
    nothing.  Copy assignment between distinct containers first destroys
    every live element of the destination, in index order, and then builds
    the copies; slots of the destination from the new size on hold no
    element of its old contents. *)
Theorem copy_lifetime_events w c sc copy :
  wf_world w →
  heap w !! c = Some sc →
  copy ≠ c →
  (heap w !! copy = None →
   ∃ w', static_vector_copy_ctor copy c w = Some (tt, w')
         ∧ log w' = log w ++ ((λ k, Construct (copy, k)) <$> seq 0 (size_ sc)))
  ∧ (∀ st, heap w !! copy = Some st →
     ∃ w' s', operator_assign_copy copy c w = Some (tt, w')
              ∧ log w' = log w ++ ((λ k, Destroy (copy, k)) <$> seq 0 (size_ st))
                               ++ ((λ k, Construct (copy, k)) <$> seq 0 (size_ sc))
              ∧ heap w' !! copy = Some s'
              ∧ (∀ i, size_ sc ≤ i < size_ st → storage_ s' !! i = Some None)
              ∧ (∀ a, a ≠ copy → heap w' !! a = heap w !! a)).
Proof.
  intros Hw Hc Hne. pose proof (Hw _ _ Hc) as Hwf. split.
  - intros Hfree. eexists. by split; [apply static_vector_copy_ctor_eq|].
  - intros st Hst. pose proof (Hw _ _ Hst) as Hwft.
    eexists _, (copy_assigned st sc).
    split; [by apply operator_assign_copy_eq|]. simpl.
    split; [done|]. split; [apply lookup_insert_eq|].
    split; [|intros a Ha; by rewrite lookup_insert_ne].
    intros i Hi. pose proof (length_contents _ Hwf) as Hlc.
    destruct (wf_cleared _ Hwft) as [Hlcl _ _]. destruct Hwft as [Hlt Hst' _].
    rewrite lookup_overwrite_ge by (rewrite ?length_fmap; lia).
    simpl. rewrite <- (Nat.add_0_l i) at 1.
    rewrite lookup_overwrite_mid by (rewrite ?length_replicate; lia).
    apply lookup_replicate_2. lia.
Qed.

(** ** Pushes and pops together *)

(** X6.  Push then pop.  On a container with room, a push of any form,
    given arguments whose references name live objects, followed by
    [pop_back] returns [NoError] twice and brings the size back, and the
    object that the push built is the one that [pop_back] destroys.  Every
    slot of every container is as before, except the slot used, which is
    left without an object, and the slot of an element passed as an rvalue,
    which is left in its moved-from state; no container changes its
    size. *)
Theorem push_pop_round_trip w this s c x :
  heap w !! this = Some s →
  wf s →
  size_ s < Capacity →
  built w (forwarded c) = Some x →
  ∃ w' s', (r1 <- do_push this c;; r2 <- pop_back this;; ret (r1, r2)) w
           = Some ((NoError, NoError), w')
           ∧ heap w' !! this = Some s'
           ∧ size_ s' = size_ s
           ∧ (∀ i, i ≠ size_ s → forwarded c ≠ Rvalue (Element (this, i)) →
                   storage_ s' !! i = storage_ s !! i)
           ∧ storage_ s' !! size_ s = Some None
           ∧ log w' = log w ++ [Construct (this, size_ s); Destroy (this, size_ s)]
           ∧ (∀ a, a ≠ this → (∀ i, forwarded c ≠ Rvalue (Element (a, i))) →
                   heap w' !! a = heap w !! a)
           ∧ (∀ p y, forwarded c = Rvalue (Element p) →
                     slot (heap w) p = Some (Some y) →
                     slot (heap w') p = Some (Some (move_construct y).2))
           ∧ (∀ p, p ≠ (this, size_ s) → forwarded c ≠ Rvalue (Element p) →
                   slot (heap w') p = slot (heap w) p)
           ∧ (∀ a, size_ <$> heap w' !! a = size_ <$> heap w !! a).
Proof.
  intros H Hwf Hlt Hx. pose proof Hwf as [Hlen Hsz _].
  destruct (do_push_room w this s c x H Hlen Hlt Hx)
    as (s0 & Hs0 & Hsz0 & Hlen0 & Hrun).
  unfold bind. rewrite Hrun.
  erewrite pop_back_nonempty;
    [|simpl; apply lookup_insert_eq|simpl; rewrite length_insert; lia|simpl; lia].
  simpl. rewrite Nat.sub_0_r, insert_insert_eq, <- app_assoc, Hsz0. simpl.
  remember (passed (forwarded c) (heap w)) as h eqn:Hh.
  remember (shrunk (grown s0 x)) as s' eqn:Hs'.
  assert (Hsize : size_ s' = size_ s).
  { subst s'. simpl. lia. }
  assert (Hst : ∀ i, i ≠ size_ s → storage_ s' !! i = storage_ s0 !! i).
  { intros i Hi. subst s'. simpl. rewrite Nat.sub_0_r, Hsz0.
    by rewrite !list_lookup_insert_ne. }
  assert (Hslot : ∀ p, p ≠ (this, size_ s) → slot (<[this := s']> h) p = slot h p).
  { intros [a i] Hp. unfold slot. simpl.
    destruct (decide (a = this)) as [->|Hne]; [|by rewrite lookup_insert_ne].
    rewrite lookup_insert_eq, Hs0. simpl. apply Hst. congruence. }
  assert (Hmoved : ∀ p, forwarded c = Rvalue (Element p) → p ≠ (this, size_ s)).
  { intros [a i] Heq [= -> ->]. rewrite Heq in Hx. simpl in Hx.
    apply fmap_Some in Hx as (z & Hz & _).
    apply referent_Element in Hz as (s1 & Hs1 & Hi & _).
    rewrite H in Hs1. injection Hs1 as <-. lia. }
  eexists _, s'. split; [done|]. cbn [heap log].
  split; [apply lookup_insert_eq|].
  split; [done|].
  split.
  { intros i Hi Hne. rewrite (Hst i Hi).
    pose proof (slot_passed_ne (forwarded c) (heap w) (this, i) Hne) as Hp.
    unfold slot in Hp. simpl in Hp. rewrite <- Hh, Hs0, H in Hp.
    exact Hp. }
  split.
  { subst s'. simpl. rewrite Nat.sub_0_r, Hsz0. apply list_lookup_insert_eq.
    rewrite length_insert. lia. }
  split; [done|].
  split.
  { intros a Ha Hne. rewrite lookup_insert_ne by done.
    subst h. by apply passed_lookup_ne. }
  split.
  { intros p y Heq Hy. rewrite (Hslot p (Hmoved p Heq)).
    subst h. rewrite Heq. by apply slot_passed_eq. }
  split.
  { intros p Hp Hne. rewrite (Hslot p Hp). subst h. by apply slot_passed_ne. }
  intros a. destruct (decide (a = this)) as [->|Hne].
  - rewrite lookup_insert_eq, H. simpl. by rewrite Hsize.
  - rewrite lookup_insert_ne by done. subst h. apply size_passed.
Qed.

(** X7.  A pushed element is the back.  After a successful push of any
    form, [back_if()] and [at_if] at the old size both point to the slot of
    the new element, which reads as the pushed value; [front_if()] still
    points to slot 0; and [at_if] one further is null. *)
Theorem pushed_element_is_back f w this s x :
  heap w !! this = Some s →
  wf s →
  size_ s < Capacity →
  ∃ w', push f this x w = Some (NoError, w')
        ∧ do_call this CBackIf w'
          = Some (OPtr (Some (this, size_ s)) (Some (pushed f x)), w')
        ∧ do_call this (CAtIf (size_ s)) w'
          = Some (OPtr (Some (this, size_ s)) (Some (pushed f x)), w')
        ∧ do_call this (CGet (size_ s)) w' = Some (OElem (pushed f x), w')
        ∧ (∃ y, do_call this CFrontIf w' = Some (OPtr (Some (this, 0)) (Some y), w'))
        ∧ do_call this (CAtIf (S (size_ s))) w' = Some (OPtr None None, w')
        ∧ do_call this CEmpty w' = Some (OBool false, w').
Proof.
  intros H Hwf Hlt. pose proof Hwf as [Hlen Hsz Hlive].
  eexists. split; [by apply push_room|].
  set (s' := grown s (pushed f x)).
  set (w' := World (<[this := s']> (heap w)) (log w ++ [Construct (this, size_ s)])).
  assert (H' : heap w' !! this = Some s') by apply lookup_insert_eq.
  assert (Hwf' : wf s') by (by apply wf_grown).
  assert (Hnew : <[size_ s := Some (pushed f x)]> (storage_ s) !! size_ s
                 = Some (Some (pushed f x))).
  { apply list_lookup_insert_eq. lia. }
  pose proof (world_same _ _ _ H') as Hsame.
  rewrite !(do_call_eq _ _ _ _ H' Hwf'). simpl.
  rewrite Nat.sub_0_r, Hnew.
  rewrite !decide_True by lia. rewrite decide_False by lia. simpl.
  simpl in Hsame. rewrite Hsame.
  split; [done|]. split; [done|]. split; [done|].
  split; [|done].
  destruct (wf_live _ Hwf' 0) as [y Hy]; [simpl; lia|]. exists y.
  simpl in Hy. rewrite Hy. simpl. by rewrite Hsame.
Qed.

(** X8.  Reserved result codes.  No push returns anything but [NoError]
    or [OutOfSpace], and [pop_back] returns nothing but [NoError] or
    [Empty], in any world whatever: [OutOfRange] and
    [CannotDefaultConstruct] are never produced. *)
Theorem reserved_codes_never_returned w this :
  (∀ f x r w', push f this x w = Some (r, w') → r = NoError ∨ r = OutOfSpace)
  ∧ (∀ r w', pop_back this w = Some (r, w') → r = NoError ∨ r = Empty).
Proof.
  split.
  - intros f x r w' Hrun.
    destruct f; simpl in Hrun;
      unfold emplace_back, push_back, push_back_move, bind, get_size, bind, load, ret
        in Hrun;
      destruct (heap w !! this) as [s|]; try done;
      case_decide; [injection Hrun as <- <-; by right| |
                    injection Hrun as <- <-; by right| |
                    injection Hrun as <- <-; by right|];
      repeat case_match; simplify_eq; by left.
  - intros r w' Hrun.
    unfold pop_back, bind, get_size, bind, load, ret in Hrun.
    destruct (heap w !! this) as [s|]; [|done].
    case_decide; [injection Hrun as <- <-; by right|].
    repeat case_match; simplify_eq; by left.
Qed.

(** ** Unchecked access *)

(** X9.  Writing and reading through [operator[]].  For an index below
    the size, [v[pos] = x] succeeds without any constructor or destructor
    call; [v[pos]] then reads [x], every other element reads as before, and
    the size is unchanged. *)
Theorem subscript_write_read w this s pos x :
  heap w !! this = Some s →
  wf s →
  pos < size_ s →
  ∃ w', do_call this (CSet pos x) w = Some (OUnit, w')
        ∧ log w' = log w
        ∧ do_call this (CGet pos) w' = Some (OElem x, w')
        ∧ (∀ q y, q ≠ pos → do_call this (CGet q) w = Some (OElem y, w) →
                  do_call this (CGet q) w' = Some (OElem y, w'))
        ∧ size this w' = Some (size_ s, w')
        ∧ (∀ a, a ≠ this → heap w' !! a = heap w !! a).
Proof.
  intros H Hwf Hpos. pose proof Hwf as [Hlen Hsz Hlive].
  destruct (Hlive pos Hpos) as [y Hy].
  rewrite (do_call_eq _ _ _ _ H Hwf). simpl. rewrite Hy. simpl.
  rewrite app_nil_r. eexists. split; [done|]. simpl. split; [done|].
  set (s' := StaticVector (<[pos := Some x]> (storage_ s)) (size_ s)).
  set (w' := World (<[this := s']> (heap w)) (log w)).
  assert (H' : heap w' !! this = Some s') by apply lookup_insert_eq.
  assert (Hwf' : wf s') by (by eapply wf_assigned).
  split; [|split; [|split]].
  - apply (do_call_get _ _ _ s'); [done..|].
    simpl. apply list_lookup_insert_eq. lia.
  - intros q z Hq Hget.
    change (do_call this (CGet q) w = Some (OElem z, w)) in Hget.
    rewrite (do_call_eq _ _ _ _ H Hwf) in Hget.
    simpl in Hget. destruct (storage_ s !! q) as [[z'|]|] eqn:Hz; try done.
    simpl in Hget. injection Hget as ->.
    apply (do_call_get _ _ _ s'); [done..|].
    simpl. by rewrite list_lookup_insert_ne.
  - unfold size. by rewrite (get_size_eq _ _ _ H').
  - intros a Ha. simpl. by rewrite lookup_insert_ne.
Qed.

(** ** The loops of the benchmarks *)

Lemma contents_grown s x :
  wf s → size_ s < Capacity → contents (grown s x) = contents s ++ [x].
Proof.
  intros [Hlen Hsz _] Hlt. unfold contents. simpl.
  rewrite (take_S_r _ _ (Some x)) by (apply list_lookup_insert_eq; lia).
  rewrite take_insert_ge by lia. by rewrite omap_app.
Qed.

Lemma contents_fresh : contents (StaticVector (replicate Capacity None) 0) = [].
Proof. done. Qed.

Lemma push_back_all_eq this items : ∀ w s,
  heap w !! this = Some s → wf s →
  ∃ s', push_back_all this items w
        = Some (tt, World (<[this := s']> (heap w))
                          (log w ++ constructed this (size_ s) (size_ s' - size_ s)))
        ∧ wf s'
        ∧ size_ s' = (size_ s + length items) `min` Capacity
        ∧ contents s' = contents s ++ take (Capacity - size_ s) (copy_construct <$> items).
Proof.
  induction items as [|x items IH]; intros w s H Hwf; pose proof Hwf as [Hlen Hsz _];
    simpl.
  - exists s. rewrite Nat.sub_diag. unfold constructed. simpl.
    rewrite (world_same _ _ _ H), take_nil, app_nil_r.
    split; [done|]. split; [done|]. split; [lia|done].
  - unfold bind. destruct (decide (size_ s < Capacity)) as [Hlt|Hge].
    + rewrite (push_back_room _ _ _ _ H Hlen Hlt).
      destruct (IH (World (<[this := grown s (copy_construct x)]> (heap w))
                          (log w ++ [Construct (this, size_ s)]))
                   (grown s (copy_construct x)))
        as (s' & Hrun & Hwf' & Hsz' & Hc'); [apply lookup_insert_eq|by apply wf_grown|].
      unfold grown in Hrun, Hsz'. cbn [size_ heap log] in Hrun, Hsz'.
      fold (grown s (copy_construct x)) in Hrun.
      exists s'. rewrite Hrun. rewrite insert_insert_eq, <- app_assoc.
      split; [|split; [done|split; [lia|]]].
      * do 3 f_equal. replace (size_ s' - size_ s) with (S (size_ s' - S (size_ s))) by lia.
        done.
      * rewrite Hc', (contents_grown _ _ Hwf Hlt), <- app_assoc. simpl.
        by replace (Capacity - size_ s) with (S (Capacity - S (size_ s))) by lia.
    + rewrite (push_back_full _ _ _ _ H) by lia.
      destruct (IH w s H Hwf) as (s' & Hrun & Hwf' & Hsz' & Hc').
      exists s'. rewrite Hrun. split; [done|]. split; [done|]. split; [lia|].
      rewrite Hc'. by replace (Capacity - size_ s) with 0 by lia.
Qed.

Lemma empty_eq w this s :
  heap w !! this = Some s → empty this w = Some (bool_decide (size_ s = 0), w).
Proof. intros H. unfold empty, bind. by rewrite (get_size_eq _ _ _ H). Qed.

Lemma cleared_shrunk s : wf s → 0 < size_ s → cleared (shrunk s) = cleared s.
Proof.
  intros [Hlen Hsz _] Hpos. unfold cleared, shrunk. simpl. f_equal.
  apply list_eq. intros i.
  destruct (decide (i < size_ s - 1)) as [Hlt|Hge].
  - rewrite <- (Nat.add_0_l i).
    rewrite !lookup_overwrite_mid by (rewrite ?length_replicate, ?length_insert; lia).
    by rewrite !lookup_replicate_2 by lia.
  - rewrite lookup_overwrite_ge by (rewrite ?length_replicate, ?length_insert; lia).
    destruct (decide (i = size_ s - 1)) as [->|Hne].
    + rewrite list_lookup_insert_eq by lia.
      rewrite <- (Nat.add_0_l (size_ s - 1)).
      rewrite lookup_overwrite_mid by (rewrite ?length_replicate; lia).
      by rewrite lookup_replicate_2 by lia.
    + rewrite list_lookup_insert_ne by done.
      by rewrite lookup_overwrite_ge by (rewrite ?length_replicate; lia).
Qed.

Lemma pop_back_all_eq this fuel : ∀ w s,
  heap w !! this = Some s → wf s → size_ s ≤ fuel →
  pop_back_all fuel this w
  = Some (tt, World (<[this := cleared s]> (heap w))
                    (log w ++ reverse (destroyed this 0 (size_ s)))).
Proof.
  assert (Hdone : ∀ w s, heap w !! this = Some s → size_ s = 0 →
            Some (tt, w) = Some (tt, World (<[this := cleared s]> (heap w))
                                           (log w ++ reverse (destroyed this 0 (size_ s))))).
  { intros w s H H0. rewrite (cleared_empty _ H0), H0. unfold destroyed. simpl.
    change (reverse (@nil event)) with (@nil event).
    by rewrite (world_same _ _ _ H). }
  induction fuel as [|fuel IH]; intros w s H Hwf Hfuel; simpl; unfold bind;
    rewrite (empty_eq _ _ _ H); simpl.
  - rewrite bool_decide_eq_true_2 by lia. apply Hdone; [done|lia].
  - destruct (decide (size_ s = 0)) as [H0|Hpos].
    + rewrite bool_decide_eq_true_2 by done. by apply Hdone.
    + rewrite bool_decide_eq_false_2 by done.
      pose proof Hwf as [Hlen Hsz _].
      rewrite (pop_back_nonempty _ _ _ H) by lia.
      rewrite (IH _ (shrunk s)); [|apply lookup_insert_eq|by apply wf_shrunk|simpl; lia].
      simpl. rewrite insert_insert_eq, (cleared_shrunk _ Hwf) by lia.
      do 3 f_equal. rewrite <- app_assoc. f_equal.
      destruct (size_ s) as [|n]; [done|]. simpl. rewrite Nat.sub_0_r.
      unfold destroyed. rewrite seq_S, fmap_app, reverse_app. done.
Qed.

(** X10.  The fill loop.  Pushing a list of items one by one, return
    codes dropped, never fails: the container takes copies of the items
    that fit, in order, after its own elements, and the items past the
    capacity are dropped; its size becomes [min (size + length items)
    Capacity], and exactly one element is built per item taken, in the
    slots from the old size on. *)
Theorem fill_loop_contract w this s items :
  heap w !! this = Some s →
  wf s →
  ∃ w' s', push_back_all this items w = Some (tt, w')
           ∧ heap w' !! this = Some s'
           ∧ size this w' = Some ((size_ s + length items) `min` Capacity, w')
           ∧ contents s' = contents s ++ take (Capacity - size_ s) (copy_construct <$> items)
           ∧ log w' = log w ++ ((λ k, Construct (this, k))
                                <$> seq (size_ s) (length items `min` (Capacity - size_ s)))
           ∧ (∀ a, a ≠ this → heap w' !! a = heap w !! a).
Proof.
  intros H Hwf. destruct (push_back_all_eq this items w s H Hwf)
    as (s' & Hrun & Hwf' & Hsz' & Hc').
  eexists _, s'. split; [exact Hrun|]. simpl.
  assert (H' : <[this := s']> (heap w) !! this = Some s') by apply lookup_insert_eq.
  split; [done|]. unfold size. erewrite get_size_eq by exact H'. rewrite Hsz'.
  split; [done|]. split; [done|]. destruct Hwf as [_ Hsz _].
  split; [|intros a Ha; by rewrite lookup_insert_ne].
  unfold constructed. do 3 f_equal. lia.
Qed.

(** X11.  The [pop_back] loop.  [while (!v.empty()) v.pop_back();] ends
    after [size()] rounds with the container empty.  It runs the destructor
    of every live element once, slot [size() - 1] first and slot 0 last,
    the reverse of the order of [clear()], and leaves the container in the
    very state [clear()] leaves it in. *)
Theorem pop_back_loop_contract w this s fuel :
  heap w !! this = Some s →
  wf s →
  size_ s ≤ fuel →
  ∃ w', pop_back_all fuel this w = Some (tt, w')
        ∧ log w' = log w ++ ((λ k, Destroy (this, k)) <$> reverse (seq 0 (size_ s)))
        ∧ size this w' = Some (0, w')
        ∧ empty this w' = Some (true, w')
        ∧ ∃ l', clear this w = Some (tt, World (heap w') l').
Proof.
  intros H Hwf Hfuel. pose proof Hwf as [Hlen Hsz _].
  eexists. split; [by apply pop_back_all_eq|]. simpl.
  split; [by rewrite fmap_reverse|].
  unfold size. erewrite get_size_eq by (simpl; apply lookup_insert_eq).
  erewrite empty_eq by (simpl; apply lookup_insert_eq). simpl.
  split; [done|]. split; [done|].
  eexists. apply (clear_eq _ _ _ H). lia.
Qed.

(** X12.  Filling, then reading.  A container default-constructed and
    filled with a list of at most [Capacity] items has the length of the
    list as its size; [v[i]] and [at_if(i)] read the copy of item [i] for
    every [i] below that, in whatever order the indices come; the forward
    loop reads the copies in the order of the list and the reverse loop in
    the opposite order. *)
Theorem fill_then_read w this items :
  heap w !! this = None →
  length items ≤ Capacity →
  ∃ w', (static_vector_ctor this;;; push_back_all this items) w = Some (tt, w')
        ∧ size this w' = Some (length items, w')
        ∧ (∀ i x, items !! i = Some x →
                  do_call this (CGet i) w' = Some (OElem (copy_construct x), w')
                  ∧ do_call this (CAtIf i) w'
                    = Some (OPtr (Some (this, i)) (Some (copy_construct x)), w'))
        ∧ (∀ fuel, length items ≤ fuel →
                   range_for fuel this w' = Some (copy_construct <$> items, w')
                   ∧ reverse_range fuel this w'
                     = Some (reverse (copy_construct <$> items), w')).
Proof.
  intros Hfree Hlen. unfold bind at 1. rewrite (static_vector_ctor_eq _ _ Hfree).
  set (fresh := StaticVector (replicate Capacity None) 0).
  destruct (push_back_all_eq this items (World (<[this := fresh]> (heap w)) (log w)) fresh)
    as (s' & Hrun & Hwf' & Hsz' & Hc'); [apply lookup_insert_eq|apply wf_fresh|].
  rewrite Hrun. eexists. split; [done|].
  match goal with |- context [size this ?w0] => set (w' := w0) end.
  assert (H' : heap w' !! this = Some s') by apply lookup_insert_eq.
  simpl in Hsz', Hc'. rewrite Nat.sub_0_r in Hc'.
  rewrite take_ge in Hc' by (rewrite length_fmap; lia).
  assert (Hsize : size_ s' = length items) by lia.
  unfold size. rewrite (get_size_eq _ _ _ H'), Hsize. split; [done|]. split.
  - intros i x Hx.
    assert (Hi : i < size_ s') by (rewrite Hsize; by eapply lookup_lt_Some).
    assert (Hslot : storage_ s' !! i = Some (Some (copy_construct x))).
    { by rewrite (lookup_contents _ _ Hwf' Hi), Hc', list_lookup_fmap, Hx. }
    split; [by apply (do_call_get _ _ _ s')|].
    rewrite (do_call_eq _ _ _ _ H' Hwf'). simpl.
    rewrite decide_True by done. rewrite Hslot. simpl.
    by rewrite insert_insert_eq, app_nil_r.
  - intros fuel Hfuel.
    rewrite (range_for_eq w' this s' fuel H' Hwf') by lia.
    rewrite (reverse_range_eq w' this s' fuel H' Hwf') by lia.
    by rewrite Hc'.
Qed.

(** X13.  Rounds of the benchmarks.  One round of [BM_Construction]
    (declare, fill, leave the scope) and one round of [BM_PopBack]
    (declare, fill, pop until empty, leave the scope) run to the end for
    any list of items, leave the containers of the world as they were, and
    destroy exactly the [min (length items) Capacity] elements they built
    before the storage is given back: in slot order in the first, by the
    [pop_back] loop in reverse slot order in the second. *)
Theorem benchmark_rounds_balanced w this items :
  heap w !! this = None →
  let n := length items `min` Capacity in
  (∃ w', BM_Construction this items w = Some (tt, w')
         ∧ heap w' = heap w
         ∧ log w' = log w ++ ((λ k, Construct (this, k)) <$> seq 0 n)
                          ++ ((λ k, Destroy (this, k)) <$> seq 0 n)
                          ++ [Release this])
  ∧ (∀ fuel, n ≤ fuel →
     ∃ w', BM_PopBack fuel this items w = Some (tt, w')
           ∧ heap w' = heap w
           ∧ log w' = log w ++ ((λ k, Construct (this, k)) <$> seq 0 n)
                            ++ ((λ k, Destroy (this, k)) <$> reverse (seq 0 n))
                            ++ [Release this]).
Proof.
  intros Hfree n.
  set (fresh := StaticVector (replicate Capacity None) 0).
  destruct (push_back_all_eq this items (World (<[this := fresh]> (heap w)) (log w)) fresh)
    as (s' & Hrun & Hwf' & Hsz' & _); [apply lookup_insert_eq|apply wf_fresh|].
  simpl in Hsz', Hrun. rewrite Nat.sub_0_r, insert_insert_eq in Hrun.
  assert (Hn : size_ s' = n) by (unfold n; lia). rewrite Hn in Hrun.
  pose proof Hwf' as [Hlen' Hle' _].
  split.
  - unfold BM_Construction, bind.
    rewrite (static_vector_ctor_eq _ _ Hfree). cbv beta iota.
    fold fresh. rewrite Hrun. cbv beta iota.
    erewrite static_vector_dtor_eq; [|simpl; apply lookup_insert_eq|lia].
    simpl. rewrite (delete_insert_id _ _ _ Hfree), Hn, <- app_assoc.
    by eexists.
  - intros fuel Hfuel. unfold BM_PopBack, bind.
    rewrite (static_vector_ctor_eq _ _ Hfree). cbv beta iota.
    fold fresh. rewrite Hrun. cbv beta iota.
    erewrite pop_back_all_eq; [|simpl; apply lookup_insert_eq|done|lia].
    cbv beta iota.
    erewrite static_vector_dtor_eq;
      [|simpl; apply lookup_insert_eq|simpl; lia].
    simpl. rewrite insert_insert_eq, (delete_insert_id _ _ _ Hfree), Hn.
    unfold destroyed. simpl. rewrite <- !app_assoc, fmap_reverse. simpl.
    by eexists.
Qed.

(** ** Elements of reachable containers *)

(** X16.  Live elements can be read.  In every world a client program
    reaches from the initial one, every index below the size of a container
    names a slot that holds an element: [at_if] returns the pointer to it,
    the pointer can be followed, and [operator[]] reads the same element;
    the storage has [Capacity] slots. *)
Theorem reachable_elements_readable prog os w this s k :
  run prog initial = Some (os, w) →
  heap w !! this = Some s →
  k < size_ s →
  ∃ x, do_call this (CAtIf k) w = Some (OPtr (Some (this, k)) (Some x), w)
       ∧ do_call this (CGet k) w = Some (OElem x, w)
       ∧ length (storage_ s) = Capacity.
Proof.
  intros Hrun H Hk.
  pose proof (run_wf _ _ _ _ wf_world_initial Hrun _ _ H) as Hwf.
  destruct (wf_live _ Hwf k Hk) as [x Hx]. exists x.
  rewrite !(do_call_eq _ _ _ _ H Hwf). simpl.
  rewrite decide_True by done. rewrite Hx. simpl.
  rewrite (world_same _ _ _ H). by destruct Hwf.
Qed.

End static_vector.

(** ** Element types of the test suite *)

Global Instance int_copy_faithful : CopyFaithful Z.
Proof. done. Qed.

Global Instance string_copy_faithful : CopyFaithful string.
Proof. done. Qed.

(** ** Exactly-once destruction and the move constructor *)

(** C8.  Exactly-once destruction fails on the move constructor.  A
    capacity-1 container of [int] at address 0 receives one element, a
    second container is move-constructed from it at address 1, and both go
    out of scope.  The program runs to the end and leaves no container
    behind.  The log holds the construction of the element in slot 0 of
    container 0, the construction of its successor in slot 0 of container
    1, the destruction of that successor and the release of both storages:
    the element built in container 0 is never destroyed, because the move
    constructor sets the size of its source to zero without running the
    destructors that [clear] runs in the move assignment operator. *)
Theorem move_ctor_skips_destructors :
  ∃ os w,
    run 1 [SCtor 0; SCall 0 (CEmplaceBack 7%Z); SMoveCtor 1 0; SDtor 1; SDtor 0] initial
    = Some (os, w)
    ∧ heap w = ∅
    ∧ log w = [Construct (0, 0); Construct (1, 0); Destroy (1, 0); Release 1; Release 0]
    ∧ constructions (0, 0) (log w) = 1
    ∧ destructions (0, 0) (log w) = 0
    ∧ ¬ exactly_once (log w).
Proof.
  eexists _, _. split; [vm_compute; reflexivity|]. simpl.
  split; [reflexivity|]. split; [reflexivity|].
  split; [reflexivity|]. split; [reflexivity|].
  unfold exactly_once. intros H. vm_compute in H. discriminate.
Qed.

(** The same client with move assignment in place of move construction:
    the operator clears its source, and every object is destroyed exactly
    once. *)
Lemma move_assign_destroys_source :
  ∃ os w,
    run 1 [SCtor 0; SCall 0 (CEmplaceBack 7%Z); SCtor 1; SAssignMove 1 0; SDtor 1; SDtor 0]
        initial
    = Some (os, w)
    ∧ heap w = ∅
    ∧ log w = [Construct (0, 0); Construct (1, 0); Destroy (0, 0); Destroy (1, 0);
               Release 1; Release 0]
    ∧ exactly_once (log w).
Proof.
  eexists _, _. split; [vm_compute; reflexivity|]. simpl.
  split; [reflexivity|]. split; [reflexivity|].
  unfold exactly_once. vm_compute. reflexivity.
Qed.

(** ** The contracts at concrete containers *)

Ltac wf_concrete :=
  split; simpl; [reflexivity|lia|];
  let i := fresh "i" in let Hi := fresh "Hi" in
  intros i Hi;
  repeat (destruct i as [|i]; [eexists; reflexivity|]); lia.

Lemma push_contract_witness :
  let s := StaticVector [Some "hello"%string; None] 1 in
  let w := World {[5 := s]} [Construct (5, 0)] in
  let c := PushBackMove (Element (5, 0)) in
  let e := StaticVector [None; None] 0 in
  let we := World {[7 := e]} [] in
  let cs := [Emplace (Values "a"%string); PushBackMove (Element (7, 0))] in
  (heap w !! 5 = Some s ∧ wf 2 s ∧ size_ s < 2
   ∧ built w (forwarded c) = Some "hello"%string
   ∧ ∃ w' s', do_push 2 5 c w = Some (NoError, w')
              ∧ heap w' !! 5 = Some s'
              ∧ size_ s' = 2
              ∧ storage_ s' !! 1 = Some (Some "hello"%string)
              ∧ storage_ s' !! 0 = Some (Some String.EmptyString)
              ∧ log w' = [Construct (5, 0); Construct (5, 1)])
  ∧ (heap we !! 7 = Some e ∧ wf 2 e ∧ size_ e = 0 ∧ length cs = 2
     ∧ (∀ k c', cs !! k = Some c' → live_at we 7 k c')
     ∧ ∃ w', do_pushes 2 7 cs we = Some ([NoError; NoError], w')
             ∧ size 7 w' = Some (2, w')).
Proof.
  intros s w c e we cs. split.
  - assert (Hs : heap w !! 5 = Some s) by reflexivity.
    assert (Hwf : wf 2 s) by wf_concrete.
    assert (Hlt : size_ s < 2) by (simpl; lia).
    assert (Hx : built w (forwarded c) = Some "hello"%string) by reflexivity.
    split; [exact Hs|]. split; [exact Hwf|]. split; [exact Hlt|]. split; [exact Hx|].
    destruct (push_contract 2 w 5 s c Hs Hwf) as (_ & Hroom & _).
    destruct (Hroom Hlt _ Hx) as (w' & s' & Hpush & Hs' & Hsz & Hnew & _ & Hold & Hlog).
    exists w', s'. split; [exact Hpush|]. split; [exact Hs'|]. split; [exact Hsz|].
    split; [exact Hnew|]. split; [|exact Hlog].
    exact (Hold 0 "hello"%string eq_refl eq_refl).
  - assert (Hs : heap we !! 7 = Some e) by reflexivity.
    assert (Hwf : wf 2 e) by wf_concrete.
    assert (H0 : size_ e = 0) by reflexivity.
    assert (Hlen : length cs = 2) by reflexivity.
    assert (Hlive : ∀ k c', cs !! k = Some c' → live_at we 7 k c').
    { intros k c' Hc p Hp. destruct k as [|[|k]]; simpl in Hc; [| |discriminate].
      - injection Hc as <-. discriminate.
      - injection Hc as <-. injection Hp as <-. simpl. lia. }
    split; [exact Hs|]. split; [exact Hwf|]. split; [exact H0|]. split; [exact Hlen|].
    split; [exact Hlive|].
    destruct (push_contract 2 we 7 e c Hs Hwf) as (_ & _ & Hall).
    destruct (Hall H0 cs Hlen Hlive) as (w' & Hrun & Hsize & _).
    exists w'. split; [exact Hrun|exact Hsize].
Defined.

(** The push contract without the exception for an element passed as an
    rvalue fails: [v.push_back(std::move(v[0]))] on a [std::string]
    container with room returns [NoError] and leaves [v[0]] empty. *)
Lemma push_back_move_alters_element :
  let s := StaticVector [Some "hello"%string; None] 1 in
  let w := World {[5 := s]} [Construct (5, 0)] in
  heap w !! 5 = Some s ∧ wf 2 s ∧ size_ s < 2
  ∧ push_back_move 2 5 (Element (5, 0)) w
    = Some (NoError,
            World {[5 := StaticVector [Some String.EmptyString; Some "hello"%string] 2]}
                  [Construct (5, 0); Construct (5, 1)])
  ∧ ¬ ∃ w' s', push_back_move 2 5 (Element (5, 0)) w = Some (NoError, w')
               ∧ heap w' !! 5 = Some s'
               ∧ size_ s' = S (size_ s)
               ∧ ∀ i, i < size_ s → storage_ s' !! i = storage_ s !! i.
Proof.
  intros s w. split; [reflexivity|]. split; [wf_concrete|]. split; [simpl; lia|].
  assert (Hrun : push_back_move 2 5 (Element (5, 0)) w
                 = Some (NoError,
                         World {[5 := StaticVector [Some String.EmptyString;
                                                    Some "hello"%string] 2]}
                               [Construct (5, 0); Construct (5, 1)]))
    by (vm_compute; reflexivity).
  split; [exact Hrun|].
  intros (w' & s' & Hrun' & Hs' & _ & Hframe).
  rewrite Hrun in Hrun'. injection Hrun' as <-.
  vm_compute in Hs'. injection Hs' as <-.
  specialize (Hframe 0). vm_compute in Hframe.
  discriminate (Hframe (le_n 1)).
Qed.

Lemma pop_back_contract_witness :
  let s := StaticVector [Some 1%Z; Some 2%Z; None] 2 in
  let w := World {[5 := s]} [] in
  heap w !! 5 = Some s ∧ wf 3 s
  ∧ ∃ w', pop_back 5 w = Some (NoError, w') ∧ log w' = [Destroy (5, 1)].
Proof.
  intros s w.
  assert (Hs : heap w !! 5 = Some s) by reflexivity.
  assert (Hwf : wf 3 s) by wf_concrete.
  split; [exact Hs|]. split; [exact Hwf|].
  destruct (pop_back_contract 3 w 5 s Hs Hwf) as (_ & Hpop).
  destruct Hpop as (w' & s' & Hpop & _ & _ & Hlog & _); [simpl; lia|].
  exists w'. split; [exact Hpop|exact Hlog].
Defined.

Lemma copy_round_trip_witness :
  let sc := StaticVector [Some 4%Z; Some 5%Z; None] 2 in
  let w := World {[1 := sc]} [] in
  wf_world 3 w ∧ heap w !! 1 = Some sc ∧ 2 ≠ 1 ∧ heap w !! 2 = None
  ∧ ∃ w', static_vector_copy_ctor 3 2 1 w = Some (tt, w')
          ∧ size 2 w' = Some (2, w')
          ∧ heap w' !! 1 = Some sc.
Proof.
  intros sc w.
  assert (Hw : wf_world 3 w).
  { intros a s Hs. subst w. simpl in Hs.
    apply lookup_singleton_Some in Hs as [_ <-]. wf_concrete. }
  assert (Hc : heap w !! 1 = Some sc) by reflexivity.
  assert (Hne : 2 ≠ 1) by lia.
  assert (Hfree : heap w !! 2 = None) by reflexivity.
  split; [exact Hw|]. split; [exact Hc|]. split; [exact Hne|]. split; [exact Hfree|].
  destruct (copy_round_trip 3 w 1 sc 2 (static_vector_copy_ctor 3 2 1) Hw Hc Hne
              (or_introl (conj Hfree eq_refl)))
    as (w' & Hrun & Hsize & _ & _ & Hsame & _).
  exists w'. split; [exact Hrun|]. split; [exact Hsize|exact Hsame].
Defined.

Lemma move_construction_round_trip_witness :
  let sc := StaticVector [Some "a"%string; None] 1 in
  let w := World {[1 := sc]} [] in
  wf_world 2 w ∧ heap w !! 1 = Some sc ∧ heap w !! 2 = None
  ∧ ∃ w', static_vector_move_ctor 2 2 1 w = Some (tt, w')
          ∧ log w' = [Construct (2, 0)]
          ∧ size 1 w' = Some (0, w').
Proof.
  intros sc w.
  assert (Hw : wf_world 2 w).
  { intros a s Hs. subst w. simpl in Hs.
    apply lookup_singleton_Some in Hs as [_ <-]. wf_concrete. }
  assert (Hc : heap w !! 1 = Some sc) by reflexivity.
  assert (Hfree : heap w !! 2 = None) by reflexivity.
  split; [exact Hw|]. split; [exact Hc|]. split; [exact Hfree|].
  destruct (move_construction_round_trip 2 w 1 sc 2 Hw Hc Hfree)
    as (w' & sm & sc' & Hrun & _ & _ & _ & Hlog & _ & _ & Hsize & _).
  exists w'. split; [exact Hrun|]. split; [exact Hlog|exact Hsize].
Defined.

Lemma move_assignment_contract_witness :
  let sd := StaticVector [Some "x"%string; None] 1 in
  let ss := StaticVector [Some "a"%string; Some "b"%string] 2 in
  let w := World (<[1 := sd]> {[2 := ss]}) [] in
  1 ≠ 2 ∧ heap w !! 1 = Some sd ∧ heap w !! 2 = Some ss ∧ wf 2 sd ∧ wf 2 ss
  ∧ ∃ w', operator_assign_move 1 2 w = Some (tt, w')
          ∧ log w' = [Destroy (1, 0); Construct (1, 0); Construct (1, 1);
                      Destroy (2, 0); Destroy (2, 1)].
Proof.
  intros sd ss w.
  assert (Hne : 1 ≠ 2) by lia.
  assert (Hd : heap w !! 1 = Some sd) by reflexivity.
  assert (Hs : heap w !! 2 = Some ss) by reflexivity.
  assert (Hwd : wf 2 sd) by wf_concrete.
  assert (Hws : wf 2 ss) by wf_concrete.
  split; [exact Hne|]. split; [exact Hd|]. split; [exact Hs|].
  split; [exact Hwd|]. split; [exact Hws|].
  destruct (move_assignment_contract 2 w 1 2 sd ss Hne Hd Hs Hwd Hws)
    as (w' & sd' & ss' & Hrun & Hlog & _).
  exists w'. split; [exact Hrun|exact Hlog].
Defined.

Lemma clear_contract_witness :
  let s := StaticVector [Some 1%Z; Some 2%Z; None] 2 in
  let w := World {[5 := s]} [] in
  heap w !! 5 = Some s ∧ wf 3 s
  ∧ ∃ w1, clear 5 w = Some (tt, w1)
          ∧ log w1 = [Destroy (5, 0); Destroy (5, 1)]
          ∧ clear 5 w1 = Some (tt, w1).
Proof.
  intros s w.
  assert (Hs : heap w !! 5 = Some s) by reflexivity.
  assert (Hwf : wf 3 s) by wf_concrete.
  split; [exact Hs|]. split; [exact Hwf|].
  destruct (clear_contract 3 w 5 s Hs Hwf)
    as (w1 & s1 & Hrun & Hlog & _ & _ & _ & _ & Hagain & _).
  exists w1. split; [exact Hrun|]. split; [exact Hlog|exact Hagain].
Defined.

Lemma checked_access_contract_witness :
  let s := StaticVector [Some 1%Z; Some 2%Z; None] 2 in
  let w := World {[5 := s]} [] in
  heap w !! 5 = Some s ∧ wf 3 s
  ∧ ∃ r, at_if 5 2 w = Some (r, w) ∧ (r = None ↔ size_ s ≤ 2).
Proof.
  intros s w.
  assert (Hs : heap w !! 5 = Some s) by reflexivity.
  assert (Hwf : wf 3 s) by wf_concrete.
  split; [exact Hs|]. split; [exact Hwf|].
  destruct (checked_access_contract 3 w 5 s 2 Hs Hwf) as ((r & Hat & Hnull & _) & _).
  exists r. split; [exact Hat|exact Hnull].
Defined.

Lemma capacity_invariant_witness :
  ∃ os w,
    run 2 [SCtor 0; SCall 0 (CPushBack 1%Z); SCall 0 (CPushBack 2%Z);
           SCall 0 (CPushBack 3%Z)] initial = Some (os, w)
    ∧ ∃ s, heap w !! 0 = Some s
           ∧ ∃ n, size 0 w = Some (n, w) ∧ capacity 2 0 w = Some (2, w) ∧ n ≤ 2.
Proof.
  eexists _, _. split; [vm_compute; reflexivity|].
  eexists. split; [reflexivity|].
  eapply (capacity_invariant 2
            [SCtor 0; SCall 0 (CPushBack 1%Z); SCall 0 (CPushBack 2%Z);
             SCall 0 (CPushBack 3%Z)]);
    [vm_compute; reflexivity|reflexivity].
Defined.

(** ** The further contracts at concrete containers *)

Lemma forward_iteration_contract_witness :
  let s := StaticVector [Some 1%Z; Some 2%Z; None] 2 in
  let w := World {[5 := s]} [] in
  heap w !! 5 = Some s ∧ wf 3 s ∧ size_ s ≤ 2
  ∧ range_for 2 5 w = Some ([1%Z; 2%Z], w).
Proof.
  intros s w.
  assert (Hs : heap w !! 5 = Some s) by reflexivity.
  assert (Hwf : wf 3 s) by wf_concrete.
  assert (Hfuel : size_ s ≤ 2) by (simpl; lia).
  split; [exact Hs|]. split; [exact Hwf|]. split; [exact Hfuel|].
  exact (proj1 (forward_iteration_contract 3 w 5 s 2 Hs Hwf Hfuel)).
Defined.

Lemma reverse_iteration_contract_witness :
  let s := StaticVector [Some 1%Z; Some 2%Z; None] 2 in
  let w := World {[5 := s]} [] in
  heap w !! 5 = Some s ∧ wf 3 s ∧ size_ s ≤ 4
  ∧ reverse_range 4 5 w = Some ([2%Z; 1%Z], w).
Proof.
  intros s w.
  assert (Hs : heap w !! 5 = Some s) by reflexivity.
  assert (Hwf : wf 3 s) by wf_concrete.
  assert (Hfuel : size_ s ≤ 4) by (simpl; lia).
  split; [exact Hs|]. split; [exact Hwf|]. split; [exact Hfuel|].
  exact (proj1 (reverse_iteration_contract 3 w 5 s 4 Hs Hwf Hfuel)).
Defined.

Lemma default_construction_contract_witness :
  let w := World (T := Z) {[1 := StaticVector [Some 4%Z] 1]} [Construct (1, 0)] in
  heap w !! 2 = None
  ∧ ∃ w', static_vector_ctor 3 2 w = Some (tt, w')
          ∧ log w' = [Construct (1, 0)]
          ∧ pop_back 2 w' = Some (Empty, w').
Proof.
  intros w.
  assert (Hfree : heap w !! 2 = None) by reflexivity.
  split; [exact Hfree|].
  destruct (default_construction_contract 3 w 2 Hfree)
    as (w' & Hrun & Hlog & _ & _ & _ & _ & _ & _ & _ & Hpop & _).
  exists w'. split; [exact Hrun|]. split; [exact Hlog|exact Hpop].
Defined.

Lemma destruction_contract_witness :
  let s := StaticVector [Some 1%Z; Some 2%Z; None] 2 in
  let w := World {[5 := s]} [] in
  heap w !! 5 = Some s ∧ wf 3 s
  ∧ ∃ w', static_vector_dtor 5 w = Some (tt, w')
          ∧ log w' = [Destroy (5, 0); Destroy (5, 1); Release 5].
Proof.
  intros s w.
  assert (Hs : heap w !! 5 = Some s) by reflexivity.
  assert (Hwf : wf 3 s) by wf_concrete.
  split; [exact Hs|]. split; [exact Hwf|].
  destruct (destruction_contract 3 w 5 s Hs Hwf) as (w' & Hrun & Hlog & _).
  exists w'. split; [exact Hrun|exact Hlog].
Defined.

Lemma copy_lifetime_events_witness :
  let sc := StaticVector [Some 4%Z; None; None] 1 in
  let st := StaticVector [Some 7%Z; Some 8%Z; None] 2 in
  let w := World (<[1 := sc]> {[2 := st]}) [] in
  wf_world 3 w ∧ heap w !! 1 = Some sc ∧ 2 ≠ 1 ∧ heap w !! 2 = Some st
  ∧ ∃ w', operator_assign_copy 2 1 w = Some (tt, w')
          ∧ log w' = [Destroy (2, 0); Destroy (2, 1); Construct (2, 0)].
Proof.
  intros sc st w.
  assert (Hw : wf_world 3 w).
  { intros a s Hs. subst w. simpl in Hs.
    apply lookup_insert_Some in Hs as [[_ <-]|[_ Hs]]; [wf_concrete|].
    apply lookup_singleton_Some in Hs as [_ <-]. wf_concrete. }
  assert (Hc : heap w !! 1 = Some sc) by reflexivity.
  assert (Hne : 2 ≠ 1) by lia.
  assert (Hst : heap w !! 2 = Some st) by reflexivity.
  split; [exact Hw|]. split; [exact Hc|]. split; [exact Hne|]. split; [exact Hst|].
  destruct (copy_lifetime_events 3 w 1 sc 2 Hw Hc Hne) as (_ & Hassign).
  destruct (Hassign st Hst) as (w' & s' & Hrun & Hlog & _).
  exists w'. split; [exact Hrun|exact Hlog].
Defined.

Lemma push_pop_round_trip_witness :
  let s := StaticVector [Some "a"%string; None] 1 in
  let w := World {[5 := s]} [] in
  let c := PushBackMove (Element (5, 0)) in
  heap w !! 5 = Some s ∧ wf 2 s ∧ size_ s < 2
  ∧ built w (forwarded c) = Some "a"%string
  ∧ ∃ w', (bind (do_push 2 5 c) (λ r1, bind (pop_back 5) (λ r2, ret (r1, r2)))) w
          = Some ((NoError, NoError), w')
          ∧ log w' = [Construct (5, 1); Destroy (5, 1)]
          ∧ slot (heap w') (5, 0) = Some (Some String.EmptyString).
Proof.
  intros s w c.
  assert (Hs : heap w !! 5 = Some s) by reflexivity.
  assert (Hwf : wf 2 s) by wf_concrete.
  assert (Hlt : size_ s < 2) by (simpl; lia).
  assert (Hx : built w (forwarded c) = Some "a"%string) by reflexivity.
  split; [exact Hs|]. split; [exact Hwf|]. split; [exact Hlt|]. split; [exact Hx|].
  destruct (push_pop_round_trip 2 w 5 s c "a"%string Hs Hwf Hlt Hx)
    as (w' & s' & Hrun & _ & _ & _ & _ & Hlog & _ & Hmoved & _).
  exists w'. split; [exact Hrun|]. split; [exact Hlog|].
  exact (Hmoved (5, 0) "a"%string eq_refl eq_refl).
Defined.

Lemma pushed_element_is_back_witness :
  let s := StaticVector [Some 1%Z; None] 1 in
  let w := World {[5 := s]} [] in
  heap w !! 5 = Some s ∧ wf 2 s ∧ size_ s < 2
  ∧ ∃ w', push 2 ByCopy 5 9%Z w = Some (NoError, w')
          ∧ do_call 2 5 CBackIf w' = Some (OPtr (Some (5, 1)) (Some 9%Z), w').
Proof.
  intros s w.
  assert (Hs : heap w !! 5 = Some s) by reflexivity.
  assert (Hwf : wf 2 s) by wf_concrete.
  assert (Hlt : size_ s < 2) by (simpl; lia).
  split; [exact Hs|]. split; [exact Hwf|]. split; [exact Hlt|].
  destruct (pushed_element_is_back 2 ByCopy w 5 s 9%Z Hs Hwf Hlt)
    as (w' & Hrun & Hback & _).
  exists w'. split; [exact Hrun|exact Hback].
Defined.

Lemma reserved_codes_never_returned_witness :
  let s := StaticVector [Some 1%Z] 1 in
  let w := World {[5 := s]} [] in
  push 1 ByCopy 5 2%Z w = Some (OutOfSpace, w)
  ∧ (OutOfSpace = NoError ∨ OutOfSpace = OutOfSpace).
Proof.
  intros s w.
  assert (Hrun : push 1 ByCopy 5 2%Z w = Some (OutOfSpace, w)) by reflexivity.
  split; [exact Hrun|].
  exact (proj1 (reserved_codes_never_returned 1 w 5) ByCopy 2%Z OutOfSpace w Hrun).
Defined.

Lemma subscript_write_read_witness :
  let s := StaticVector [Some 1%Z; Some 2%Z; None] 2 in
  let w := World {[5 := s]} [] in
  heap w !! 5 = Some s ∧ wf 3 s ∧ 1 < size_ s
  ∧ ∃ w', do_call 3 5 (CSet 1 7%Z) w = Some (OUnit, w')
          ∧ do_call 3 5 (CGet 1) w' = Some (OElem 7%Z, w').
Proof.
  intros s w.
  assert (Hs : heap w !! 5 = Some s) by reflexivity.
  assert (Hwf : wf 3 s) by wf_concrete.
  assert (Hpos : 1 < size_ s) by (simpl; lia).
  split; [exact Hs|]. split; [exact Hwf|]. split; [exact Hpos|].
  destruct (subscript_write_read 3 w 5 s 1 7%Z Hs Hwf Hpos)
    as (w' & Hset & _ & Hget & _).
  exists w'. split; [exact Hset|exact Hget].
Defined.

Lemma fill_loop_contract_witness :
  let s := StaticVector [Some 1%Z; None; None] 1 in
  let w := World {[5 := s]} [] in
  heap w !! 5 = Some s ∧ wf 3 s
  ∧ ∃ w', push_back_all 3 5 [2%Z; 3%Z; 4%Z] w = Some (tt, w')
          ∧ size 5 w' = Some (3, w')
          ∧ log w' = [Construct (5, 1); Construct (5, 2)].
Proof.
  intros s w.
  assert (Hs : heap w !! 5 = Some s) by reflexivity.
  assert (Hwf : wf 3 s) by wf_concrete.
  split; [exact Hs|]. split; [exact Hwf|].
  destruct (fill_loop_contract 3 w 5 s [2%Z; 3%Z; 4%Z] Hs Hwf)
    as (w' & s' & Hrun & _ & Hsize & _ & Hlog & _).
  exists w'. split; [exact Hrun|]. split; [exact Hsize|exact Hlog].
Defined.

Lemma pop_back_loop_contract_witness :
  let s := StaticVector [Some 1%Z; Some 2%Z; None] 2 in
  let w := World {[5 := s]} [] in
  heap w !! 5 = Some s ∧ wf 3 s ∧ size_ s ≤ 2
  ∧ ∃ w', pop_back_all 2 5 w = Some (tt, w')
          ∧ log w' = [Destroy (5, 1); Destroy (5, 0)].
Proof.
  intros s w.
  assert (Hs : heap w !! 5 = Some s) by reflexivity.
  assert (Hwf : wf 3 s) by wf_concrete.
  assert (Hfuel : size_ s ≤ 2) by (simpl; lia).
  split; [exact Hs|]. split; [exact Hwf|]. split; [exact Hfuel|].
  destruct (pop_back_loop_contract 3 w 5 s 2 Hs Hwf Hfuel) as (w' & Hrun & Hlog & _).
  exists w'. split; [exact Hrun|exact Hlog].
Defined.

Lemma fill_then_read_witness :
  let w := @initial Z in
  heap w !! 0 = None ∧ length [4%Z; 5%Z] ≤ 3
  ∧ ∃ w', bind (static_vector_ctor 3 0) (λ _, push_back_all 3 0 [4%Z; 5%Z]) w
          = Some (tt, w')
          ∧ do_call 3 0 (CGet 1) w' = Some (OElem 5%Z, w').
Proof.
  intros w.
  assert (Hfree : heap w !! 0 = None) by reflexivity.
  assert (Hlen : length [4%Z; 5%Z] ≤ 3) by (simpl; lia).
  split; [exact Hfree|]. split; [exact Hlen|].
  destruct (fill_then_read 3 w 0 [4%Z; 5%Z] Hfree Hlen) as (w' & Hrun & _ & Hread & _).
  exists w'. split; [exact Hrun|].
  exact (proj1 (Hread 1 5%Z eq_refl)).
Defined.

Lemma benchmark_rounds_balanced_witness :
  let w := @initial Z in
  heap w !! 0 = None
  ∧ ∃ w', BM_Construction 2 0 [4%Z; 5%Z; 6%Z] w = Some (tt, w')
          ∧ heap w' = heap w
          ∧ log w' = [Construct (0, 0); Construct (0, 1); Destroy (0, 0); Destroy (0, 1);
                      Release 0].
Proof.
  intros w.
  assert (Hfree : heap w !! 0 = None) by reflexivity.
  split; [exact Hfree|].
  destruct (benchmark_rounds_balanced 2 w 0 [4%Z; 5%Z; 6%Z] Hfree)
    as ((w' & Hrun & Hheap & Hlog) & _).
  exists w'. split; [exact Hrun|]. split; [exact Hheap|exact Hlog].
Defined.

Lemma exactly_once_without_move_ctor_witness :
  ∃ os w,
    Forall no_move_ctor
      [SCtor 0; SCall 0 (CPushBack 1%Z); SCtor 1; SAssignCopy 1 0; SDtor 1; SDtor 0]
    ∧ run 1 [SCtor 0; SCall 0 (CPushBack 1%Z); SCtor 1; SAssignCopy 1 0; SDtor 1; SDtor 0]
          initial = Some (os, w)
    ∧ heap w = ∅
    ∧ exactly_once (log w).
Proof.
  eexists _, _.
  assert (Hall : Forall (@no_move_ctor Z)
            [SCtor 0; SCall 0 (CPushBack 1%Z); SCtor 1; SAssignCopy 1 0; SDtor 1; SDtor 0])
    by (repeat constructor).
  split; [exact Hall|]. split; [vm_compute; reflexivity|].
  split; [reflexivity|].
  edestruct (exactly_once_without_move_ctor 1
               [SCtor 0; SCall 0 (CPushBack 1%Z); SCtor 1; SAssignCopy 1 0; SDtor 1; SDtor 0])
    as (live & _ & _ & Honce); [exact Hall|vm_compute; reflexivity|].
  apply Honce. reflexivity.
Defined.

Lemma never_destroyed_twice_witness :
  ∃ os w,
    run 1 [SCtor 0; SCall 0 (CEmplaceBack 7%Z); SMoveCtor 1 0; SCall 0 (CPushBack 8%Z);
           SDtor 1; SDtor 0] initial = Some (os, w)
    ∧ never_twice (log w).
Proof.
  eexists _, _. split; [vm_compute; reflexivity|].
  eapply (never_destroyed_twice 1
            [SCtor 0; SCall 0 (CEmplaceBack 7%Z); SMoveCtor 1 0; SCall 0 (CPushBack 8%Z);
             SDtor 1; SDtor 0]).
  vm_compute; reflexivity.
Defined.

Lemma reachable_elements_readable_witness :
  let prog := [SCtor 0; SCall 0 (CPushBack 1%Z); SCall 0 (CPushBack 2%Z)] in
  let s := StaticVector [Some 1%Z; Some 2%Z] 2 in
  let w := World {[0 := s]} [Construct (0, 0); Construct (0, 1)] in
  let os := [OUnit; OCode NoError; OCode NoError] in
  run 2 prog initial = Some (os, w) ∧ heap w !! 0 = Some s ∧ 1 < size_ s
  ∧ ∃ x, do_call 2 0 (CGet 1) w = Some (OElem x, w).
Proof.
  intros prog s w os.
  assert (Hrun : run 2 prog initial = Some (os, w)) by (vm_compute; reflexivity).
  assert (Hs : heap w !! 0 = Some s) by reflexivity.
  assert (Hk : 1 < size_ s) by (simpl; lia).
  split; [exact Hrun|]. split; [exact Hs|]. split; [exact Hk|].
  destruct (reachable_elements_readable 2 prog os w 0 s 1 Hrun Hs Hk)
    as (x & _ & Hget & _).
  exists x. exact Hget.
Defined.
